(** * An LRU / TTL / persistent cache: the third version of the caching layer

    Shallow embedding of [Challenge 3/v3.py] (classes [CacheEntry],
    [CacheConfig] and [Cache]) together with the positional eviction of
    [Challenge 3/v2.py], followed by the properties of the cache.

    Modelling conventions.
    - Timestamps and durations are Python floats in the source; they are
      represented by integers of one fixed unit, with exact addition and
      the usual order.
    - [time.time()] is read several times inside one operation.  The
      clock is a sequence of readings [clock 0, clock 1, ...]; the world
      keeps the index of the next reading, and every call of
      [time.time()] in the source consumes one reading in the model.
    - The [OrderedDict] is an association list in recency order (head =
      least recently used, last = most recently used).
    - The file system maps paths to file contents; a JSON file is
      represented by what [json.load] would make of it.  Values are
      opaque; what [json.dump] and [json.load] do to them is given by
      the class [JSON], and a [json.dump] that raises leaves text that
      is not JSON.
    - The lock serialises the public operations; each one is a single
      atomic state transformer.  Messages printed to stdout or stderr are
      not part of the state. *)

From Stdlib Require Import String ZArith Bool Lia.
From Stdlib Require Import List Sorted.
Import ListNotations.
Local Open Scope string_scope.
Local Open Scope list_scope.
Local Open Scope Z_scope.

(** ** collections.OrderedDict, as far as the cache uses it *)

Module OrderedDict.
Section Ops.
Context {V : Type}.

Definition t : Type := list (string * V).

(** [d.get(k)] *)
Fixpoint get (d : t) (k : string) : option V :=
  match d with
  | [] => None
  | (k', v) :: r => if String.eqb k' k then Some v else get r k
  end.

(** [k in d] *)
Definition contains (d : t) (k : string) : bool :=
  match get d k with Some _ => true | None => false end.

(** [del d[k]]; every call site checks [k in d] first. *)
Fixpoint delitem (d : t) (k : string) : t :=
  match d with
  | [] => []
  | (k', v) :: r =>
      if String.eqb k' k then r else (k', v) :: delitem r k
  end.

(** [d[k] = v]: a key already present keeps its position, a new key
    goes to the end. *)
Fixpoint setitem (d : t) (k : string) (v : V) : t :=
  match d with
  | [] => [(k, v)]
  | (k', v') :: r =>
      if String.eqb k' k then (k', v) :: r else (k', v') :: setitem r k v
  end.

(** [d.move_to_end(k)]; the call site holds an entry for [k]. *)
Definition move_to_end (d : t) (k : string) : t :=
  match get d k with
  | Some v => delitem d k ++ [(k, v)]
  | None => d
  end.

(** [d.popitem(last=False)] on a non-empty dictionary. *)
Definition popitem_first (d : t) : option ((string * V) * t) :=
  match d with
  | [] => None
  | kv :: r => Some (kv, r)
  end.

Definition keys (d : t) : list string := map fst d.
Definition values (d : t) : list V := map snd d.
Definition len (d : t) : Z := Z.of_nat (length d).
End Ops.
End OrderedDict.

(** [min(xs, key=f)]: the first element whose key is smallest. *)
Fixpoint py_min_from {A : Type} (f : A -> Z) (best : A) (xs : list A) : A :=
  match xs with
  | [] => best
  | x :: r => if f x <? f best then py_min_from f x r else py_min_from f best r
  end.

Definition py_min {A : Type} (f : A -> Z) (xs : list A) : option A :=
  match xs with
  | [] => None
  | x :: r => Some (py_min_from f x r)
  end.

(** Outcome of a call that may raise. *)
Inductive exn : Type := ValueError.

Inductive result (A : Type) : Type :=
| Return (a : A)
| Raise (e : exn).
Arguments Return {A} a.
Arguments Raise {A} e.

(** The [key] argument as a caller may pass it: the annotation [key: str]
    is not enforced by Python. *)
Inductive KeyArg : Type :=
| KStr (k : string)
| KNotStr.

(** Truth value of an [Optional[float]] in a condition: [None] and [0.0]
    are false. *)
Definition truthy_time (x : option Z) : bool :=
  match x with Some t => negb (t =? 0) | None => false end.

Definition is_some {A : Type} (x : option A) : bool :=
  match x with Some _ => true | None => false end.

(** What the [json] module does to the values a cache stores:
    [json_roundtrip v] is [None] when [json.dump] raises on [v] (a set,
    an instance of a class of one's own), and otherwise the value that
    [json.load] returns for the text written, which is [v] for a string
    and a list for a tuple. *)
Class JSON (Value : Type) : Type := {
  json_roundtrip : Value -> option Value
}.

(** A string is written and read back as it is. *)
#[global] Instance string_JSON : JSON string :=
  {| json_roundtrip := fun s => Some s |}.

Module V3.

Section Model.
Context {Value : Type}.

(** *** CacheEntry *)
Record CacheEntry : Type := mkEntry {
  key : string;
  value : Value;
  created_at : Z;
  expires_at : option Z;
  last_accessed : Z
}.

(** The entry after the assignment [self.last_accessed = now]. *)
Definition with_last_accessed (e : CacheEntry) (now : Z) : CacheEntry :=
  mkEntry (key e) (value e) (created_at e) (expires_at e) now.

(** *** CacheConfig *)
Record CacheConfig : Type := mkConfig {
  max_size : Z;
  default_ttl : option Z;
  storage_file : option string;
  enable_persistence : bool;
  auto_cleanup : bool
}.

(** [CacheConfig.__init__] *)
Definition CacheConfig_init (max_size : Z) (default_ttl : option Z)
    (storage_file : option string) (enable_persistence auto_cleanup : bool)
    : result CacheConfig :=
  if max_size <=? 0 then Raise ValueError
  else Return (mkConfig max_size default_ttl storage_file
                 (enable_persistence && is_some storage_file) auto_cleanup).

(** [CacheConfig()] with every default; 100 is positive. *)
Definition CacheConfig_default : CacheConfig :=
  mkConfig 100 None None (true && is_some (@None string)) true.

(** *** The persisted file *)

(** One element of the ['entries'] list: either a dictionary from which
    [CacheEntry.from_dict] builds an entry, or anything on which it (or
    the comparison that follows) raises. *)
Inductive EntryData : Type :=
| EntryDict (e : CacheEntry)
| Malformed.

(** What [json.load] makes of the file: text that is not JSON, a JSON
    value that is not a dictionary with an ['entries'] key, or a
    snapshot, given by its version, its timestamp and the elements that
    iterating over its ['entries'] yields. *)
Inductive File : Type :=
| NotJSON
| NoEntries
| Snapshot (version : string) (timestamp : Z) (entries : list EntryData).

(** [CacheEntry.to_dict] *)
Definition to_dict (e : CacheEntry) : EntryData := EntryDict e.

(** [CacheEntry.from_dict]; [None] stands for the exception it raises on
    a dictionary that lacks one of the five keys. *)
Definition from_dict (data : EntryData) : option CacheEntry :=
  match data with
  | EntryDict e => Some e
  | Malformed => None
  end.

(** *** State *)

(** [self._stats] *)
Record Stats : Type := mkStats {
  hits : Z;
  misses : Z;
  evictions : Z;
  expirations : Z
}.

(** What lies outside the cache object: the index of the next clock
    reading, the files by path, and whether the disk accepts writes. *)
Record World : Type := mkWorld {
  ticks : nat;
  files : string -> option File;
  writable : bool
}.

(** A cache instance in its world. *)
Record State : Type := mkState {
  config : CacheConfig;
  _cache : OrderedDict.t (V := CacheEntry);
  _stats : Stats;
  world : World
}.

Definition write_file (fs : string -> option File) (p : string)
    (c : option File) : string -> option File :=
  fun q => if String.eqb q p then c else fs q.

Definition set_cache (c : OrderedDict.t) (s : State) : State :=
  mkState (config s) c (_stats s) (world s).
Definition set_stats (st : Stats) (s : State) : State :=
  mkState (config s) (_cache s) st (world s).
Definition set_world (w : World) (s : State) : State :=
  mkState (config s) (_cache s) (_stats s) w.

Definition incr_hits (st : Stats) : Stats :=
  mkStats (hits st + 1) (misses st) (evictions st) (expirations st).
Definition incr_misses (st : Stats) : Stats :=
  mkStats (hits st) (misses st + 1) (evictions st) (expirations st).
Definition incr_evictions (st : Stats) : Stats :=
  mkStats (hits st) (misses st) (evictions st + 1) (expirations st).
Definition incr_expirations (st : Stats) : Stats :=
  mkStats (hits st) (misses st) (evictions st) (expirations st + 1).

(** *** A state monad for the methods of [Cache] *)
Definition M (A : Type) : Type := State -> A * State.

Definition ret {A : Type} (a : A) : M A := fun s => (a, s).

Definition bind {A B : Type} (m : M A) (f : A -> M B) : M B :=
  fun s => let '(a, s') := m s in f a s'.

Definition gets {A : Type} (f : State -> A) : M A := fun s => (f s, s).

Definition modify (f : State -> State) : M unit := fun s => (tt, f s).

Definition when (b : bool) (m : M unit) : M unit :=
  if b then m else ret tt.

Fixpoint for_each {A : Type} (xs : list A) (body : A -> M unit) : M unit :=
  match xs with
  | [] => ret tt
  | x :: r => bind (body x) (fun _ => for_each r body)
  end.
End Model.

Arguments CacheEntry : clear implicits.
Arguments CacheConfig : clear implicits.
Arguments EntryData : clear implicits.
Arguments File : clear implicits.
Arguments World : clear implicits.
Arguments State : clear implicits.
Arguments M : clear implicits.

Declare Scope cache_scope.
Delimit Scope cache_scope with cache.
Notation "x <- m ;; f" := (bind m (fun x => f))
  (at level 61, m at next level, right associativity) : cache_scope.
Notation "m ;;; f" := (bind m (fun _ => f))
  (at level 61, right associativity) : cache_scope.
Local Open Scope cache_scope.

Section Methods.
Context {Value : Type} {codec : JSON Value}.

(** [clock i] is the value returned by the [i]-th call of [time.time()]. *)
Variable clock : nat -> Z.

Local Abbreviation Entry := (CacheEntry Value).
Local Abbreviation Store := (OrderedDict.t (V := CacheEntry Value)).

(** [time.time()] *)
Definition time_time : M Value Z :=
  fun s =>
    let w := world s in
    (clock (ticks w), set_world (mkWorld (S (ticks w)) (files w) (writable w)) s).

(** [CacheEntry.is_expired] *)
Definition is_expired (e : Entry) : M Value bool :=
  match expires_at e with
  | None => ret false
  | Some x => now <- time_time ;; ret (now >? x)
  end.

(** [CacheEntry.update_access_time]; the entry it yields takes the
    place of the one it was called on. *)
Definition update_access_time (e : Entry) : M Value Entry :=
  now <- time_time ;; ret (with_last_accessed e now).

(** [os.replace(src, dst)] *)
Definition os_replace (fs : string -> option (File Value)) (src dst : string)
    : string -> option (File Value) :=
  write_file (write_file fs dst (fs src)) src None.

(** What [json.load] gives back for an element of ['entries'] that
    [json.dump] wrote; [None] when [json.dump] raises on its value.
    Keys, timestamps and [None] are read back as they were written. *)
Definition json_entry (data : EntryData Value) : option (EntryData Value) :=
  match data with
  | EntryDict e =>
      match json_roundtrip (value e) with
      | Some v =>
          Some (EntryDict (mkEntry (key e) v (created_at e) (expires_at e)
                             (last_accessed e)))
      | None => None
      end
  | Malformed => Some Malformed
  end.

(** The same for the whole list: [json.dump] raises as soon as one
    element does. *)
Fixpoint json_entries (l : list (EntryData Value))
    : option (list (EntryData Value)) :=
  match l with
  | [] => Some []
  | data :: r =>
      match json_entry data, json_entries r with
      | Some d, Some r' => Some (d :: r')
      | _, _ => None
      end
  end.

(** [Cache._save_to_storage]: the snapshot is written to the temporary
    file and renamed over the storage file.  When the disk cannot be
    written, [open] raises, the exception is caught and the save is
    lost; the timestamp has been read by then.  When [json.dump] raises
    on a value, the exception is caught as well: the temporary file is
    left with the text written so far, which is not JSON, and the
    storage file is not replaced. *)
Definition _save_to_storage : M Value unit :=
  cfg <- gets config ;;
  match storage_file cfg with
  | None => ret tt
  | Some path =>
      if String.eqb path EmptyString then ret tt
      else
        now <- time_time ;;
        c <- gets _cache ;;
        let entries := map to_dict (OrderedDict.values c) in
        let temp_file := String.append path ".tmp" in
        modify (fun s =>
          let w := world s in
          if writable w then
            match json_entries entries with
            | Some written =>
                let data := Snapshot "1.0" now written in
                let fs1 := write_file (files w) temp_file (Some data) in
                set_world (mkWorld (ticks w) (os_replace fs1 temp_file path)
                             (writable w)) s
            | None =>
                set_world (mkWorld (ticks w)
                             (write_file (files w) temp_file (Some NotJSON))
                             (writable w)) s
            end
          else s)
  end.

(** Body of the loop of [_load_from_storage] for one element of
    ['entries']. *)
Definition load_entry (current_time : Z) (entry_data : EntryData Value)
    : M Value unit :=
  match from_dict entry_data with
  | None => ret tt
  | Some entry =>
      if truthy_time (expires_at entry)
         && match expires_at entry with
            | Some x => current_time >? x
            | None => false
            end
      then ret tt
      else modify (fun s =>
             set_cache (OrderedDict.setitem (_cache s) (key entry) entry) s)
  end.

(** [Cache._load_from_storage] *)
Definition _load_from_storage : M Value unit :=
  cfg <- gets config ;;
  match storage_file cfg with
  | None => ret tt
  | Some path =>
      if String.eqb path EmptyString then ret tt
      else
        fs <- gets (fun s => files (world s)) ;;
        match fs path with
        | None => ret tt
        | Some NotJSON => ret tt
        | Some NoEntries => ret tt
        | Some (Snapshot _ _ entries) =>
            current_time <- time_time ;;
            for_each entries (load_entry current_time)
        end
  end.

(** [Cache.__init__] *)
Definition Cache_init (config : option (CacheConfig)) (w : World Value)
    : State Value :=
  let cfg := match config with Some c => c | None => CacheConfig_default end in
  let s := mkState cfg [] (mkStats 0 0 0 0) w in
  if enable_persistence cfg then snd (_load_from_storage s) else s.

(** The expression [Cache(CacheConfig(max_size=..., ...))]. *)
Definition new_cache (max_size : Z) (default_ttl : option Z)
    (storage_file : option string) (enable_persistence auto_cleanup : bool)
    (w : World Value) : result (State Value) :=
  match CacheConfig_init max_size default_ttl storage_file
          enable_persistence auto_cleanup with
  | Raise e => Raise e
  | Return cfg => Return (Cache_init (Some cfg) w)
  end.

Definition del_key (k : string) : M Value unit :=
  modify (fun s => set_cache (OrderedDict.delitem (_cache s) k) s).

Definition count (f : Stats -> Stats) : M Value unit :=
  modify (fun s => set_stats (f (_stats s)) s).

(** The key function of [min] in [_evict_lru]:
    [lambda k: self._cache[k].last_accessed]. *)
Definition last_accessed_of (c : Store) (k : string) : Z :=
  match OrderedDict.get c k with
  | Some e => last_accessed e
  | None => 0
  end.

(** [Cache._evict_lru] *)
Definition _evict_lru : M Value unit :=
  c <- gets _cache ;;
  match c with
  | [] => ret tt
  | _ :: _ =>
      match py_min (last_accessed_of c) (OrderedDict.keys c) with
      | None => ret tt
      | Some lru_key => del_key lru_key ;;; count incr_evictions
      end
  end.

(** The comprehension
    [[key for key, entry in self._cache.items() if entry.is_expired()]]. *)
Fixpoint expired_keys_of (items : Store) : M Value (list string) :=
  match items with
  | [] => ret []
  | (k, entry) :: r =>
      b <- is_expired entry ;;
      ks <- expired_keys_of r ;;
      ret (if b then k :: ks else ks)
  end.

(** [Cache._cleanup_expired] *)
Definition _cleanup_expired : M Value Z :=
  c <- gets _cache ;;
  expired_keys <- expired_keys_of c ;;
  for_each expired_keys
    (fun k => del_key k ;;; count incr_expirations) ;;;
  cfg <- gets config ;;
  when (negb (Nat.eqb (length expired_keys) 0%nat) && enable_persistence cfg)
    _save_to_storage ;;;
  ret (Z.of_nat (length expired_keys)).

(** [Cache.set].  The [try ... except Exception] around the body has no
    counterpart: with a numeric [ttl] nothing in the body raises. *)
Definition set (key : KeyArg) (value : Value) (ttl : option Z)
    : M Value (result bool) :=
  match key with
  | KNotStr => ret (Raise ValueError)
  | KStr k =>
      if String.eqb k EmptyString then ret (Raise ValueError)
      else
        cfg <- gets config ;;
        when (auto_cleanup cfg) (_cleanup_expired ;;; ret tt) ;;;
        let effective_ttl :=
          match ttl with Some t => Some t | None => default_ttl cfg end in
        c <- gets _cache ;;
        when (negb (OrderedDict.contains c k)
              && (OrderedDict.len c >=? max_size cfg))
          (_cleanup_expired ;;;
           c' <- gets _cache ;;
           when (OrderedDict.len c' >=? max_size cfg) _evict_lru) ;;;
        current_time <- time_time ;;
        let expires_at :=
          match effective_ttl with
          | Some t => Some (current_time + t)
          | None => None
          end in
        let entry := mkEntry k value current_time expires_at current_time in
        c <- gets _cache ;;
        when (OrderedDict.contains c k) (del_key k) ;;;
        modify (fun s => set_cache (OrderedDict.setitem (_cache s) k entry) s) ;;;
        when (enable_persistence cfg) _save_to_storage ;;;
        ret (Return true)
  end.

(** [Cache.get].  [entry.update_access_time()] mutates the entry object
    that the dictionary holds: the updated entry is put back in place
    before [move_to_end]. *)
Definition get (k : string) (default : Value) : M Value Value :=
  c <- gets _cache ;;
  match OrderedDict.get c k with
  | None => count incr_misses ;;; ret default
  | Some entry =>
      expired <- is_expired entry ;;
      if expired then
        del_key k ;;;
        count incr_expirations ;;;
        count incr_misses ;;;
        cfg <- gets config ;;
        when (enable_persistence cfg) _save_to_storage ;;;
        ret default
      else
        now <- time_time ;;
        modify (fun s =>
          set_cache (OrderedDict.setitem (_cache s) k
                       (with_last_accessed entry now)) s) ;;;
        count incr_hits ;;;
        modify (fun s => set_cache (OrderedDict.move_to_end (_cache s) k) s) ;;;
        ret (value entry)
  end.

(** [Cache.has] *)
Definition has (k : string) : M Value bool :=
  c <- gets _cache ;;
  match OrderedDict.get c k with
  | None => ret false
  | Some entry =>
      expired <- is_expired entry ;;
      if expired then
        del_key k ;;;
        count incr_expirations ;;;
        cfg <- gets config ;;
        when (enable_persistence cfg) _save_to_storage ;;;
        ret false
      else ret true
  end.

(** [Cache.delete] *)
Definition delete (k : string) : M Value bool :=
  c <- gets _cache ;;
  if OrderedDict.contains c k then
    del_key k ;;;
    cfg <- gets config ;;
    when (enable_persistence cfg) _save_to_storage ;;;
    ret true
  else ret false.

(** [Cache.clear] *)
Definition clear : M Value unit :=
  modify (set_cache []) ;;;
  cfg <- gets config ;;
  when (enable_persistence cfg) _save_to_storage.

(** [Cache.size] *)
Definition size : M Value Z :=
  cfg <- gets config ;;
  when (auto_cleanup cfg) (_cleanup_expired ;;; ret tt) ;;;
  c <- gets _cache ;;
  ret (OrderedDict.len c).

(** [Cache.keys] *)
Definition keys : M Value (list string) :=
  cfg <- gets config ;;
  when (auto_cleanup cfg) (_cleanup_expired ;;; ret tt) ;;;
  c <- gets _cache ;;
  ret (OrderedDict.keys c).

(** The dictionary returned by [get_stats], without its ['hit_rate']
    entry (a formatted floating-point percentage derived from [hits]
    and [misses]). *)
Record StatsReport : Type := mkReport {
  report_size : Z;
  report_max_size : Z;
  report_hits : Z;
  report_misses : Z;
  report_evictions : Z;
  report_expirations : Z
}.

(** [Cache.get_stats] *)
Definition get_stats : M Value StatsReport :=
  cfg <- gets config ;;
  when (auto_cleanup cfg) (_cleanup_expired ;;; ret tt) ;;;
  c <- gets _cache ;;
  st <- gets _stats ;;
  ret (mkReport (OrderedDict.len c) (max_size cfg) (hits st) (misses st)
         (evictions st) (expirations st)).

(** *** Sequences of public operations *)
Inductive Op : Type :=
| OpSet (key : KeyArg) (value : Value) (ttl : option Z)
| OpGet (k : string) (default : Value)
| OpHas (k : string)
| OpDelete (k : string)
| OpClear
| OpSize
| OpKeys
| OpGetStats.

(** State in which the call returns (or raises). *)
Definition run_op (op : Op) (s : State Value) : State Value :=
  match op with
  | OpSet k v ttl => snd (set k v ttl s)
  | OpGet k d => snd (get k d s)
  | OpHas k => snd (has k s)
  | OpDelete k => snd (delete k s)
  | OpClear => snd (clear s)
  | OpSize => snd (size s)
  | OpKeys => snd (keys s)
  | OpGetStats => snd (get_stats s)
  end.

Definition run_ops (ops : list Op) (s : State Value) : State Value :=
  fold_left (fun st op => run_op op st) ops s.
End Methods.

End V3.

(** ** Positional eviction of the second version *)

Module V2.

(** [Cache._evict_lru] of [v2.py]: the first entry of the [OrderedDict] is
    taken to be the least recently used one. *)
Definition _evict_lru {V : Type} (c : OrderedDict.t (V := V))
    : OrderedDict.t (V := V) :=
  match c with
  | [] => c
  | _ :: _ =>
      match OrderedDict.popitem_first c with
      | Some (_, r) => r
      | None => c
      end
  end.

End V2.

Import V3.
Local Open Scope cache_scope.

(** ** Vocabulary of the properties *)

(** A clock whose readings never decrease. *)
Definition monotone (clock : nat -> Z) : Prop :=
  forall i j : nat, (i <= j)%nat -> clock i <= clock j.

(** [l1] is [l2] with some elements left out, the others in their order. *)
Inductive subseq {A : Type} : list A -> list A -> Prop :=
| subseq_nil : subseq [] []
| subseq_skip (x : A) (l1 l2 : list A) : subseq l1 l2 -> subseq l1 (x :: l2)
| subseq_keep (x : A) (l1 l2 : list A) : subseq l1 l2 -> subseq (x :: l1) (x :: l2).

Section Bookkeeping.
Context {Value : Type} {codec : JSON Value}.

(** [n] increments of the expirations counter. *)
Definition add_expirations (n : nat) (st : Stats) : Stats :=
  mkStats (hits st) (misses st) (evictions st) (expirations st + Z.of_nat n).

(** The entries that [from_dict] builds from the elements of a snapshot. *)
Fixpoint entries_of (l : list (EntryData Value)) : list (CacheEntry Value) :=
  match l with
  | [] => []
  | data :: r =>
      match from_dict data with
      | Some e => e :: entries_of r
      | None => entries_of r
      end
  end.
End Bookkeeping.

Section Vocabulary.
Context {Value : Type} {codec : JSON Value}.
Variable clock : nat -> Z.

Local Abbreviation Entry := (CacheEntry Value).
Local Abbreviation Store := (OrderedDict.t (V := CacheEntry Value)).

(** The entry is expired when the clock reads [now]. *)
Definition expired_at (now : Z) (e : Entry) : bool :=
  match expires_at e with
  | Some x => now >? x
  | None => false
  end.

(** The test of [_load_from_storage] that skips an entry. *)
Definition skipped_on_load (now : Z) (e : Entry) : bool :=
  truthy_time (expires_at e) && expired_at now e.

(** What the loop of [_load_from_storage] does to the dictionary for
    one well-formed element. *)
Definition load_step (now : Z) (c : Store) (e : Entry) : Store :=
  if skipped_on_load now e then c else OrderedDict.setitem c (key e) e.

(** Index of the next reading once [is_expired] has been asked of [e]. *)
Definition tick_after (t : nat) (e : Entry) : nat :=
  match expires_at e with
  | None => t
  | Some _ => S t
  end.

(** Scan of [_cleanup_expired] over [items], the next reading being the
    [t]-th: index of the next reading afterwards, keys found expired, and
    entries found alive. *)
Fixpoint scan_end (t : nat) (items : Store) : nat :=
  match items with
  | [] => t
  | (_, e) :: r => scan_end (tick_after t e) r
  end.

Fixpoint scan_expired (t : nat) (items : Store) : list string :=
  match items with
  | [] => []
  | (k, e) :: r =>
      if expired_at (clock t) e
      then k :: scan_expired (tick_after t e) r
      else scan_expired (tick_after t e) r
  end.

Fixpoint survivors (t : nat) (items : Store) : Store :=
  match items with
  | [] => []
  | (k, e) :: r =>
      if expired_at (clock t) e
      then survivors (tick_after t e) r
      else (k, e) :: survivors (tick_after t e) r
  end.

(** Keys are unique, as in any dictionary. *)
Definition unique_keys (c : Store) : Prop := NoDup (OrderedDict.keys c).

(** Each entry records the key it is stored under. *)
Definition keys_agree (c : Store) : Prop :=
  Forall (fun kv => key (snd kv) = fst kv) c.

(** Recency order agrees with the access timestamps. *)
Definition le_access (a b : string * Entry) : Prop :=
  last_accessed (snd a) <= last_accessed (snd b).

Definition access_sorted (c : Store) : Prop := StronglySorted le_access c.

(** No entry was accessed later than the next clock reading. *)
Definition accessed_before (now : Z) (c : Store) : Prop :=
  Forall (fun kv => last_accessed (snd kv) <= now) c.

(** The invariant behind the agreement of position and timestamp. *)
Definition recency_inv (s : State Value) : Prop :=
  unique_keys (_cache s)
  /\ access_sorted (_cache s)
  /\ accessed_before (clock (ticks (world s))) (_cache s).

(** The capacity bound. *)
Definition within_capacity (s : State Value) : Prop :=
  OrderedDict.len (_cache s) <= max_size (config s).

(** [s'] keeps the configuration of [s], holds some of its entries in
    their order and has not read the clock backwards. *)
Definition shrinks (s s' : State Value) : Prop :=
  config s' = config s
  /\ subseq (_cache s') (_cache s)
  /\ (ticks (world s) <= ticks (world s'))%nat.

(** The invariant carried along a run: unique keys, a positive capacity
    and at most [max_size] entries. *)
Definition bounded (s : State Value) : Prop :=
  unique_keys (_cache s) /\ 0 < max_size (config s) /\ within_capacity s.

(** [s'] is [s] after zero or more cleanup passes: the entries left out
    were each seen expired by a clock reading taken in between, every
    one of them was counted as an expiration, and the other counters
    are unchanged. *)
Definition expiry_pass (s s' : State Value) : Prop :=
  config s' = config s
  /\ subseq (_cache s') (_cache s)
  /\ (ticks (world s) <= ticks (world s'))%nat
  /\ (forall k e, In (k, e) (_cache s) ->
        In (k, e) (_cache s')
        \/ exists i, (ticks (world s) <= i < ticks (world s'))%nat
                     /\ expired_at (clock i) e = true)
  /\ hits (_stats s') = hits (_stats s)
  /\ misses (_stats s') = misses (_stats s)
  /\ evictions (_stats s') = evictions (_stats s)
  /\ expirations (_stats s') + OrderedDict.len (_cache s')
     = expirations (_stats s) + OrderedDict.len (_cache s).

(** State of the world after one more clock reading. *)
Definition tick (w : World Value) : World Value :=
  mkWorld (S (ticks w)) (files w) (writable w).

(** The world when the next reading is the [t]-th. *)
Definition at_tick (t : nat) (w : World Value) : World Value :=
  mkWorld t (files w) (writable w).

(** The entry written by [set] at time [now]. *)
Definition fresh_entry (k : string) (v : Value) (ttl : option Z) (now : Z)
    : Entry :=
  mkEntry k v now
    (match ttl with Some t => Some (now + t) | None => None end) now.

(** The TTL in effect for a [set]. *)
Definition effective_ttl (cfg : CacheConfig) (ttl : option Z) : option Z :=
  match ttl with Some t => Some t | None => default_ttl cfg end.

(** The file that holds the dictionary [c], stamped with [now]. *)
Definition snapshot (now : Z) (c : Store) : File Value :=
  Snapshot "1.0" now (map to_dict (OrderedDict.values c)).

(** The entry [e] with the value [v] in place of its own. *)
Definition with_value (e : Entry) (v : Value) : Entry :=
  mkEntry (key e) v (created_at e) (expires_at e) (last_accessed e).

(** The dictionary as a reader of the file sees it once [json.dump]
    has written it: every value replaced by what [json.load] gives
    back for it; [None] when [json.dump] raises on one of the values. *)
Fixpoint json_store (c : Store) : option Store :=
  match c with
  | [] => Some []
  | (k, e) :: r =>
      match json_roundtrip (value e), json_store r with
      | Some v, Some r' => Some ((k, with_value e v) :: r')
      | _, _ => None
      end
  end.

(** Every value of the dictionary is read back from JSON as it is. *)
Definition json_exact (c : Store) : Prop :=
  Forall (fun kv => json_roundtrip (value (snd kv)) = Some (value (snd kv))) c.

(** State after [_save_to_storage] when persistence is enabled. *)
Definition persisted (s : State Value) : State Value :=
  if enable_persistence (config s) then snd (_save_to_storage clock s) else s.

(** State after the purge loop of a cleanup pass, before its save. *)
Definition purged (s : State Value) : State Value :=
  mkState (config s)
    (survivors (ticks (world s)) (_cache s))
    (add_expirations
       (length (scan_expired (ticks (world s)) (_cache s))) (_stats s))
    (at_tick (scan_end (ticks (world s)) (_cache s)) (world s)).

(** State after a whole cleanup pass. *)
Definition cleaned (s : State Value) : State Value :=
  if negb (Nat.eqb (length (scan_expired (ticks (world s)) (_cache s))) 0)
     && enable_persistence (config s)
  then snd (_save_to_storage clock (purged s))
  else purged s.

(** State after the [auto_cleanup] pass that opens [set], [size], [keys]
    and [get_stats]. *)
Definition precleaned (s : State Value) : State Value :=
  if auto_cleanup (config s) then cleaned s else s.

(** State of [set] for key [k] after its capacity check. *)
Definition made_room (k : string) (s : State Value) : State Value :=
  if negb (OrderedDict.contains (_cache s) k)
     && (OrderedDict.len (_cache s) >=? max_size (config s))
  then
    let s' := cleaned s in
    if OrderedDict.len (_cache s') >=? max_size (config s)
    then snd (_evict_lru s')
    else s'
  else s.

(** State of [set] once the new entry is in the dictionary. *)
Definition stored (k : string) (v : Value) (ttl : option Z) (s : State Value)
    : State Value :=
  let now := clock (ticks (world s)) in
  let c := _cache s in
  mkState (config s)
    (OrderedDict.setitem
       (if OrderedDict.contains c k then OrderedDict.delitem c k else c)
       k (fresh_entry k v (effective_ttl (config s) ttl) now))
    (_stats s) (tick (world s)).

(** State of a miss that found its entry expired, before the save. *)
Definition dropped (k : string) (e : Entry) (st : Stats) (s : State Value)
    : State Value :=
  mkState (config s) (OrderedDict.delitem (_cache s) k) st
    (at_tick (tick_after (ticks (world s)) e) (world s)).

(** State after a hit on [k], whose entry is [e]. *)
Definition touched (k : string) (e : Entry) (s : State Value) : State Value :=
  let t := tick_after (ticks (world s)) e in
  mkState (config s)
    (OrderedDict.delitem (_cache s) k ++ [(k, with_last_accessed e (clock t))])
    (incr_hits (_stats s))
    (at_tick (S t) (world s)).
End Vocabulary.

(** ** Vocabulary of the further properties *)

Section Effects.
Context {Value : Type} {codec : JSON Value}.

(** Number of [get] calls in a sequence of operations. *)
Definition is_get (op : Op (Value := Value)) : bool :=
  match op with
  | OpGet _ _ => true
  | _ => false
  end.

Definition count_gets (ops : list (Op (Value := Value))) : nat :=
  length (filter is_get ops).

(** What a run of public methods may do to a cache besides changing its
    dictionary: the configuration and the state of the disk stay, the
    clock and the four counters do not go back, [hits + misses] grows
    by [reads], and without persistence no file is touched. *)
Definition effect (reads : Z) (s s' : State Value) : Prop :=
  config s' = config s
  /\ writable (world s') = writable (world s)
  /\ (ticks (world s) <= ticks (world s'))%nat
  /\ hits (_stats s) <= hits (_stats s')
  /\ misses (_stats s) <= misses (_stats s')
  /\ hits (_stats s') + misses (_stats s')
     = hits (_stats s) + misses (_stats s) + reads
  /\ evictions (_stats s) <= evictions (_stats s')
  /\ expirations (_stats s) <= expirations (_stats s')
  /\ (enable_persistence (config s) = false ->
      files (world s') = files (world s)).

(** Two caches that agree in everything but their disks. *)
Definition same_memory (s s' : State Value) : Prop :=
  config s = config s' /\ _cache s = _cache s' /\ _stats s = _stats s'
  /\ ticks (world s) = ticks (world s').

(** A computation whose result and effect in memory do not depend on
    the disk. *)
Definition disk_blind {A : Type} (m : M Value A) : Prop :=
  forall s s', same_memory s s' ->
    fst (m s) = fst (m s') /\ same_memory (snd (m s)) (snd (m s')).

(** The dictionary built from a list of entries with distinct keys. *)
Definition dict_of (l : list (CacheEntry Value))
    : OrderedDict.t (V := CacheEntry Value) :=
  map (fun e => (key e, e)) l.
End Effects.

(** ** The cache of the second version

    The class [Cache] of [v2.py].  Its entries are those of the third
    version; it has no configuration object, no lock and no counters,
    checks neither [max_size] nor the key, and writes its file in
    place. *)

Module V2Cache.

Section Model.
Context {Value : Type} {codec : JSON Value}.

(** [clock i] is the value returned by the [i]-th call of [time.time()]. *)
Variable clock : nat -> Z.

Local Abbreviation Entry := (CacheEntry Value).
Local Abbreviation Store := (OrderedDict.t (V := CacheEntry Value)).

(** What [json.load] makes of the file: text that is not JSON, a JSON
    value without a [get] method, or a dictionary, given by the list
    that [data.get('entries', [])] returns. *)
Inductive File : Type :=
| NotJSON
| NotDict
| Entries (entries : list (EntryData Value)).

Record World : Type := mkWorld {
  ticks : nat;
  files : string -> option File;
  writable : bool
}.

(** The attributes of a [Cache] instance, in its world. *)
Record State : Type := mkState {
  max_size : Z;
  default_ttl : option Z;
  storage_file : option string;
  enable_persistence : bool;
  _cache : Store;
  world : World
}.

(** The files after [path] has been given the content [c]. *)
Definition write_file (fs : string -> option File) (path : string)
    (c : option File) : string -> option File :=
  fun q => if String.eqb q path then c else fs q.

Definition set_cache (c : Store) (s : State) : State :=
  mkState (max_size s) (default_ttl s) (storage_file s)
    (enable_persistence s) c (world s).

Definition set_world (w : World) (s : State) : State :=
  mkState (max_size s) (default_ttl s) (storage_file s)
    (enable_persistence s) (_cache s) w.

Definition M (A : Type) : Type := State -> A * State.

Definition ret {A : Type} (a : A) : M A := fun s => (a, s).

Definition bind {A B : Type} (m : M A) (f : A -> M B) : M B :=
  fun s => let '(a, s') := m s in f a s'.

Definition gets {A : Type} (f : State -> A) : M A := fun s => (f s, s).

Definition modify (f : State -> State) : M unit := fun s => (tt, f s).

Definition when (b : bool) (m : M unit) : M unit :=
  if b then m else ret tt.

Fixpoint for_each {A : Type} (xs : list A) (body : A -> M unit) : M unit :=
  match xs with
  | [] => ret tt
  | x :: r => bind (body x) (fun _ => for_each r body)
  end.

Local Notation "x <- m ;; f" := (bind m (fun x => f))
  (at level 61, m at next level, right associativity).
Local Notation "m ;;; f" := (bind m (fun _ => f))
  (at level 61, right associativity).

(** [time.time()] *)
Definition time_time : M Z :=
  fun s =>
    let w := world s in
    (clock (ticks w), set_world (mkWorld (S (ticks w)) (files w) (writable w)) s).

(** [CacheEntry.is_expired]:
    [self.expires_at is not None and time.time() > self.expires_at]. *)
Definition is_expired (e : Entry) : M bool :=
  match expires_at e with
  | None => ret false
  | Some x => now <- time_time ;; ret (now >? x)
  end.

Definition del_key (k : string) : M unit :=
  modify (fun s => set_cache (OrderedDict.delitem (_cache s) k) s).

(** [Cache._save_to_storage]: the file is opened for writing in place;
    when the disk cannot be written [open] raises and the exception is
    caught.  When [json.dump] raises on a value the exception is caught
    too, and the file, truncated by [open], is left with the text
    written so far, which is not JSON. *)
Definition _save_to_storage : M unit :=
  path <- gets storage_file ;;
  match path with
  | None => ret tt
  | Some p =>
      if String.eqb p EmptyString then ret tt
      else
        c <- gets _cache ;;
        let entries := map to_dict (OrderedDict.values c) in
        modify (fun s =>
          let w := world s in
          if writable w
          then
            let data := match json_entries entries with
                        | Some written => Entries written
                        | None => NotJSON
                        end in
            set_world (mkWorld (ticks w) (write_file (files w) p (Some data))
                         (writable w)) s
          else s)
  end.

(** The loop of [_load_from_storage].  An element on which a subscript
    raises ends the loop, the exception being caught outside of it. *)
Fixpoint load_loop (current_time : Z) (entries : list (EntryData Value))
    : M unit :=
  match entries with
  | [] => ret tt
  | Malformed :: _ => ret tt
  | EntryDict entry :: r =>
      if truthy_time (expires_at entry)
         && match expires_at entry with
            | Some x => current_time >? x
            | None => false
            end
      then load_loop current_time r
      else
        modify (fun s =>
          set_cache (OrderedDict.setitem (_cache s) (key entry) entry) s) ;;;
        load_loop current_time r
  end.

(** [Cache._load_from_storage] *)
Definition _load_from_storage : M unit :=
  path <- gets storage_file ;;
  match path with
  | None => ret tt
  | Some p =>
      if String.eqb p EmptyString then ret tt
      else
        fs <- gets (fun s => files (world s)) ;;
        match fs p with
        | None => ret tt
        | Some NotJSON => ret tt
        | Some NotDict => time_time ;;; ret tt
        | Some (Entries entries) =>
            current_time <- time_time ;;
            load_loop current_time entries
        end
  end.

(** [os.path.exists(path)] *)
Definition path_exists (w : World) (path : option string) : bool :=
  match path with
  | Some p => is_some (files w p)
  | None => false
  end.

(** [Cache.__init__] *)
Definition Cache_init (max_size : Z) (default_ttl : option Z)
    (storage_file : option string) (enable_persistence : bool) (w : World)
    : State :=
  let enabled := enable_persistence && is_some storage_file in
  let s := mkState max_size default_ttl storage_file enabled [] w in
  if enabled && path_exists w storage_file
  then snd (_load_from_storage s)
  else s.

(** [Cache._evict_lru] *)
Definition _evict_lru : M unit :=
  modify (fun s => set_cache (V2._evict_lru (_cache s)) s).

(** The comprehension of [_cleanup_expired]. *)
Fixpoint expired_keys_of (items : Store) : M (list string) :=
  match items with
  | [] => ret []
  | (k, entry) :: r =>
      b <- is_expired entry ;;
      ks <- expired_keys_of r ;;
      ret (if b then k :: ks else ks)
  end.

(** [Cache._cleanup_expired] *)
Definition _cleanup_expired : M unit :=
  c <- gets _cache ;;
  expired_keys <- expired_keys_of c ;;
  for_each expired_keys del_key ;;;
  enabled <- gets enable_persistence ;;
  when (negb (Nat.eqb (length expired_keys) 0%nat) && enabled)
    _save_to_storage.

(** [Cache.set]; any key is accepted, and a TTL of zero counts as none. *)
Definition set (k : string) (value : Value) (ttl : option Z) : M unit :=
  dflt <- gets default_ttl ;;
  let effective_ttl := match ttl with Some t => Some t | None => dflt end in
  _cleanup_expired ;;;
  c <- gets _cache ;;
  limit <- gets max_size ;;
  when (negb (OrderedDict.contains c k) && (OrderedDict.len c >=? limit))
    _evict_lru ;;;
  current_time <- time_time ;;
  let expires_at :=
    if truthy_time effective_ttl
    then match effective_ttl with
         | Some t => Some (current_time + t)
         | None => None
         end
    else None in
  let entry := mkEntry k value current_time expires_at current_time in
  c <- gets _cache ;;
  when (OrderedDict.contains c k) (del_key k) ;;;
  modify (fun s => set_cache (OrderedDict.setitem (_cache s) k entry) s) ;;;
  enabled <- gets enable_persistence ;;
  when enabled _save_to_storage.

(** [Cache.get] *)
Definition get (k : string) (default : Value) : M Value :=
  c <- gets _cache ;;
  match OrderedDict.get c k with
  | None => ret default
  | Some entry =>
      expired <- is_expired entry ;;
      if expired then
        del_key k ;;;
        enabled <- gets enable_persistence ;;
        when enabled _save_to_storage ;;;
        ret default
      else
        now <- time_time ;;
        modify (fun s =>
          set_cache (OrderedDict.setitem (_cache s) k
                       (with_last_accessed entry now)) s) ;;;
        modify (fun s => set_cache (OrderedDict.move_to_end (_cache s) k) s) ;;;
        ret (value entry)
  end.

(** [Cache.delete] *)
Definition delete (k : string) : M bool :=
  c <- gets _cache ;;
  if OrderedDict.contains c k then
    del_key k ;;;
    enabled <- gets enable_persistence ;;
    when enabled _save_to_storage ;;;
    ret true
  else ret false.

(** [Cache.has] *)
Definition has (k : string) : M bool :=
  c <- gets _cache ;;
  match OrderedDict.get c k with
  | None => ret false
  | Some entry =>
      expired <- is_expired entry ;;
      if expired then
        del_key k ;;;
        enabled <- gets enable_persistence ;;
        when enabled _save_to_storage ;;;
        ret false
      else ret true
  end.

(** [Cache.clear] *)
Definition clear : M unit :=
  modify (set_cache []) ;;;
  enabled <- gets enable_persistence ;;
  when enabled _save_to_storage.

(** [Cache.size] *)
Definition size : M Z :=
  _cleanup_expired ;;;
  c <- gets _cache ;;
  ret (OrderedDict.len c).

(** [Cache.keys] *)
Definition keys : M (list string) :=
  _cleanup_expired ;;;
  c <- gets _cache ;;
  ret (OrderedDict.keys c).

(** One element of the ['entries'] list of [get_stats]. *)
Record EntryReport : Type := mkEntryReport {
  report_key : string;
  report_age : Z;
  report_time_since_access : Z;
  report_ttl : option Z
}.

(** [Cache.get_stats]: size, capacity and one report per entry. *)
Definition get_stats : M (Z * Z * list EntryReport) :=
  _cleanup_expired ;;;
  current_time <- time_time ;;
  c <- gets _cache ;;
  limit <- gets max_size ;;
  ret (OrderedDict.len c, limit,
       map (fun kv =>
              let entry := snd kv in
              mkEntryReport (fst kv)
                (current_time - created_at entry)
                (current_time - last_accessed entry)
                (if truthy_time (expires_at entry)
                 then match expires_at entry with
                      | Some x => Some (x - current_time)
                      | None => None
                      end
                 else None)) c).

(** *** Sequences of public operations *)
Inductive Op : Type :=
| OpSet (k : string) (value : Value) (ttl : option Z)
| OpGet (k : string) (default : Value)
| OpDelete (k : string)
| OpHas (k : string)
| OpClear
| OpSize
| OpKeys
| OpGetStats.

Definition run_op (op : Op) (s : State) : State :=
  match op with
  | OpSet k v ttl => snd (set k v ttl s)
  | OpGet k d => snd (get k d s)
  | OpDelete k => snd (delete k s)
  | OpHas k => snd (has k s)
  | OpClear => snd (clear s)
  | OpSize => snd (size s)
  | OpKeys => snd (keys s)
  | OpGetStats => snd (get_stats s)
  end.

Definition run_ops (ops : list Op) (s : State) : State :=
  fold_left (fun st op => run_op op st) ops s.
End Model.

Arguments File : clear implicits.
Arguments World : clear implicits.
Arguments State : clear implicits.
Arguments M : clear implicits.
Arguments Op : clear implicits.

End V2Cache.

(** ** Vocabulary for the second version *)

Section V2Vocabulary.
Context {Value : Type} {codec : JSON Value}.
Variable clock : nat -> Z.

Local Abbreviation Entry := (CacheEntry Value).
Local Abbreviation Store := (OrderedDict.t (V := CacheEntry Value)).
Local Abbreviation State2 := (V2Cache.State Value).

(** The world when the next reading is the [t]-th. *)
Definition v2_at_tick (t : nat) (w : V2Cache.World Value) : V2Cache.World Value :=
  V2Cache.mkWorld t (V2Cache.files w) (V2Cache.writable w).

(** State after [_save_to_storage] when persistence is enabled. *)
Definition v2_persisted (s : State2) : State2 :=
  if V2Cache.enable_persistence s then snd (V2Cache._save_to_storage s) else s.

(** State after the deletions of a cleanup pass, before its save. *)
Definition v2_purged (s : State2) : State2 :=
  V2Cache.set_world
    (v2_at_tick (scan_end (V2Cache.ticks (V2Cache.world s)) (V2Cache._cache s))
       (V2Cache.world s))
    (V2Cache.set_cache
       (survivors clock (V2Cache.ticks (V2Cache.world s)) (V2Cache._cache s)) s).

(** State after a whole cleanup pass. *)
Definition v2_cleaned (s : State2) : State2 :=
  if negb (Nat.eqb (length (scan_expired clock (V2Cache.ticks (V2Cache.world s))
                              (V2Cache._cache s))) 0)
     && V2Cache.enable_persistence s
  then snd (V2Cache._save_to_storage (v2_purged s))
  else v2_purged s.

(** State of [set] for key [k] after its capacity check. *)
Definition v2_made_room (k : string) (s : State2) : State2 :=
  if negb (OrderedDict.contains (V2Cache._cache s) k)
     && (OrderedDict.len (V2Cache._cache s) >=? V2Cache.max_size s)
  then V2Cache.set_cache (V2._evict_lru (V2Cache._cache s)) s
  else s.

(** The TTL in effect and the entry that [set] writes at time [now]: a
    TTL of zero gives no expiry time. *)
Definition v2_effective_ttl (s : State2) (ttl : option Z) : option Z :=
  match ttl with Some t => Some t | None => V2Cache.default_ttl s end.

Definition v2_entry (k : string) (v : Value) (ttl : option Z) (now : Z) : Entry :=
  mkEntry k v now
    (match ttl with
     | Some t => if t =? 0 then None else Some (now + t)
     | None => None
     end) now.

(** State of [set] once the new entry is in the dictionary. *)
Definition v2_stored (k : string) (v : Value) (ttl : option Z) (s : State2)
    : State2 :=
  let now := clock (V2Cache.ticks (V2Cache.world s)) in
  let c := V2Cache._cache s in
  V2Cache.set_world
    (v2_at_tick (S (V2Cache.ticks (V2Cache.world s))) (V2Cache.world s))
    (V2Cache.set_cache
       (OrderedDict.setitem
          (if OrderedDict.contains c k then OrderedDict.delitem c k else c)
          k (v2_entry k v (v2_effective_ttl s ttl) now)) s).

(** State after a hit on [k], whose entry is [e]. *)
Definition v2_touched (k : string) (e : Entry) (s : State2) : State2 :=
  let t := tick_after (V2Cache.ticks (V2Cache.world s)) e in
  V2Cache.set_world (v2_at_tick (S t) (V2Cache.world s))
    (V2Cache.set_cache
       (OrderedDict.delitem (V2Cache._cache s) k
          ++ [(k, with_last_accessed e (clock t))]) s).

(** State of a read that found its entry expired, before the save. *)
Definition v2_dropped (k : string) (e : Entry) (s : State2) : State2 :=
  V2Cache.set_world
    (v2_at_tick (tick_after (V2Cache.ticks (V2Cache.world s)) e) (V2Cache.world s))
    (V2Cache.set_cache (OrderedDict.delitem (V2Cache._cache s) k) s).

(** The recency order of the second version agrees with its timestamps. *)
Definition v2_recency (s : State2) : Prop :=
  unique_keys (V2Cache._cache s)
  /\ access_sorted (V2Cache._cache s)
  /\ accessed_before (clock (V2Cache.ticks (V2Cache.world s))) (V2Cache._cache s).

(** No entry was accessed before it was created. *)
Definition created_before_access (c : Store) : Prop :=
  Forall (fun kv => created_at (snd kv) <= last_accessed (snd kv)) c.

(** The methods that store nothing and remove only expired entries. *)
Definition v2_reads (op : V2Cache.Op Value) : bool :=
  match op with
  | V2Cache.OpGet _ _ | V2Cache.OpHas _ | V2Cache.OpSize | V2Cache.OpKeys
  | V2Cache.OpGetStats => true
  | _ => false
  end.

(** The content of a file that holds the dictionary [c]. *)
Definition v2_snapshot (c : Store) : V2Cache.File Value :=
  V2Cache.Entries (map to_dict (OrderedDict.values c)).

(** The content of the file after a save of the dictionary [c]: the
    dictionary as JSON gives it back, or text that is not JSON when
    [json.dump] raises on one of the values. *)
Definition v2_written (c : Store) : V2Cache.File Value :=
  match json_store c with
  | Some c' => v2_snapshot c'
  | None => V2Cache.NotJSON
  end.

(** [s'] has the attributes of [s], some of its entries in their order,
    and a clock that has not gone back. *)
Definition v2_shrinks (s s' : State2) : Prop :=
  V2Cache.max_size s' = V2Cache.max_size s
  /\ V2Cache.default_ttl s' = V2Cache.default_ttl s
  /\ V2Cache.enable_persistence s' = V2Cache.enable_persistence s
  /\ V2Cache.storage_file s' = V2Cache.storage_file s
  /\ subseq (V2Cache._cache s') (V2Cache._cache s)
  /\ (V2Cache.ticks (V2Cache.world s) <= V2Cache.ticks (V2Cache.world s'))%nat.

(** The calls that always save when persistence is enabled. *)
Definition v2_writes (op : V2Cache.Op Value) (s : State2) : bool :=
  match op with
  | V2Cache.OpSet _ _ _ | V2Cache.OpClear => true
  | V2Cache.OpDelete k => OrderedDict.contains (V2Cache._cache s) k
  | _ => false
  end.

(** Between [s] and [s'] no file but [p] has changed, and none at all
    on a disk that cannot be written. *)
Definition v2_touches_only (p : string) (s s' : State2) : Prop :=
  V2Cache.writable (V2Cache.world s') = V2Cache.writable (V2Cache.world s)
  /\ forall q, q <> p \/ V2Cache.writable (V2Cache.world s) = false ->
       V2Cache.files (V2Cache.world s') q = V2Cache.files (V2Cache.world s) q.

(** The elements of a file up to the first one that does not load. *)
Fixpoint loadable_prefix (l : list (EntryData Value)) : list Entry :=
  match l with
  | EntryDict e :: r => e :: loadable_prefix r
  | _ => []
  end.
End V2Vocabulary.

(** ** The cache of the first version

    The classes [CacheConfig], [CacheEntry] and [Cache] of [v1.py].
    Entries count their accesses; [set] never removes expired entries;
    and [_save_to_disk] has no exception handler, so a failing [open]
    or [json.dump] surfaces in the method that triggered it. *)

Module V1Cache.

Section Model.
Context {Value : Type} {codec : JSON Value}.

(** [clock i] is the value returned by the [i]-th call of [time.time()]. *)
Variable clock : nat -> Z.

(** The dataclass [CacheConfig]; nothing checks its fields. *)
Record CacheConfig : Type := mkConfig {
  max_size : Z;
  default_ttl : option Z;
  persistence_file : option string;
  auto_save : bool;
  eviction_policy : string
}.

(** [CacheConfig()] *)
Definition default_config : CacheConfig := mkConfig 100 None None true "lru".

(** The dataclass [CacheEntry]. *)
Record CacheEntry : Type := mkEntry {
  key : string;
  value : Value;
  created_at : Z;
  expires_at : option Z;
  access_count : Z;
  last_accessed : Z
}.

Local Abbreviation Store := (OrderedDict.t (V := CacheEntry)).

(** An element of the ['entries'] list of a file: a dictionary with the
    six keys, or anything on which the loop of [_load_from_disk]
    raises. *)
Inductive EntryData : Type :=
| EntryDict (e : CacheEntry)
| Malformed.

(** What [json.load] makes of the file: text that is not JSON, a JSON
    value without a [get] method, or a dictionary, given by the list
    that [data.get("entries", [])] returns. *)
Inductive File : Type :=
| NotJSON
| NotDict
| Entries (entries : list EntryData).

Record World : Type := mkWorld {
  ticks : nat;
  files : string -> option File;
  writable : bool
}.

Record State : Type := mkState {
  config : CacheConfig;
  _store : Store;
  world : World
}.

(** The exceptions of a save: that of [open(path, 'w')] on a disk that
    cannot be written, and that of [json.dump] on a value it cannot
    encode. *)
Inductive error : Type :=
| OSError
| TypeError.

Inductive outcome (A : Type) : Type :=
| Ok (a : A)
| Err (e : error).
Arguments Ok {A} a.
Arguments Err {A} e.

Definition write_file (fs : string -> option File) (path : string)
    (c : option File) : string -> option File :=
  fun q => if String.eqb q path then c else fs q.

Definition set_store (c : Store) (s : State) : State :=
  mkState (config s) c (world s).

Definition set_world (w : World) (s : State) : State :=
  mkState (config s) (_store s) w.

(** Computations that change the cache and may raise. *)
Definition M (A : Type) : Type := State -> outcome A * State.

Definition ret {A : Type} (a : A) : M A := fun s => (Ok a, s).

Definition raise {A : Type} (e : error) : M A := fun s => (Err e, s).

Definition bind {A B : Type} (m : M A) (f : A -> M B) : M B :=
  fun s =>
    match m s with
    | (Ok a, s') => f a s'
    | (Err e, s') => (Err e, s')
    end.

Definition gets {A : Type} (f : State -> A) : M A := fun s => (Ok (f s), s).

Definition modify (f : State -> State) : M unit := fun s => (Ok tt, f s).

Definition when (b : bool) (m : M unit) : M unit :=
  if b then m else ret tt.

Fixpoint for_each {A : Type} (xs : list A) (body : A -> M unit) : M unit :=
  match xs with
  | [] => ret tt
  | x :: r => bind (body x) (fun _ => for_each r body)
  end.

Local Notation "x <- m ;; f" := (bind m (fun x => f))
  (at level 61, m at next level, right associativity).
Local Notation "m ;;; f" := (bind m (fun _ => f))
  (at level 61, right associativity).

(** [time.time()] *)
Definition time_time : M Z :=
  fun s =>
    let w := world s in
    (Ok (clock (ticks w)),
     set_world (mkWorld (S (ticks w)) (files w) (writable w)) s).

(** Truth value of an optional path: [None] and the empty string are false. *)
Definition truthy_path (p : option string) : bool :=
  match p with
  | Some q => negb (String.eqb q EmptyString)
  | None => false
  end.

(** [x and current_time > x] for an expiry time [x]. *)
Definition past (current_time : Z) (x : option Z) : bool :=
  truthy_time x
  && match x with
     | Some t => current_time >? t
     | None => false
     end.

Definition del_key (k : string) : M unit :=
  modify (fun s => set_store (OrderedDict.delitem (_store s) k) s).

(** What [json.load] gives back for the dictionary that [json.dump]
    wrote for an entry; [None] when [json.dump] raises on its value. *)
Definition json_entry (e : CacheEntry) : option EntryData :=
  match json_roundtrip (value e) with
  | Some v =>
      Some (EntryDict (mkEntry (key e) v (created_at e) (expires_at e)
                         (access_count e) (last_accessed e)))
  | None => None
  end.

Fixpoint json_entries (l : list CacheEntry) : option (list EntryData) :=
  match l with
  | [] => Some []
  | e :: r =>
      match json_entry e, json_entries r with
      | Some d, Some r' => Some (d :: r')
      | _, _ => None
      end
  end.

(** [Cache._save_to_disk]: the file is opened for writing in place, and
    nothing catches the exception of [open] or of [json.dump]; when
    the latter raises, the file, truncated by [open], is left with the
    text written so far, which is not JSON. *)
Definition _save_to_disk : M unit :=
  cfg <- gets config ;;
  match persistence_file cfg with
  | None => ret tt
  | Some p =>
      if String.eqb p EmptyString then ret tt
      else
        c <- gets _store ;;
        w <- gets world ;;
        if writable w
        then
          match json_entries (OrderedDict.values c) with
          | Some written =>
              modify (set_world
                        (mkWorld (ticks w)
                           (write_file (files w) p (Some (Entries written)))
                           (writable w)))
          | None =>
              modify (set_world
                        (mkWorld (ticks w)
                           (write_file (files w) p (Some NotJSON))
                           (writable w))) ;;;
              raise TypeError
          end
        else raise OSError
  end.

(** The loop of [_load_from_disk].  An element on which a subscript
    raises ends the loop, the exception being caught outside of it. *)
Fixpoint load_loop (current_time : Z) (entries : list EntryData) : M unit :=
  match entries with
  | [] => ret tt
  | Malformed :: _ => ret tt
  | EntryDict entry :: r =>
      if past current_time (expires_at entry)
      then load_loop current_time r
      else
        modify (fun s =>
          set_store (OrderedDict.setitem (_store s) (key entry) entry) s) ;;;
        load_loop current_time r
  end.

(** [Cache._load_from_disk] *)
Definition _load_from_disk : M unit :=
  cfg <- gets config ;;
  match persistence_file cfg with
  | None => ret tt
  | Some p =>
      if String.eqb p EmptyString then ret tt
      else
        fs <- gets (fun s => files (world s)) ;;
        match fs p with
        | None => ret tt
        | Some NotJSON => ret tt
        | Some NotDict => time_time ;;; ret tt
        | Some (Entries entries) =>
            current_time <- time_time ;;
            load_loop current_time entries
        end
  end.

(** [os.path.exists(path)] *)
Definition path_exists (w : World) (path : option string) : bool :=
  match path with
  | Some p => is_some (files w p)
  | None => false
  end.

(** [Cache.__init__]; [config or CacheConfig()] is [config] unless it
    is [None]. *)
Definition Cache_init (cfg : option CacheConfig) (w : World) : State :=
  let cfg := match cfg with Some c => c | None => default_config end in
  let s := mkState cfg [] w in
  if truthy_path (persistence_file cfg) && path_exists w (persistence_file cfg)
  then snd (_load_from_disk s)
  else s.

(** [Cache._evict] *)
Definition _evict : M unit :=
  modify (fun s => set_store (V2._evict_lru (_store s)) s).

(** The save at the end of a mutating method. *)
Definition auto_saves (cfg : CacheConfig) : bool :=
  auto_save cfg && truthy_path (persistence_file cfg).

(** [Cache.set] *)
Definition set (k : string) (v : Value) (ttl : option Z) : M unit :=
  current_time <- time_time ;;
  cfg <- gets config ;;
  let effective_ttl :=
    match ttl with Some t => Some t | None => default_ttl cfg end in
  let expires_at :=
    if truthy_time effective_ttl
    then match effective_ttl with
         | Some t => Some (current_time + t)
         | None => None
         end
    else None in
  c <- gets _store ;;
  when (negb (OrderedDict.contains c k)
        && (OrderedDict.len c >=? max_size cfg)) _evict ;;;
  let entry := mkEntry k v current_time expires_at 0 current_time in
  c <- gets _store ;;
  when (OrderedDict.contains c k) (del_key k) ;;;
  modify (fun s => set_store (OrderedDict.setitem (_store s) k entry) s) ;;;
  when (auto_saves cfg) _save_to_disk.

(** The entry after a hit at [now]. *)
Definition accessed (e : CacheEntry) (now : Z) : CacheEntry :=
  mkEntry (key e) (value e) (created_at e) (expires_at e)
    (access_count e + 1) now.

(** [Cache.get]; the clock is read for the expiry test only when the
    entry has a nonzero expiry time. *)
Definition get (k : string) (default : Value) : M Value :=
  c <- gets _store ;;
  match OrderedDict.get c k with
  | None => ret default
  | Some entry =>
      expired <- (if truthy_time (expires_at entry)
                  then now <- time_time ;; ret (past now (expires_at entry))
                  else ret false) ;;
      if expired then
        del_key k ;;;
        ret default
      else
        now <- time_time ;;
        modify (fun s =>
          set_store (OrderedDict.setitem (_store s) k (accessed entry now)) s) ;;;
        modify (fun s => set_store (OrderedDict.move_to_end (_store s) k) s) ;;;
        ret (value entry)
  end.

(** [Cache.delete] *)
Definition delete (k : string) : M bool :=
  c <- gets _store ;;
  if OrderedDict.contains c k then
    del_key k ;;;
    cfg <- gets config ;;
    when (auto_saves cfg) _save_to_disk ;;;
    ret true
  else ret false.

(** [Cache.clear] *)
Definition clear : M unit :=
  modify (set_store []) ;;;
  cfg <- gets config ;;
  when (auto_saves cfg) _save_to_disk.

(** [Cache.cleanup_expired]: one clock reading for all entries. *)
Definition cleanup_expired : M Z :=
  current_time <- time_time ;;
  c <- gets _store ;;
  let expired_keys :=
    map fst (filter (fun kv => past current_time (expires_at (snd kv))) c) in
  for_each expired_keys del_key ;;;
  cfg <- gets config ;;
  when (negb (Nat.eqb (length expired_keys) 0%nat) && auto_saves cfg)
    _save_to_disk ;;;
  ret (Z.of_nat (length expired_keys)).

(** [Cache.size] *)
Definition size : M Z :=
  c <- gets _store ;;
  ret (OrderedDict.len c).

(** The dictionary returned by [stats]. *)
Record StatsReport : Type := mkReport {
  report_size : Z;
  report_max_size : Z;
  report_total_accesses : Z;
  report_entries : Z
}.

(** [Cache.stats] *)
Definition stats : M StatsReport :=
  c <- gets _store ;;
  cfg <- gets config ;;
  let total_accesses :=
    fold_left Z.add (map access_count (OrderedDict.values c)) 0 in
  ret (mkReport (OrderedDict.len c) (max_size cfg) total_accesses
         (OrderedDict.len c)).

(** *** Sequences of public operations *)
Inductive Op : Type :=
| OpSet (k : string) (v : Value) (ttl : option Z)
| OpGet (k : string) (default : Value)
| OpDelete (k : string)
| OpClear
| OpCleanupExpired
| OpSize
| OpStats.

(** State in which the call returns or raises. *)
Definition run_op (op : Op) (s : State) : State :=
  match op with
  | OpSet k v ttl => snd (set k v ttl s)
  | OpGet k d => snd (get k d s)
  | OpDelete k => snd (delete k s)
  | OpClear => snd (clear s)
  | OpCleanupExpired => snd (cleanup_expired s)
  | OpSize => snd (size s)
  | OpStats => snd (stats s)
  end.

Definition run_ops (ops : list Op) (s : State) : State :=
  fold_left (fun st op => run_op op st) ops s.
End Model.

Arguments CacheEntry : clear implicits.
Arguments EntryData : clear implicits.
Arguments File : clear implicits.
Arguments World : clear implicits.
Arguments State : clear implicits.
Arguments M : clear implicits.
Arguments Op : clear implicits.
Arguments Ok {A} a.
Arguments Err {A} e.

End V1Cache.

(** ** Vocabulary for the first version *)

Section V1Vocabulary.
Context {Value : Type} {codec : JSON Value}.
Variable clock : nat -> Z.

Local Abbreviation Entry1 := (V1Cache.CacheEntry Value).
Local Abbreviation Store1 := (OrderedDict.t (V := V1Cache.CacheEntry Value)).
Local Abbreviation State1 := (V1Cache.State Value).

(** The world after one more reading of the clock. *)
Definition v1_tick (w : V1Cache.World Value) : V1Cache.World Value :=
  V1Cache.mkWorld (S (V1Cache.ticks w)) (V1Cache.files w) (V1Cache.writable w).

(** The content of the file after a save of the dictionary [c]: the
    entries as JSON gives them back, or text that is not JSON when
    [json.dump] raises on one of the values. *)
Definition v1_file_after (c : Store1) : V1Cache.File Value :=
  match V1Cache.json_entries (OrderedDict.values c) with
  | Some written => V1Cache.Entries written
  | None => V1Cache.NotJSON
  end.

(** The state once [_save_to_disk] has opened and written the file. *)
Definition v1_written (s : State1) : State1 :=
  match V1Cache.persistence_file (V1Cache.config s) with
  | Some p =>
      V1Cache.set_world
        (V1Cache.mkWorld (V1Cache.ticks (V1Cache.world s))
           (V1Cache.write_file (V1Cache.files (V1Cache.world s)) p
              (Some (v1_file_after (V1Cache._store s))))
           (V1Cache.writable (V1Cache.world s))) s
  | None => s
  end.

(** What the save that ends a mutating method returns or raises. *)
Definition v1_save_result (s : State1) : V1Cache.outcome unit :=
  if V1Cache.auto_saves (V1Cache.config s)
  then if V1Cache.writable (V1Cache.world s)
       then match V1Cache.json_entries (OrderedDict.values (V1Cache._store s)) with
            | Some _ => V1Cache.Ok tt
            | None => V1Cache.Err V1Cache.TypeError
            end
       else V1Cache.Err V1Cache.OSError
  else V1Cache.Ok tt.

(** Outcome and state of that save. *)
Definition v1_saved (s : State1) : V1Cache.outcome unit * State1 :=
  (v1_save_result s,
   if V1Cache.auto_saves (V1Cache.config s)
      && V1Cache.writable (V1Cache.world s)
   then v1_written s else s).

(** The entry that [set] writes at time [now]. *)
Definition v1_entry (k : string) (v : Value) (ttl : option Z) (now : Z) : Entry1 :=
  V1Cache.mkEntry k v now
    (match ttl with
     | Some t => if t =? 0 then None else Some (now + t)
     | None => None
     end) 0 now.

Definition v1_effective_ttl (s : State1) (ttl : option Z) : option Z :=
  match ttl with
  | Some t => Some t
  | None => V1Cache.default_ttl (V1Cache.config s)
  end.

(** The dictionary of [set] after its capacity check. *)
Definition v1_made_room (k : string) (s : State1) : Store1 :=
  if negb (OrderedDict.contains (V1Cache._store s) k)
     && (OrderedDict.len (V1Cache._store s) >=? V1Cache.max_size (V1Cache.config s))
  then V2._evict_lru (V1Cache._store s)
  else V1Cache._store s.

(** State of [set] once the new entry is in the dictionary. *)
Definition v1_stored (k : string) (v : Value) (ttl : option Z) (s : State1)
    : State1 :=
  let now := clock (V1Cache.ticks (V1Cache.world s)) in
  let c := v1_made_room k s in
  V1Cache.mkState (V1Cache.config s)
    (OrderedDict.setitem
       (if OrderedDict.contains c k then OrderedDict.delitem c k else c)
       k (v1_entry k v (v1_effective_ttl s ttl) now))
    (v1_tick (V1Cache.world s)).

(** Index of the next reading after the expiry test of [get] on [e]. *)
Definition v1_tick_after (t : nat) (e : Entry1) : nat :=
  if truthy_time (V1Cache.expires_at e) then S t else t.

(** State after a hit on [k], whose entry is [e]. *)
Definition v1_touched (k : string) (e : Entry1) (s : State1) : State1 :=
  let t := v1_tick_after (V1Cache.ticks (V1Cache.world s)) e in
  V1Cache.mkState (V1Cache.config s)
    (OrderedDict.delitem (V1Cache._store s) k
       ++ [(k, V1Cache.accessed e (clock t))])
    (V1Cache.mkWorld (S t) (V1Cache.files (V1Cache.world s))
       (V1Cache.writable (V1Cache.world s))).

(** Sum of the access counts, as [stats] computes it. *)
Definition v1_total_accesses (c : Store1) : Z :=
  fold_left Z.add (map (V1Cache.access_count (Value := Value))
                     (OrderedDict.values c)) 0.

(** The entries that a cleanup at time [now] keeps. *)
Definition v1_alive (now : Z) (kv : string * Entry1) : bool :=
  negb (V1Cache.past now (V1Cache.expires_at (snd kv))).

(** What the loop of [_load_from_disk] does to the dictionary for one
    well-formed element. *)
Definition v1_load_step (now : Z) (c : Store1) (e : Entry1) : Store1 :=
  if V1Cache.past now (V1Cache.expires_at e) then c
  else OrderedDict.setitem c (V1Cache.key e) e.

(** The elements of a file up to the first one that does not load. *)
Fixpoint v1_loadable_prefix (l : list (V1Cache.EntryData Value)) : list Entry1 :=
  match l with
  | V1Cache.EntryDict e :: r => e :: v1_loadable_prefix r
  | _ => []
  end.
End V1Vocabulary.

(** ** Concrete caches used in the examples *)

Module Demo.

(** A clock that advances by one unit at every reading. *)
Definition clock (i : nat) : Z := Z.of_nat i.

(** A clock that stands still. *)
Definition frozen (_ : nat) : Z := 10.

(** A writable disk without files. *)
Definition world0 : World string := mkWorld 0 (fun _ => None) true.

Definition set_ (k v : string) (ttl : option Z) : Op :=
  OpSet (KStr k) v ttl.

(** [Cache(CacheConfig(max_size=3, enable_persistence=False))] *)
Definition empty3 : State string :=
  Cache_init clock (Some (mkConfig 3 None None false true)) world0.

(** The cache of the LRU tests after [set('a')], [set('b')], [set('c')]. *)
Definition abc : State string :=
  run_ops clock [set_ "a" "1" None; set_ "b" "2" None; set_ "c" "3" None] empty3.

(** A clock that advances by ten units at every reading. *)
Definition fast (i : nat) : Z := 10 * Z.of_nat i.

(** A cache with the default cleanup setting in which ["temp"] was
    written at time 0 to live 2 units; the next reading is 10. *)
Definition forgotten : State string :=
  run_ops fast [set_ "temp" "soon" (Some 2)]
    (Cache_init fast (Some (mkConfig 3 None None false true)) world0).

(** A cache without automatic cleanup: ["temp"] is written at time 0 to
    live 2 units, ["keep"] at time 10; the next reading is 20. *)
Definition stale : State string :=
  run_ops fast [set_ "temp" "soon" (Some 2); set_ "keep" "v" None]
    (Cache_init fast (Some (mkConfig 3 None None false false)) world0).

(** The same history on a cache that persists to ["cache.json"]. *)
Definition stale_on_disk : State string :=
  run_ops fast [set_ "temp" "soon" (Some 2); set_ "keep" "v" None]
    (Cache_init fast
       (Some (mkConfig 3 None (Some "cache.json") true false)) world0).

(** The disk after a cache of capacity 3 bound to ["cache.json"] has
    stored two entries that never expire. *)
Definition disk_after_two_sets : World string :=
  world (run_ops clock [set_ "a" "1" None; set_ "b" "2" None]
           (Cache_init clock
              (Some (mkConfig 3 None (Some "cache.json") true true)) world0)).

(** [Cache(CacheConfig(max_size=1, storage_file='cache.json'))] on that
    disk. *)
Definition reloaded_small : result (State string) :=
  new_cache clock 1 None (Some "cache.json") true true disk_after_two_sets.

(** A cache with automatic cleanup: ["a"] is written at time 0 to live
    3 units, then ["k"] is written; the next reading is 3. *)
Definition short_lived : State string :=
  run_ops clock [set_ "a" "1" (Some 3); set_ "k" "old" None] empty3.

(** The cache [abc] on a disk that cannot be written. *)
Definition abc_readonly : State string :=
  mkState (config abc) (_cache abc) (_stats abc)
    (mkWorld (ticks (world abc)) (fun _ => None) false).

(** A disk whose ["cache.json"] holds a snapshot with a malformed
    element between two well-formed ones. *)
Definition corrupt_disk : World string :=
  mkWorld 0
    (fun p =>
       if String.eqb p "cache.json"
       then Some (Snapshot "1.0" 5
                    [EntryDict (mkEntry "a" "1" 1 None 1); Malformed;
                     EntryDict (mkEntry "b" "2" 2 (Some 0) 2)])
       else None)
    true.

(** Python values of several kinds and what the [json] module does to
    them: a string and a list are written and read back as they are, a
    tuple is written as an array and so read back as a list, and a set
    cannot be encoded. *)
Inductive PyValue : Type :=
| PyStr (s : string)
| PyList (items : list string)
| PyTuple (items : list string)
| PySet (items : list string).

#[global] Instance PyValue_JSON : JSON PyValue :=
  {| json_roundtrip := fun v =>
       match v with
       | PyStr s => Some (PyStr s)
       | PyList items => Some (PyList items)
       | PyTuple items => Some (PyList items)
       | PySet _ => None
       end |}.

Definition py_world0 : World PyValue := mkWorld 0 (fun _ => None) true.

(** [Cache(CacheConfig(max_size=3, storage_file='cache.json'))] after
    [set('t', ('1', '2'))]. *)
Definition py_on_disk : State PyValue :=
  run_ops clock [OpSet (KStr "t") (PyTuple ["1"; "2"]) None]
    (Cache_init clock
       (Some (mkConfig 3 None (Some "cache.json") true true)) py_world0).

(** The same history in the second and in the first version. *)
Definition v2_py_on_disk : V2Cache.State PyValue :=
  V2Cache.run_ops clock [V2Cache.OpSet "t" (PyTuple ["1"; "2"]) None]
    (V2Cache.Cache_init clock 3 None (Some "cache.json") true
       (V2Cache.mkWorld 0 (fun _ => None) true)).

Definition v1_py_on_disk : V1Cache.State PyValue :=
  V1Cache.run_ops clock [V1Cache.OpSet "t" (PyTuple ["1"; "2"]) None]
    (V1Cache.Cache_init clock
       (Some (V1Cache.mkConfig 3 None (Some "cache.json") true "lru"))
       (V1Cache.mkWorld 0 (fun _ => None) true)).

(** *** The second version *)

Definition v2_world0 : V2Cache.World string :=
  V2Cache.mkWorld 0 (fun _ => None) true.

(** [Cache(max_size=3)] *)
Definition v2_empty3 : V2Cache.State string :=
  V2Cache.Cache_init clock 3 None None true v2_world0.

(** After [set('a')], [set('b')], [set('c')]. *)
Definition v2_abc : V2Cache.State string :=
  V2Cache.run_ops clock
    [V2Cache.OpSet "a" "1" None; V2Cache.OpSet "b" "2" None;
     V2Cache.OpSet "c" "3" None] v2_empty3.

(** [Cache(max_size=3, storage_file='cache.json')] after two writes,
    the second with a TTL of zero. *)
Definition v2_on_disk : V2Cache.State string :=
  V2Cache.run_ops clock
    [V2Cache.OpSet "a" "1" None; V2Cache.OpSet "b" "2" (Some 0)]
    (V2Cache.Cache_init clock 3 None (Some "cache.json") true v2_world0).

(** *** The first version *)

Definition v1_world0 : V1Cache.World string :=
  V1Cache.mkWorld 0 (fun _ => None) true.

(** [Cache()] in which ["temp"] was written at time 0 to live 2 units
    and ["keep"] at time 10; the next reading is 20. *)
Definition v1_stale : V1Cache.State string :=
  V1Cache.run_ops fast
    [V1Cache.OpSet "temp" "soon" (Some 2); V1Cache.OpSet "keep" "v" None]
    (V1Cache.Cache_init fast None v1_world0).
End Demo.

(** Unfolds the plumbing of the state monad. *)
Ltac run_monad :=
  cbv beta iota delta [bind ret gets modify when count del_key time_time].

Ltac run_monad2 :=
  cbv beta iota delta [V2Cache.bind V2Cache.ret V2Cache.gets V2Cache.modify
                       V2Cache.when V2Cache.del_key V2Cache.time_time].

Ltac run_monad1 :=
  cbv beta iota delta [V1Cache.bind V1Cache.ret V1Cache.gets V1Cache.modify
                       V1Cache.when V1Cache.del_key V1Cache.time_time
                       V1Cache.raise].

(** Keys of a concrete dictionary are distinct. *)
Ltac distinct_keys :=
  unfold unique_keys; simpl; repeat constructor; simpl; intuition discriminate.

(** The clock of the examples never goes back. *)
Ltac steady_clock :=
  let i := fresh "i" in let j := fresh "j" in let H := fresh "H" in
  intros i j H; unfold Demo.clock, Demo.fast; lia.

(** ** Facts about sub-sequences *)

Section SubseqFacts.
Context {A : Type}.

Lemma subseq_refl (l : list A) : subseq l l.
Proof. induction l; constructor; assumption. Qed.

Lemma subseq_nil_l (l : list A) : subseq [] l.
Proof. induction l; constructor; assumption. Qed.

Lemma subseq_trans (l1 l2 l3 : list A) :
  subseq l1 l2 -> subseq l2 l3 -> subseq l1 l3.
Proof.
  intros H12 H23. revert l1 H12.
  induction H23; intros l0 H12.
  - assumption.
  - constructor. now apply IHsubseq.
  - inversion H12; subst.
    + constructor. now apply IHsubseq.
    + apply subseq_keep. now apply IHsubseq.
Qed.

Lemma subseq_In (l1 l2 : list A) (x : A) :
  subseq l1 l2 -> In x l1 -> In x l2.
Proof.
  induction 1; simpl; intros Hin; auto.
  destruct Hin; auto.
Qed.

Lemma subseq_length (l1 l2 : list A) :
  subseq l1 l2 -> (length l1 <= length l2)%nat.
Proof. induction 1; simpl; lia. Qed.

Lemma subseq_same_length (l1 l2 : list A) :
  subseq l1 l2 -> length l1 = length l2 -> l1 = l2.
Proof.
  induction 1; simpl; intros Hlen.
  - reflexivity.
  - apply subseq_length in H. lia.
  - f_equal. apply IHsubseq. lia.
Qed.

Lemma subseq_app (l1 l2 r1 r2 : list A) :
  subseq l1 l2 -> subseq r1 r2 -> subseq (l1 ++ r1) (l2 ++ r2).
Proof.
  induction 1; simpl; intros Hr.
  - assumption.
  - apply subseq_skip. auto.
  - apply subseq_keep. auto.
Qed.

Lemma subseq_Forall (P : A -> Prop) (l1 l2 : list A) :
  subseq l1 l2 -> Forall P l2 -> Forall P l1.
Proof.
  intros Hs Hall. rewrite Forall_forall in *.
  intros x Hx. apply Hall. eapply subseq_In; eassumption.
Qed.

Lemma subseq_StronglySorted (R : A -> A -> Prop) (l1 l2 : list A) :
  subseq l1 l2 -> StronglySorted R l2 -> StronglySorted R l1.
Proof.
  induction 1; intros Hs.
  - constructor.
  - inversion Hs; subst. auto.
  - inversion Hs; subst. constructor; auto.
    eapply subseq_Forall; eassumption.
Qed.
End SubseqFacts.

Lemma subseq_map {A B : Type} (f : A -> B) (l1 l2 : list A) :
  subseq l1 l2 -> subseq (map f l1) (map f l2).
Proof. induction 1; simpl; constructor; assumption. Qed.

Lemma subseq_NoDup {A : Type} (l1 l2 : list A) :
  subseq l1 l2 -> NoDup l2 -> NoDup l1.
Proof.
  induction 1; intros Hnd.
  - constructor.
  - inversion Hnd; subst. auto.
  - inversion Hnd; subst. constructor; auto.
    intros Hin. apply H2. eapply subseq_In; eassumption.
Qed.

(** ** Facts about the ordered dictionary *)

Section DictFacts.
Context {V : Type}.
Implicit Types (d : OrderedDict.t (V := V)) (k : string) (v : V).

Lemma get_None_keys d k :
  OrderedDict.get d k = None <-> ~ In k (OrderedDict.keys d).
Proof.
  induction d as [|[k' v'] r IH]; simpl.
  - tauto.
  - destruct (String.eqb_spec k' k) as [->|Hne].
    + split; [discriminate | intros H; exfalso; apply H; now left].
    + rewrite IH. split.
      * intros H [Heq|Hin]; [now apply Hne | now apply H].
      * intros H Hin. apply H. now right.
Qed.

Lemma get_Some_In d k v :
  OrderedDict.get d k = Some v -> In (k, v) d.
Proof.
  induction d as [|[k' v'] r IH]; simpl; [discriminate|].
  destruct (String.eqb_spec k' k) as [->|Hne].
  - intros [= ->]. now left.
  - intros H. right. now apply IH.
Qed.

Lemma In_get_Some d k v :
  NoDup (OrderedDict.keys d) -> In (k, v) d -> OrderedDict.get d k = Some v.
Proof.
  induction d as [|[k' v'] r IH]; simpl; [tauto|].
  intros Hnd [Heq|Hin].
  - inversion Heq; subst. now rewrite String.eqb_refl.
  - inversion Hnd; subst.
    destruct (String.eqb_spec k' k) as [->|Hne].
    + exfalso. apply H1. change k with (fst (k, v)). now apply in_map.
    + now apply IH.
Qed.

Lemma contains_true d k :
  OrderedDict.contains d k = true <-> In k (OrderedDict.keys d).
Proof.
  unfold OrderedDict.contains.
  destruct (OrderedDict.get d k) eqn:E.
  - split; [intros _|reflexivity].
    apply get_Some_In in E. change k with (fst (k, v)). now apply in_map.
  - split; [discriminate|]. intros Hin.
    now apply get_None_keys in E.
Qed.

Lemma contains_false d k :
  OrderedDict.contains d k = false <-> OrderedDict.get d k = None.
Proof.
  unfold OrderedDict.contains.
  destruct (OrderedDict.get d k); split; congruence.
Qed.

Lemma delitem_subseq d k : subseq (OrderedDict.delitem d k) d.
Proof.
  induction d as [|[k' v'] r IH]; simpl.
  - constructor.
  - destruct (String.eqb k' k).
    + constructor. apply subseq_refl.
    + now apply subseq_keep.
Qed.

Lemma delitem_absent d k :
  OrderedDict.get d k = None -> OrderedDict.delitem d k = d.
Proof.
  induction d as [|[k' v'] r IH]; simpl; [reflexivity|].
  destruct (String.eqb k' k); [discriminate|].
  intros H. now rewrite IH.
Qed.

Lemma delitem_length d k v :
  OrderedDict.get d k = Some v ->
  S (length (OrderedDict.delitem d k)) = length d.
Proof.
  induction d as [|[k' v'] r IH]; simpl; [discriminate|].
  destruct (String.eqb k' k); [reflexivity|].
  intros H. simpl. now rewrite IH.
Qed.

Lemma delitem_get_same d k :
  NoDup (OrderedDict.keys d) ->
  OrderedDict.get (OrderedDict.delitem d k) k = None.
Proof.
  induction d as [|[k' v'] r IH]; simpl; [reflexivity|].
  intros Hnd. inversion Hnd; subst.
  destruct (String.eqb_spec k' k) as [->|Hne].
  - now apply get_None_keys.
  - simpl. destruct (String.eqb_spec k' k); [contradiction|]. now apply IH.
Qed.

Lemma delitem_get_other d k k' :
  k' <> k ->
  OrderedDict.get (OrderedDict.delitem d k) k' = OrderedDict.get d k'.
Proof.
  intros Hne.
  induction d as [|[k0 v0] r IH]; simpl; [reflexivity|].
  destruct (String.eqb_spec k0 k) as [->|Hne0].
  - destruct (String.eqb_spec k k'); [congruence|reflexivity].
  - simpl. now rewrite IH.
Qed.

Lemma delitem_NoDup d k :
  NoDup (OrderedDict.keys d) -> NoDup (OrderedDict.keys (OrderedDict.delitem d k)).
Proof.
  apply subseq_NoDup. apply subseq_map. apply delitem_subseq.
Qed.

Lemma delitem_split d k v :
  OrderedDict.get d k = Some v ->
  exists pre post,
    d = pre ++ (k, v) :: post
    /\ OrderedDict.delitem d k = pre ++ post
    /\ ~ In k (OrderedDict.keys pre).
Proof.
  induction d as [|[k' v'] r IH]; simpl; [discriminate|].
  destruct (String.eqb_spec k' k) as [->|Hne].
  - intros [= ->]. exists [], r. simpl. auto.
  - intros H. destruct (IH H) as (pre & post & -> & Hdel & Hnin).
    exists ((k', v') :: pre), post. simpl. rewrite Hdel.
    repeat split; auto. intros [Heq|Hin]; auto.
Qed.

Lemma setitem_absent d k v :
  OrderedDict.get d k = None -> OrderedDict.setitem d k v = d ++ [(k, v)].
Proof.
  induction d as [|[k' v'] r IH]; simpl; [reflexivity|].
  destruct (String.eqb k' k); [discriminate|].
  intros H. now rewrite IH.
Qed.

Lemma setitem_get_same d k v :
  OrderedDict.get (OrderedDict.setitem d k v) k = Some v.
Proof.
  induction d as [|[k' v'] r IH]; simpl.
  - now rewrite String.eqb_refl.
  - destruct (String.eqb k' k) eqn:E; simpl; rewrite E; auto.
Qed.

Lemma setitem_delitem d k v :
  OrderedDict.get d k <> None ->
  OrderedDict.delitem (OrderedDict.setitem d k v) k = OrderedDict.delitem d k.
Proof.
  induction d as [|[k' v'] r IH]; simpl; [congruence|].
  destruct (String.eqb k' k) eqn:E; simpl; rewrite E; [reflexivity|].
  intros H. now rewrite IH.
Qed.

(** The pair [setitem] (in place) then [move_to_end] that a hit performs. *)
Lemma move_to_end_setitem d k v :
  OrderedDict.get d k <> None ->
  OrderedDict.move_to_end (OrderedDict.setitem d k v) k
  = OrderedDict.delitem d k ++ [(k, v)].
Proof.
  intros H. unfold OrderedDict.move_to_end.
  rewrite setitem_get_same. now rewrite setitem_delitem.
Qed.

Lemma keys_app d1 d2 :
  OrderedDict.keys (d1 ++ d2) = OrderedDict.keys d1 ++ OrderedDict.keys d2.
Proof. apply map_app. Qed.

Lemma NoDup_keys_snoc d k v :
  NoDup (OrderedDict.keys d) -> OrderedDict.get d k = None ->
  NoDup (OrderedDict.keys (d ++ [(k, v)])).
Proof.
  intros Hnd Hget. rewrite keys_app. simpl.
  apply get_None_keys in Hget.
  induction (OrderedDict.keys d) as [|x l IH]; simpl.
  - constructor; [tauto | constructor].
  - inversion Hnd; subst. constructor.
    + rewrite in_app_iff. simpl. intros [Hin|[Heq|[]]]; [contradiction|].
      subst. apply Hget. now left.
    + apply IH; auto. intros Hin. apply Hget. now right.
Qed.

Lemma get_snoc_same d k v :
  OrderedDict.get d k = None ->
  OrderedDict.get (d ++ [(k, v)]) k = Some v.
Proof.
  induction d as [|[k' v'] r IH]; simpl.
  - now rewrite String.eqb_refl.
  - destruct (String.eqb k' k); [discriminate|]. exact IH.
Qed.
End DictFacts.

(** ** Closed forms of the internal methods *)

Section Internals.
Context {Value : Type} {codec : JSON Value}.
Variable clock : nat -> Z.

Local Abbreviation Entry := (CacheEntry Value).
Local Abbreviation Store := (OrderedDict.t (V := CacheEntry Value)).
Implicit Types (s : State Value) (c : Store) (e : Entry) (k : string).

Lemma bind_run {A B : Type} (m : M Value A) (f : A -> M Value B) s a s' :
  m s = (a, s') -> bind m f s = f a s'.
Proof. intros H. unfold bind. now rewrite H. Qed.

Lemma at_tick_same s : set_world (at_tick (ticks (world s)) (world s)) s = s.
Proof. destruct s as [cfg c st [t fs wr]]. reflexivity. Qed.

Lemma is_expired_eq e s :
  is_expired clock e s
  = (expired_at (clock (ticks (world s))) e,
     set_world (at_tick (tick_after (ticks (world s)) e) (world s)) s).
Proof.
  unfold is_expired, expired_at, tick_after.
  destruct (expires_at e); run_monad; simpl.
  - reflexivity.
  - now rewrite at_tick_same.
Qed.

Lemma expired_keys_of_eq c s :
  expired_keys_of clock c s
  = (scan_expired clock (ticks (world s)) c,
     set_world (at_tick (scan_end (ticks (world s)) c) (world s)) s).
Proof.
  revert s. induction c as [|[k e] r IH]; intros s; simpl.
  - unfold ret. now rewrite at_tick_same.
  - rewrite (bind_run _ _ _ _ _ (is_expired_eq e s)).
    rewrite (bind_run _ _ _ _ _ (IH _)). unfold ret. simpl.
    destruct (expired_at _ e); reflexivity.
Qed.

Lemma purge_loop_eq (ks : list string) s :
  for_each ks (fun k => del_key k ;;; count incr_expirations) s
  = (tt, mkState (config s)
           (fold_left OrderedDict.delitem ks (_cache s))
           (add_expirations (length ks) (_stats s)) (world s)).
Proof.
  revert s. induction ks as [|k r IH]; intros s; simpl.
  - unfold ret, add_expirations. destruct s as [cfg c [h m ev ex] w]; simpl.
    now rewrite Z.add_0_r.
  - run_monad. rewrite IH. simpl. f_equal. f_equal.
    unfold add_expirations, incr_expirations; simpl. f_equal. lia.
Qed.

(** *** The scan of the cleanup pass *)

Lemma scan_end_ge (t : nat) c : (t <= scan_end t c)%nat.
Proof.
  revert t. induction c as [|[k e] r IH]; intros t; simpl; [lia|].
  specialize (IH (tick_after t e)). unfold tick_after in *.
  destruct (expires_at e); lia.
Qed.

Lemma survivors_subseq (t : nat) c : subseq (survivors clock t c) c.
Proof.
  revert t. induction c as [|[k e] r IH]; intros t; simpl.
  - constructor.
  - destruct (expired_at _ e); constructor; apply IH.
Qed.

Lemma scan_expired_keys (t : nat) c k :
  In k (scan_expired clock t c) -> In k (OrderedDict.keys c).
Proof.
  revert t. induction c as [|[k' e] r IH]; intros t; simpl; [tauto|].
  destruct (expired_at _ e); simpl; intros H.
  - destruct H; [now left | right; eauto].
  - right; eauto.
Qed.

Lemma scan_lengths (t : nat) c :
  (length (scan_expired clock t c) + length (survivors clock t c))%nat = length c.
Proof.
  revert t. induction c as [|[k e] r IH]; intros t; simpl; [reflexivity|].
  specialize (IH (tick_after t e)).
  destruct (expired_at _ e); simpl; lia.
Qed.

Lemma fold_delitem_cons (ks : list string) (kv : string * Entry) c :
  ~ In (fst kv) ks ->
  fold_left OrderedDict.delitem ks (kv :: c)
  = kv :: fold_left OrderedDict.delitem ks c.
Proof.
  revert c. induction ks as [|k r IH]; intros c Hnin; simpl; [reflexivity|].
  destruct kv as [k' e]. simpl in *.
  destruct (String.eqb_spec k' k) as [->|Hne].
  - exfalso. apply Hnin. now left.
  - apply IH. intros Hin. apply Hnin. now right.
Qed.

Lemma purge_scan (t : nat) c :
  unique_keys c ->
  fold_left OrderedDict.delitem (scan_expired clock t c) c = survivors clock t c.
Proof.
  unfold unique_keys.
  revert t. induction c as [|[k e] r IH]; intros t Hnd; simpl; [reflexivity|].
  inversion Hnd; subst.
  destruct (expired_at _ e); simpl.
  - rewrite String.eqb_refl. now apply IH.
  - rewrite fold_delitem_cons.
    + f_equal. now apply IH.
    + simpl. intros Hin. apply H1. eapply scan_expired_keys; eassumption.
Qed.

(** An entry that survives the scan was seen alive by one of its
    readings; one that does not was seen expired. *)
Lemma survivors_seen_alive (t : nat) c k e :
  In (k, e) (survivors clock t c) ->
  exists i, (t <= i <= scan_end t c)%nat /\ expired_at (clock i) e = false.
Proof.
  revert t. induction c as [|[k' e'] r IH]; intros t; simpl; [tauto|].
  pose proof (scan_end_ge (tick_after t e') r) as Hge.
  assert (Ht : (t <= tick_after t e')%nat)
    by (unfold tick_after; destruct (expires_at e'); lia).
  destruct (expired_at (clock t) e') eqn:E; simpl.
  - intros Hin. destruct (IH _ Hin) as (i & Hi & Hlive).
    exists i. split; [lia | assumption].
  - intros [Heq|Hin].
    + inversion Heq; subst. exists t. split; [lia | assumption].
    + destruct (IH _ Hin) as (i & Hi & Hlive).
      exists i. split; [lia | assumption].
Qed.

Lemma purged_seen_expired (t : nat) c k e :
  In (k, e) c ->
  In (k, e) (survivors clock t c)
  \/ exists i, (t <= i < scan_end t c)%nat /\ expired_at (clock i) e = true.
Proof.
  revert t. induction c as [|[k' e'] r IH]; intros t; simpl; [tauto|].
  pose proof (scan_end_ge (tick_after t e') r) as Hge.
  assert (Ht : (t <= tick_after t e')%nat)
    by (unfold tick_after; destruct (expires_at e'); lia).
  intros [Heq|Hin].
  - inversion Heq; subst.
    destruct (expired_at (clock t) e) eqn:E.
    + right. exists t. split; [|assumption].
      unfold expired_at in E. unfold tick_after in *.
      destruct (expires_at e); [simpl in *; lia | discriminate].
    + left. now left.
  - destruct (IH (tick_after t e') Hin) as [Hs|(i & Hi & Hd)].
    + left. destruct (expired_at (clock t) e'); [assumption | now right].
    + right. exists i. split; [lia | assumption].
Qed.

Lemma expired_at_mono (now now' : Z) e :
  now <= now' -> expired_at now e = true -> expired_at now' e = true.
Proof.
  unfold expired_at. destruct (expires_at e); [|discriminate].
  intros Hle H. apply Z.gtb_lt in H. apply Z.gtb_lt. lia.
Qed.

(** Under a monotone clock nothing that is expired when the scan starts
    survives it. *)
Lemma survivors_not_expired (t : nat) c k e :
  monotone clock ->
  In (k, e) (survivors clock t c) -> expired_at (clock t) e = false.
Proof.
  intros Hmono Hin.
  destruct (survivors_seen_alive _ _ _ _ Hin) as (i & Hi & Hlive).
  destruct (expired_at (clock t) e) eqn:E; [|reflexivity].
  rewrite (expired_at_mono (clock t) (clock i)) in Hlive; auto.
  apply Hmono. lia.
Qed.
End Internals.

(** ** Saving, evicting and cleaning up *)

Lemma append_length (a b : string) :
  String.length (String.append a b) = (String.length a + String.length b)%nat.
Proof. induction a; simpl; [reflexivity | now rewrite IHa]. Qed.

Lemma temp_file_differs (p : string) : String.eqb (String.append p ".tmp") p = false.
Proof.
  apply String.eqb_neq. intros H.
  apply (f_equal String.length) in H. rewrite append_length in H.
  simpl in H. lia.
Qed.

Section MinFacts.
Context {A : Type}.
Variable f : A -> Z.

Lemma py_min_from_first (xs : list A) (best : A) :
  exists pre post,
    best :: xs = pre ++ py_min_from f best xs :: post
    /\ (forall y, In y pre -> f (py_min_from f best xs) < f y)
    /\ (forall y, In y post -> f (py_min_from f best xs) <= f y).
Proof.
  revert best. induction xs as [|x r IH]; intros best; simpl.
  - exists [], []. simpl. split; [reflexivity|]. split; intros y [].
  - destruct (Z.ltb_spec (f x) (f best)) as [Hlt|Hge].
    + destruct (IH x) as (pre & post & Heq & Hpre & Hpost).
      set (m := py_min_from f x r) in *.
      assert (Hmx : f m <= f x).
      { assert (Hin : In x (pre ++ m :: post)) by (rewrite <- Heq; now left).
        apply in_app_iff in Hin. destruct Hin as [Hin|[Hm|Hin]].
        - apply Hpre in Hin. lia.
        - rewrite Hm. lia.
        - now apply Hpost. }
      exists (best :: pre), post. simpl. rewrite Heq.
      split; [reflexivity|]. split; [|assumption].
      intros y [Hy|Hin]; [subst y; lia | now apply Hpre].
    + destruct (IH best) as (pre & post & Heq & Hpre & Hpost).
      set (m := py_min_from f best r) in *.
      destruct pre as [|b pre'].
      * simpl in Heq. injection Heq as Hb Hr.
        exists [], (x :: r). simpl. rewrite <- Hb.
        split; [reflexivity|]. split; [intros y []|].
        intros y [Hy|Hin]; [subst y; assumption|].
        rewrite Hb. apply Hpost. rewrite <- Hr. assumption.
      * simpl in Heq. injection Heq as Hb Hr. subst b.
        assert (Hmb : f m < f best) by (apply Hpre; now left).
        exists (best :: x :: pre'), post. simpl. rewrite Hr.
        split; [reflexivity|]. split; [|assumption].
        intros y [Hy|[Hy|Hin]]; [subst y; assumption | subst y; lia |].
        apply Hpre. now right.
Qed.

Lemma py_min_from_head (xs : list A) (best : A) :
  (forall y, In y xs -> f best <= f y) -> py_min_from f best xs = best.
Proof.
  revert best. induction xs as [|x r IH]; intros best Hall; simpl.
  - reflexivity.
  - destruct (Z.ltb_spec (f x) (f best)) as [Hlt|Hge].
    + specialize (Hall x (or_introl eq_refl)). lia.
    + apply IH. intros y Hin. apply Hall. now right.
Qed.
End MinFacts.

Section Saving.
Context {Value : Type} {codec : JSON Value}.
Variable clock : nat -> Z.

Local Abbreviation Entry := (CacheEntry Value).
Local Abbreviation Store := (OrderedDict.t (V := CacheEntry Value)).
Implicit Types (s : State Value) (c : Store) (e : Entry) (k : string).

(** A save touches nothing but the world, and reads the clock at most once. *)
Lemma save_frame s :
  let s' := snd (_save_to_storage clock s) in
  config s' = config s /\ _cache s' = _cache s /\ _stats s' = _stats s
  /\ writable (world s') = writable (world s)
  /\ (ticks (world s) <= ticks (world s') <= S (ticks (world s)))%nat.
Proof.
  unfold _save_to_storage. run_monad.
  destruct (storage_file (config s)) as [p|]; simpl; [|repeat split; lia].
  destruct (String.eqb p EmptyString); simpl; [repeat split; lia|].
  destruct (writable (world s)) eqn:E; simpl; rewrite ?E;
    [|repeat split; lia].
  destruct (json_entries _); simpl; rewrite ?E; repeat split; lia.
Qed.

(** What [json.dump] writes for a dictionary. *)
Lemma json_entries_store c :
  json_entries (map to_dict (OrderedDict.values c))
  = match json_store c with
    | Some c' => Some (map to_dict (OrderedDict.values c'))
    | None => None
    end.
Proof.
  unfold OrderedDict.values, to_dict.
  induction c as [|[k e] r IH]; simpl; [reflexivity|].
  rewrite IH.
  destruct (json_roundtrip (value e)); [|reflexivity].
  destruct (json_store r); reflexivity.
Qed.

Lemma json_store_exact c : json_exact c -> keys_agree c -> json_store c = Some c.
Proof.
  unfold json_exact, keys_agree.
  induction c as [|[k e] r IH]; intros Hex Hag; simpl; [reflexivity|].
  inversion Hex; subst. inversion Hag; subst. simpl in *.
  rewrite H1, (IH H2 H4). destruct e. reflexivity.
Qed.

(** A dictionary read back from JSON has the same keys in the same
    order, and under each key the entry with its value read back. *)
Lemma json_store_keys c c' :
  json_store c = Some c' -> OrderedDict.keys c' = OrderedDict.keys c.
Proof.
  revert c'. induction c as [|[k e] r IH]; simpl; intros c' H.
  - now injection H as <-.
  - destruct (json_roundtrip (value e)); [|discriminate].
    destruct (json_store r) as [r'|]; [|discriminate].
    injection H as <-. simpl. f_equal. now apply IH.
Qed.

Lemma json_store_In c c' k e :
  json_store c = Some c' -> In (k, e) c ->
  exists v, json_roundtrip (value e) = Some v /\ In (k, with_value e v) c'.
Proof.
  revert c'. induction c as [|[k0 e0] r IH]; simpl; intros c' H Hin; [tauto|].
  destruct (json_roundtrip (value e0)) as [v0|] eqn:Hv; [|discriminate].
  destruct (json_store r) as [r'|]; [|discriminate].
  injection H as <-. destruct Hin as [Heq|Hin].
  - injection Heq as -> ->. exists v0. split; [assumption | now left].
  - destruct (IH r' eq_refl Hin) as (v & Hrt & Hin').
    exists v. split; [assumption | now right].
Qed.

Lemma json_store_agree c c' :
  json_store c = Some c' -> keys_agree c -> keys_agree c'.
Proof.
  unfold keys_agree.
  revert c'. induction c as [|[k e] r IH]; simpl; intros c' H Hag.
  - injection H as <-. constructor.
  - destruct (json_roundtrip (value e)); [|discriminate].
    destruct (json_store r) as [r'|]; [|discriminate].
    injection H as <-. inversion Hag; subst.
    constructor; [assumption | now apply IH].
Qed.

(** On a writable disk, when [json.dump] accepts every value, the
    storage file holds the dictionary as JSON gives it back, stamped
    with the reading taken by the save, and the temporary file is
    gone. *)
Lemma save_writes s (p : string) c' :
  storage_file (config s) = Some p -> p <> EmptyString ->
  writable (world s) = true ->
  json_store (_cache s) = Some c' ->
  let s' := snd (_save_to_storage clock s) in
  files (world s') p = Some (snapshot (clock (ticks (world s))) c')
  /\ files (world s') (String.append p ".tmp") = None
  /\ ticks (world s') = S (ticks (world s)).
Proof.
  intros Hp Hne Hw Hjs. unfold _save_to_storage. run_monad.
  rewrite Hp. apply String.eqb_neq in Hne. rewrite Hne. simpl.
  rewrite Hw. rewrite json_entries_store, Hjs.
  simpl. unfold os_replace, write_file, snapshot.
  rewrite String.eqb_refl.
  rewrite String.eqb_sym, temp_file_differs, String.eqb_refl.
  auto.
Qed.

(** When [json.dump] raises, the storage file is not replaced and the
    temporary file stays, with text that is not JSON. *)
Lemma save_fails s (p : string) :
  storage_file (config s) = Some p -> p <> EmptyString ->
  writable (world s) = true ->
  json_store (_cache s) = None ->
  let s' := snd (_save_to_storage clock s) in
  files (world s') p = files (world s) p
  /\ files (world s') (String.append p ".tmp") = Some NotJSON
  /\ ticks (world s') = S (ticks (world s)).
Proof.
  intros Hp Hne Hw Hjs. unfold _save_to_storage. run_monad.
  rewrite Hp. apply String.eqb_neq in Hne. rewrite Hne. simpl.
  rewrite Hw. rewrite json_entries_store, Hjs.
  simpl. unfold write_file.
  rewrite String.eqb_refl, String.eqb_sym, temp_file_differs.
  auto.
Qed.

(** Where the disk cannot be written the save is lost. *)
Lemma save_lost s :
  writable (world s) = false ->
  files (world (snd (_save_to_storage clock s))) = files (world s).
Proof.
  intros Hw. unfold _save_to_storage. run_monad.
  destruct (storage_file (config s)) as [p|]; simpl; [|reflexivity].
  destruct (String.eqb p EmptyString); simpl; [reflexivity|].
  rewrite Hw. reflexivity.
Qed.

Lemma persisted_frame s :
  let s' := persisted clock s in
  config s' = config s /\ _cache s' = _cache s /\ _stats s' = _stats s
  /\ writable (world s') = writable (world s)
  /\ (ticks (world s) <= ticks (world s') <= S (ticks (world s)))%nat.
Proof.
  unfold persisted. destruct (enable_persistence (config s)).
  - apply save_frame.
  - simpl. repeat split; lia.
Qed.

Lemma when_save_eq (b : bool) s :
  when b (_save_to_storage clock) s
  = (tt, if b then snd (_save_to_storage clock s) else s).
Proof.
  unfold when. destruct b; [|reflexivity].
  destruct (_save_to_storage clock s) as [[] s']. reflexivity.
Qed.

(** *** Closed form of [_cleanup_expired] *)

Lemma cleanup_eq s :
  unique_keys (_cache s) ->
  _cleanup_expired clock s
  = (Z.of_nat (length (scan_expired clock (ticks (world s)) (_cache s))),
     cleaned clock s).
Proof.
  intros Hnd. unfold _cleanup_expired.
  erewrite bind_run by reflexivity.
  erewrite bind_run by apply expired_keys_of_eq.
  erewrite bind_run by apply purge_loop_eq.
  erewrite bind_run by reflexivity.
  erewrite bind_run by apply when_save_eq.
  simpl. rewrite purge_scan by assumption.
  unfold ret, cleaned, purged. reflexivity.
Qed.

Lemma cleaned_frame s :
  let s' := cleaned clock s in
  config s' = config s
  /\ _cache s' = survivors clock (ticks (world s)) (_cache s)
  /\ hits (_stats s') = hits (_stats s)
  /\ misses (_stats s') = misses (_stats s)
  /\ evictions (_stats s') = evictions (_stats s)
  /\ expirations (_stats s') + OrderedDict.len (_cache s')
     = expirations (_stats s) + OrderedDict.len (_cache s)
  /\ writable (world s') = writable (world s)
  /\ (scan_end (ticks (world s)) (_cache s) <= ticks (world s')
      <= S (scan_end (ticks (world s)) (_cache s)))%nat.
Proof.
  pose proof (scan_lengths clock (ticks (world s)) (_cache s)) as Hlen.
  unfold cleaned.
  destruct (negb _ && _); simpl.
  - pose proof (save_frame (purged clock s)) as Hs. simpl in Hs.
    destruct Hs as (S1 & S2 & S3 & S4 & S5).
    rewrite S1, S2, S3, S4. simpl. unfold OrderedDict.len.
    repeat split; auto; lia.
  - unfold OrderedDict.len. repeat split; auto; lia.
Qed.
End Saving.

(** ** Closed forms of the public methods *)

Section PublicMethods.
Context {Value : Type} {codec : JSON Value}.
Variable clock : nat -> Z.

Local Abbreviation Entry := (CacheEntry Value).
Local Abbreviation Store := (OrderedDict.t (V := CacheEntry Value)).
Implicit Types (s : State Value) (c : Store) (e : Entry) (k : string).

Lemma when_persist_eq s :
  when (enable_persistence (config s)) (_save_to_storage clock) s
  = (tt, persisted clock s).
Proof. rewrite when_save_eq. reflexivity. Qed.

Lemma get_eq k (default : Value) s :
  get clock k default s
  = match OrderedDict.get (_cache s) k with
    | None => (default, set_stats (incr_misses (_stats s)) s)
    | Some e =>
        if expired_at (clock (ticks (world s))) e
        then (default,
              persisted clock
                (dropped k e (incr_misses (incr_expirations (_stats s))) s))
        else (value e, touched clock k e s)
    end.
Proof.
  unfold get. erewrite bind_run by reflexivity.
  destruct (OrderedDict.get (_cache s) k) as [e|] eqn:Hget.
  - erewrite bind_run by apply is_expired_eq.
    destruct (expired_at _ e).
    + do 4 (erewrite bind_run by reflexivity).
      erewrite bind_run.
      2:{ apply (when_persist_eq
                   (dropped k e (incr_misses (incr_expirations (_stats s))) s)). }
      reflexivity.
    + do 4 (erewrite bind_run by reflexivity). unfold ret, touched. simpl.
      rewrite move_to_end_setitem by congruence. reflexivity.
  - erewrite bind_run by reflexivity. reflexivity.
Qed.

Lemma has_eq k s :
  has clock k s
  = match OrderedDict.get (_cache s) k with
    | None => (false, s)
    | Some e =>
        if expired_at (clock (ticks (world s))) e
        then (false, persisted clock (dropped k e (incr_expirations (_stats s)) s))
        else (true, set_world (at_tick (tick_after (ticks (world s)) e) (world s)) s)
    end.
Proof.
  unfold has. erewrite bind_run by reflexivity.
  destruct (OrderedDict.get (_cache s) k) as [e|] eqn:Hget; [|reflexivity].
  erewrite bind_run by apply is_expired_eq.
  destruct (expired_at _ e); [|reflexivity].
  do 3 (erewrite bind_run by reflexivity).
  erewrite bind_run.
  2:{ apply (when_persist_eq (dropped k e (incr_expirations (_stats s)) s)). }
  reflexivity.
Qed.

Lemma delete_eq k s :
  delete clock k s
  = if OrderedDict.contains (_cache s) k
    then (true, persisted clock (set_cache (OrderedDict.delitem (_cache s) k) s))
    else (false, s).
Proof.
  unfold delete. erewrite bind_run by reflexivity.
  destruct (OrderedDict.contains (_cache s) k); [|reflexivity].
  do 2 (erewrite bind_run by reflexivity).
  erewrite bind_run.
  2:{ apply (when_persist_eq (set_cache (OrderedDict.delitem (_cache s) k) s)). }
  reflexivity.
Qed.

Lemma clear_eq s : clear clock s = (tt, persisted clock (set_cache [] s)).
Proof.
  unfold clear. do 2 (erewrite bind_run by reflexivity).
  apply (when_persist_eq (set_cache [] s)).
Qed.

Lemma auto_cleanup_eq s :
  unique_keys (_cache s) ->
  when (auto_cleanup (config s)) (_cleanup_expired clock ;;; ret tt) s
  = (tt, precleaned clock s).
Proof.
  intros Hnd. unfold when, precleaned.
  destruct (auto_cleanup (config s)); [|reflexivity].
  erewrite bind_run by (apply cleanup_eq; assumption). reflexivity.
Qed.

Lemma size_eq s :
  unique_keys (_cache s) ->
  size clock s
  = (OrderedDict.len (_cache (precleaned clock s)), precleaned clock s).
Proof.
  intros Hnd. unfold size. erewrite bind_run by reflexivity.
  erewrite bind_run by (apply auto_cleanup_eq; assumption).
  erewrite bind_run by reflexivity. reflexivity.
Qed.

Lemma keys_eq s :
  unique_keys (_cache s) ->
  keys clock s
  = (OrderedDict.keys (_cache (precleaned clock s)), precleaned clock s).
Proof.
  intros Hnd. unfold keys. erewrite bind_run by reflexivity.
  erewrite bind_run by (apply auto_cleanup_eq; assumption).
  erewrite bind_run by reflexivity. reflexivity.
Qed.

Lemma get_stats_state s :
  unique_keys (_cache s) -> snd (get_stats clock s) = precleaned clock s.
Proof.
  intros Hnd. unfold get_stats. erewrite bind_run by reflexivity.
  erewrite bind_run by (apply auto_cleanup_eq; assumption).
  do 2 (erewrite bind_run by reflexivity). reflexivity.
Qed.
End PublicMethods.

(** ** Closed form of [set] *)

Section SetMethod.
Context {Value : Type} {codec : JSON Value}.
Variable clock : nat -> Z.

Local Abbreviation Entry := (CacheEntry Value).
Local Abbreviation Store := (OrderedDict.t (V := CacheEntry Value)).
Implicit Types (s : State Value) (c : Store) (e : Entry) (k : string).

Lemma when_eq (b : bool) (m : M Value unit) s :
  when b m s = (tt, if b then snd (m s) else s).
Proof.
  unfold when. destruct b; [|reflexivity].
  destruct (m s) as [[] s']. reflexivity.
Qed.

Lemma cleaned_unique s :
  unique_keys (_cache s) -> unique_keys (_cache (cleaned clock s)).
Proof.
  intros Hnd. destruct (cleaned_frame clock s) as (_ & Hc & _).
  rewrite Hc. unfold unique_keys in *.
  eapply subseq_NoDup; [|eassumption].
  apply subseq_map. apply survivors_subseq.
Qed.

Lemma precleaned_config s : config (precleaned clock s) = config s.
Proof.
  unfold precleaned. destruct (auto_cleanup (config s)); [|reflexivity].
  apply cleaned_frame.
Qed.

Lemma precleaned_unique s :
  unique_keys (_cache s) -> unique_keys (_cache (precleaned clock s)).
Proof.
  unfold precleaned. destruct (auto_cleanup (config s)); [|tauto].
  apply cleaned_unique.
Qed.

(** An eviction touches the dictionary and the eviction counter only. *)
Lemma evict_frame s :
  let s' := snd (_evict_lru s) in
  config s' = config s /\ world s' = world s
  /\ subseq (_cache s') (_cache s)
  /\ hits (_stats s') = hits (_stats s)
  /\ misses (_stats s') = misses (_stats s)
  /\ expirations (_stats s') = expirations (_stats s).
Proof.
  unfold _evict_lru. erewrite bind_run by reflexivity.
  destruct (_cache s) as [|kv r] eqn:Hc.
  - simpl. rewrite Hc. repeat split; auto. constructor.
  - destruct (py_min _ _) as [victim|]; simpl.
    + rewrite Hc. repeat split; auto. apply delitem_subseq.
    + rewrite Hc. repeat split; auto. apply subseq_refl.
Qed.

Lemma made_room_config k s : config (made_room clock k s) = config s.
Proof.
  unfold made_room.
  destruct (negb _ && _); [|reflexivity].
  destruct (_ >=? _).
  - destruct (evict_frame (cleaned clock s)) as (Hc & _).
    rewrite Hc. apply cleaned_frame.
  - apply cleaned_frame.
Qed.

Lemma made_room_eq k s :
  unique_keys (_cache s) ->
  when (negb (OrderedDict.contains (_cache s) k)
        && (OrderedDict.len (_cache s) >=? max_size (config s)))
    (_cleanup_expired clock ;;;
     c' <- gets _cache ;;
     when (OrderedDict.len c' >=? max_size (config s)) _evict_lru) s
  = (tt, made_room clock k s).
Proof.
  intros Hnd. rewrite when_eq. unfold made_room.
  destruct (negb _ && _); [|reflexivity].
  erewrite bind_run by (apply cleanup_eq; assumption).
  erewrite bind_run by reflexivity.
  rewrite when_eq. reflexivity.
Qed.

Lemma set_eq k (v : Value) (ttl : option Z) s :
  unique_keys (_cache s) -> k <> EmptyString ->
  set clock (KStr k) v ttl s
  = (Return true,
     persisted clock
       (stored clock k v ttl (made_room clock k (precleaned clock s)))).
Proof.
  intros Hnd Hk. unfold set.
  apply String.eqb_neq in Hk. rewrite Hk.
  erewrite bind_run by reflexivity.
  erewrite bind_run by (apply auto_cleanup_eq; assumption).
  erewrite bind_run by reflexivity.
  rewrite <- (precleaned_config s).
  erewrite bind_run by (apply made_room_eq; apply precleaned_unique; assumption).
  set (s2 := made_room clock k (precleaned clock s)).
  assert (Hcfg : config (precleaned clock s) = config s2)
    by (symmetry; apply made_room_config).
  rewrite Hcfg.
  erewrite bind_run by reflexivity.
  erewrite bind_run by reflexivity.
  erewrite bind_run by (apply when_eq).
  erewrite bind_run by reflexivity.
  erewrite bind_run by (apply when_eq).
  unfold ret, persisted, stored. simpl.
  destruct (OrderedDict.contains (_cache s2) k); simpl;
    destruct (enable_persistence (config s2)); reflexivity.
Qed.
End SetMethod.

(** ** Construction and argument checks *)

Section Checks.
Context {Value : Type} {codec : JSON Value}.
Variable clock : nat -> Z.
Implicit Types (s : State Value) (w : World Value).

(** C8 (invalid construction).  For every integer [m <= 0], building the
    configuration with [max_size = m] raises [ValueError], so the
    expression [Cache(CacheConfig(max_size=m, ...))] raises as well and
    yields no cache instance, whatever the other options and the state of
    the disk. *)
Theorem invalid_construction (m : Z) (ttl : option Z) (file : option string)
    (persist cleanup : bool) w :
  m <= 0 ->
  CacheConfig_init m ttl file persist cleanup = Raise ValueError
  /\ new_cache clock m ttl file persist cleanup w = Raise ValueError
  /\ (forall s, new_cache clock m ttl file persist cleanup w <> Return s).
Proof.
  intros Hm.
  assert (Hcfg : CacheConfig_init m ttl file persist cleanup = Raise ValueError).
  { unfold CacheConfig_init. apply Z.leb_le in Hm. now rewrite Hm. }
  unfold new_cache. rewrite Hcfg. repeat split; congruence.
Qed.

(** A positive [max_size] is accepted and recorded as given. *)
Lemma valid_construction (m : Z) (ttl : option Z) (file : option string)
    (persist cleanup : bool) :
  0 < m ->
  exists cfg,
    CacheConfig_init m ttl file persist cleanup = Return cfg
    /\ max_size cfg = m.
Proof.
  intros Hm. unfold CacheConfig_init.
  destruct (Z.leb_spec m 0); [lia|]. eexists. split; reflexivity.
Qed.

(** C9 (empty-key atomicity).  [set] called with the empty string, or
    with a key that is not a string, raises [ValueError] and returns the
    very state it was called in: dictionary, recency order, counters,
    files and clock position are all untouched. *)
Theorem set_invalid_key_atomic (arg : KeyArg) (v : Value) (ttl : option Z) s :
  arg = KStr EmptyString \/ arg = KNotStr ->
  set clock arg v ttl s = (Raise ValueError, s).
Proof. intros [-> | ->]; reflexivity. Qed.
End Checks.

Lemma invalid_construction_witness :
  CacheConfig_init (-1) None None true true = Raise ValueError
  /\ new_cache Demo.clock (-1) None None true true Demo.world0 = Raise ValueError
  /\ (forall s, new_cache Demo.clock (-1) None None true true Demo.world0
                <> Return s).
Proof. apply (invalid_construction Demo.clock (-1)). lia. Defined.

Lemma set_invalid_key_atomic_witness :
  set Demo.clock (KStr EmptyString) "value" None Demo.abc = (Raise ValueError, Demo.abc).
Proof. apply set_invalid_key_atomic. left. reflexivity. Defined.

(** ** Reads: [get], [has] and [delete] *)

Section Reads.
Context {Value : Type} {codec : JSON Value}.
Variable clock : nat -> Z.
Implicit Types (s : State Value) (k : string).

(** C3 (contract of [get]).  Let [t] be the index of the next clock
    reading when [get(k, default)] is called.
    - [k] absent: [default] is returned and only [misses] changes, by one.
    - [k] present with an entry that is expired at reading [t]: [default]
      is returned; the state is the one, [s1], in which the entry is
      deleted and [expirations] and [misses] are each one higher, followed
      by a save when persistence is enabled; with unique keys [k] is no
      longer in the dictionary.
    - [k] present and not expired: the stored value is returned, [hits]
      is one higher, the entry sits at the most-recently-used end with
      [last_accessed] equal to the last reading the call took and its
      key, value, [created_at] and [expires_at] as they were, and
      nothing else changes. *)
Theorem get_contract k (default : Value) s :
  let t := ticks (world s) in
  let r := get clock k default s in
  let st := _stats s in
  match OrderedDict.get (_cache s) k with
  | None =>
      r = (default,
           set_stats (mkStats (hits st) (misses st + 1) (evictions st)
                        (expirations st)) s)
  | Some e =>
      if expired_at (clock t) e then
        fst r = default
        /\ exists s1,
             config s1 = config s
             /\ _cache s1 = OrderedDict.delitem (_cache s) k
             /\ _stats s1 = mkStats (hits st) (misses st + 1) (evictions st)
                              (expirations st + 1)
             /\ world s1 = tick (world s)
             /\ (unique_keys (_cache s) -> OrderedDict.get (_cache s1) k = None)
             /\ snd r = (if enable_persistence (config s)
                         then snd (_save_to_storage clock s1) else s1)
      else
        fst r = value e
        /\ exists i,
             (t <= i <= S t)%nat
             /\ ticks (world (snd r)) = S i
             /\ _cache (snd r)
                = OrderedDict.delitem (_cache s) k
                    ++ [(k, mkEntry (key e) (value e) (created_at e)
                              (expires_at e) (clock i))]
             /\ _stats (snd r) = mkStats (hits st + 1) (misses st)
                                   (evictions st) (expirations st)
             /\ config (snd r) = config s
             /\ files (world (snd r)) = files (world s)
             /\ writable (world (snd r)) = writable (world s)
  end.
Proof.
  simpl. rewrite get_eq.
  destruct (OrderedDict.get (_cache s) k) as [e|] eqn:Hget; [|reflexivity].
  destruct (expired_at _ e) eqn:Hexp.
  - split; [reflexivity|].
    exists (dropped k e (incr_misses (incr_expirations (_stats s))) s).
    unfold expired_at in Hexp. unfold dropped, tick_after, persisted. simpl.
    destruct (expires_at e); [|discriminate].
    repeat split. intros Hnd. now apply delitem_get_same.
  - split; [reflexivity|].
    exists (tick_after (ticks (world s)) e).
    unfold touched, tick_after, with_last_accessed. simpl.
    destruct (expires_at e); repeat split; lia.
Qed.

(** C7 (frame of [has]).  [has(k)] never changes [hits], [misses] or
    [evictions], leaves every entry stored under another key as it is
    (hence its [last_accessed]), and keeps the remaining entries in
    their order.  For a missing key the state is returned unchanged.
    For a live entry the dictionary, the counters, the configuration and
    the files are unchanged (one clock reading is consumed when the
    entry has an expiry time).  For an expired entry the only change is
    its deletion, one more expiration, and the save when persistence is
    enabled. *)
Theorem has_frame k s :
  let r := has clock k s in
  let st := _stats s in
  (hits (_stats (snd r)) = hits st
   /\ misses (_stats (snd r)) = misses st
   /\ evictions (_stats (snd r)) = evictions st
   /\ subseq (_cache (snd r)) (_cache s)
   /\ forall k', k' <> k ->
        OrderedDict.get (_cache (snd r)) k' = OrderedDict.get (_cache s) k')
  /\ match OrderedDict.get (_cache s) k with
     | None => r = (false, s)
     | Some e =>
         if expired_at (clock (ticks (world s))) e then
           fst r = false
           /\ exists s1,
                config s1 = config s
                /\ _cache s1 = OrderedDict.delitem (_cache s) k
                /\ _stats s1 = mkStats (hits st) (misses st) (evictions st)
                                 (expirations st + 1)
                /\ world s1 = tick (world s)
                /\ snd r = (if enable_persistence (config s)
                            then snd (_save_to_storage clock s1) else s1)
         else
           fst r = true
           /\ _cache (snd r) = _cache s
           /\ _stats (snd r) = st
           /\ config (snd r) = config s
           /\ files (world (snd r)) = files (world s)
           /\ writable (world (snd r)) = writable (world s)
     end.
Proof.
  simpl. rewrite has_eq.
  destruct (OrderedDict.get (_cache s) k) as [e|] eqn:Hget.
  2:{ simpl. repeat split; auto. apply subseq_refl. }
  destruct (expired_at _ e) eqn:Hexp.
  - pose proof (persisted_frame clock
                  (dropped k e (incr_expirations (_stats s)) s)) as Hp.
    simpl in Hp. destruct Hp as (P1 & P2 & P3 & P4 & P5).
    split.
    + simpl. rewrite P2, P3. simpl. repeat split; auto.
      * apply delitem_subseq.
      * intros k' Hne. now apply delitem_get_other.
    + split; [reflexivity|].
      exists (dropped k e (incr_expirations (_stats s)) s).
      unfold expired_at in Hexp. unfold dropped, tick_after, persisted. simpl.
      destruct (expires_at e); [|discriminate]. repeat split.
  - simpl. repeat split; auto. apply subseq_refl.
Qed.
End Reads.

Lemma subseq_missing_shorter {A : Type} (l1 l2 : list A) (x : A) :
  subseq l1 l2 -> In x l2 -> ~ In x l1 -> (length l1 < length l2)%nat.
Proof.
  intros Hs Hin Hnin.
  pose proof (subseq_length _ _ Hs) as Hle.
  destruct (Nat.eq_dec (length l1) (length l2)) as [Heq|Hne]; [|lia].
  apply (subseq_same_length _ _ Hs) in Heq. subst. contradiction.
Qed.

Section Deletes.
Context {Value : Type} {codec : JSON Value}.
Variable clock : nat -> Z.
Implicit Types (s : State Value) (k : string).

(** C10 (delete ignores expiry), as amended.  Let [k] be stored with an
    entry that is expired at the reading the call would take.
    - [delete(k)] returns [True], deletes the entry, saves when
      persistence is enabled and leaves all four counters as they are.
    - The paths that remove an entry because it is expired count the
      removal: [get(k)] and [has(k)] raise [expirations] by one, and a
      cleanup pass raises it by the number of entries it removes, [k]
      among them when the clock is monotone.
    - [clear()], like [delete], removes the entry without counting it. *)
Theorem delete_ignores_expiry k (e : CacheEntry Value) (default : Value) s :
  OrderedDict.get (_cache s) k = Some e ->
  expired_at (clock (ticks (world s))) e = true ->
  let removed := set_cache (OrderedDict.delitem (_cache s) k) s in
  (fst (delete clock k s) = true
   /\ snd (delete clock k s)
      = (if enable_persistence (config s)
         then snd (_save_to_storage clock removed) else removed)
   /\ _cache (snd (delete clock k s)) = OrderedDict.delitem (_cache s) k
   /\ _stats (snd (delete clock k s)) = _stats s
   /\ (unique_keys (_cache s) ->
       OrderedDict.get (_cache (snd (delete clock k s))) k = None))
  /\ expirations (_stats (snd (get clock k default s)))
     = expirations (_stats s) + 1
  /\ expirations (_stats (snd (has clock k s))) = expirations (_stats s) + 1
  /\ (unique_keys (_cache s) ->
      let s' := snd (_cleanup_expired clock s) in
      expirations (_stats s')
      = expirations (_stats s)
        + (OrderedDict.len (_cache s) - OrderedDict.len (_cache s'))
      /\ (monotone clock ->
          OrderedDict.get (_cache s') k = None
          /\ expirations (_stats s) + 1 <= expirations (_stats s')))
  /\ (_cache (snd (clear clock s)) = []
      /\ _stats (snd (clear clock s)) = _stats s).
Proof.
  intros Hget Hexp removed.
  assert (Hin : OrderedDict.contains (_cache s) k = true).
  { unfold OrderedDict.contains. now rewrite Hget. }
  split; [|split; [|split; [|split]]].
  - rewrite delete_eq, Hin. simpl. unfold removed.
    pose proof (persisted_frame clock
                  (set_cache (OrderedDict.delitem (_cache s) k) s)) as Hp.
    simpl in Hp.
    destruct Hp as (P1 & P2 & P3 & _).
    split; [reflexivity|]. split; [reflexivity|].
    rewrite P2, P3. repeat split.
    intros Hnd. now apply delitem_get_same.
  - rewrite get_eq, Hget, Hexp. simpl.
    pose proof (persisted_frame clock
      (dropped k e (incr_misses (incr_expirations (_stats s))) s)) as Hp.
    simpl in Hp. destruct Hp as (_ & _ & P3 & _). now rewrite P3.
  - rewrite has_eq, Hget, Hexp. simpl.
    pose proof (persisted_frame clock
      (dropped k e (incr_expirations (_stats s)) s)) as Hp.
    simpl in Hp. destruct Hp as (_ & _ & P3 & _). now rewrite P3.
  - intros Hnd. simpl. rewrite cleanup_eq by assumption. simpl.
    destruct (cleaned_frame clock s) as (_ & Hc & _ & _ & _ & Hcount & _).
    split; [lia|].
    intros Hmono.
    assert (Hgone : OrderedDict.get (_cache (cleaned clock s)) k = None).
    { rewrite Hc.
      destruct (OrderedDict.get (survivors _ _ _) k) as [e'|] eqn:Hs;
        [|reflexivity].
      apply get_Some_In in Hs.
      assert (Hsame : OrderedDict.get (_cache s) k = Some e').
      { apply In_get_Some; [assumption|].
        eapply subseq_In; [apply survivors_subseq | eassumption]. }
      rewrite Hget in Hsame. injection Hsame as <-.
      apply survivors_not_expired in Hs; [congruence | assumption]. }
    split; [assumption|].
    assert (Hlt : (length (_cache (cleaned clock s)) < length (_cache s))%nat).
    { apply (subseq_missing_shorter _ _ (k, e)).
      - rewrite Hc. apply survivors_subseq.
      - now apply get_Some_In.
      - intros Hin'. apply (In_get_Some _ _ _ (cleaned_unique clock s Hnd)) in Hin'.
        congruence. }
    unfold OrderedDict.len in *. lia.
  - rewrite clear_eq. simpl.
    pose proof (persisted_frame clock (set_cache [] s)) as Hp.
    simpl in Hp. destruct Hp as (_ & P2 & P3 & _). now rewrite P2, P3.
Qed.
End Deletes.

Lemma delete_ignores_expiry_witness :
  fst (delete Demo.fast "temp" Demo.stale) = true
  /\ _stats (snd (delete Demo.fast "temp" Demo.stale)) = _stats Demo.stale
  /\ expirations (_stats (snd (get Demo.fast "temp" "none" Demo.stale)))
     = expirations (_stats Demo.stale) + 1.
Proof.
  destruct (delete_ignores_expiry Demo.fast "temp"
              (mkEntry "temp" "soon" 0 (Some 2) 0) "none" Demo.stale)
    as ((Hret & _ & _ & Hstats & _) & Hget & _).
  - reflexivity.
  - reflexivity.
  - repeat split; assumption.
Defined.

(** Counterexample to C10 as stated: [clear()] is another path that
    removes an expired entry, and it counts no expiration either.  The
    cache holds ["temp"], expired since time 2, when [clear()] is called
    at time 10; [delete('temp')] in its place would not count it either,
    while [get('temp')] would. *)
Lemma clear_drops_expired_uncounted :
  OrderedDict.get (_cache Demo.forgotten) "temp"
  = Some (mkEntry "temp" "soon" 0 (Some 2) 0)
  /\ expired_at (Demo.fast (ticks (world Demo.forgotten)))
       (mkEntry "temp" "soon" 0 (Some 2) 0) = true
  /\ _cache (snd (clear Demo.fast Demo.forgotten)) = []
  /\ expirations (_stats (snd (clear Demo.fast Demo.forgotten)))
     = expirations (_stats Demo.forgotten)
  /\ expirations (_stats (snd (get Demo.fast "temp" "none" Demo.forgotten)))
     = expirations (_stats Demo.forgotten) + 1.
Proof. repeat split. Qed.

(** ** Invariants of the public methods *)

Lemma StronglySorted_snoc {A : Type} (R : A -> A -> Prop) (l : list A) (y : A) :
  StronglySorted R l -> Forall (fun x => R x y) l -> StronglySorted R (l ++ [y]).
Proof.
  induction 1 as [|x l Hs IH Hx]; intros Hall; simpl.
  - constructor; constructor.
  - inversion Hall; subst. constructor; [now apply IH|].
    apply Forall_app. split; [assumption|]. constructor; [assumption|constructor].
Qed.

Section Invariants.
Context {Value : Type} {codec : JSON Value}.
Variable clock : nat -> Z.

Local Abbreviation Entry := (CacheEntry Value).
Local Abbreviation Store := (OrderedDict.t (V := CacheEntry Value)).
Implicit Types (s : State Value) (c : Store) (e : Entry) (k : string).

(** *** Steps that only remove entries *)

Lemma shrinks_refl s : shrinks s s.
Proof. repeat split; [apply subseq_refl | lia]. Qed.

Lemma shrinks_trans s1 s2 s3 : shrinks s1 s2 -> shrinks s2 s3 -> shrinks s1 s3.
Proof.
  intros (C1 & S1 & T1) (C2 & S2 & T2). repeat split.
  - congruence.
  - eapply subseq_trans; eassumption.
  - lia.
Qed.

Lemma shrinks_persisted s : shrinks s (persisted clock s).
Proof.
  destruct (persisted_frame clock s) as (Hc & Hd & _ & _ & Ht).
  repeat split; [assumption | rewrite Hd; apply subseq_refl | lia].
Qed.

Lemma shrinks_cleaned s : shrinks s (cleaned clock s).
Proof.
  destruct (cleaned_frame clock s) as (Hc & Hd & _ & _ & _ & _ & _ & Ht).
  pose proof (scan_end_ge (ticks (world s)) (_cache s)).
  repeat split; [assumption | rewrite Hd; apply survivors_subseq | lia].
Qed.

Lemma shrinks_precleaned s : shrinks s (precleaned clock s).
Proof.
  unfold precleaned. destruct (auto_cleanup (config s)).
  - apply shrinks_cleaned.
  - apply shrinks_refl.
Qed.

Lemma shrinks_evicted s : shrinks s (snd (_evict_lru s)).
Proof.
  destruct (evict_frame s) as (Hc & Hw & Hs & _).
  repeat split; [assumption | assumption | rewrite Hw; lia].
Qed.

Lemma shrinks_made_room k s : shrinks s (made_room clock k s).
Proof.
  unfold made_room. destruct (negb _ && _); [|apply shrinks_refl].
  destruct (_ >=? _).
  - eapply shrinks_trans; [apply shrinks_cleaned | apply shrinks_evicted].
  - apply shrinks_cleaned.
Qed.

Lemma shrinks_unique s s' :
  shrinks s s' -> unique_keys (_cache s) -> unique_keys (_cache s').
Proof.
  intros (_ & Hs & _). unfold unique_keys.
  apply subseq_NoDup. now apply subseq_map.
Qed.

Lemma shrinks_capacity s s' :
  shrinks s s' -> within_capacity s -> within_capacity s'.
Proof.
  intros (Hc & Hs & _). unfold within_capacity, OrderedDict.len.
  rewrite Hc. apply subseq_length in Hs. lia.
Qed.

Lemma accessed_before_mono (now now' : Z) c :
  now <= now' -> accessed_before now c -> accessed_before now' c.
Proof.
  intros Hle. unfold accessed_before. apply Forall_impl. intros kv H. lia.
Qed.

Lemma shrinks_recency s s' :
  monotone clock -> shrinks s s' -> recency_inv clock s -> recency_inv clock s'.
Proof.
  intros Hmono Hsh (Hu & Hso & Hacc).
  pose proof Hsh as (_ & Hs & Ht).
  repeat split.
  - eapply shrinks_unique; eassumption.
  - eapply subseq_StronglySorted; eassumption.
  - apply (accessed_before_mono (clock (ticks (world s)))); [now apply Hmono|].
    eapply subseq_Forall; eassumption.
Qed.

(** *** Steps that put an entry at the most-recently-used end *)

Lemma snoc_recency c k e (t : nat) :
  monotone clock ->
  unique_keys c -> access_sorted c -> accessed_before (clock t) c ->
  OrderedDict.get c k = None -> last_accessed e = clock t ->
  unique_keys (c ++ [(k, e)])
  /\ access_sorted (c ++ [(k, e)])
  /\ accessed_before (clock (S t)) (c ++ [(k, e)]).
Proof.
  intros Hmono Hu Hs Hacc Hget Hla.
  assert (Hstep : clock t <= clock (S t)) by (apply Hmono; lia).
  repeat split.
  - now apply NoDup_keys_snoc.
  - apply StronglySorted_snoc; [assumption|].
    unfold le_access. simpl. rewrite Hla. exact Hacc.
  - unfold accessed_before. apply Forall_app. split.
    + now apply (accessed_before_mono (clock t)).
    + constructor; [simpl; lia | constructor].
Qed.

(** The dictionary that [set] writes into: the old entry of [k] is gone. *)
Lemma stored_cache k (v : Value) ttl s :
  unique_keys (_cache s) ->
  exists rest,
    _cache (stored clock k v ttl s)
    = rest ++ [(k, fresh_entry k v (effective_ttl (config s) ttl)
                     (clock (ticks (world s))))]
    /\ rest = (if OrderedDict.contains (_cache s) k
               then OrderedDict.delitem (_cache s) k else _cache s)
    /\ subseq rest (_cache s)
    /\ OrderedDict.get rest k = None.
Proof.
  intros Hu. unfold stored. simpl.
  destruct (OrderedDict.contains (_cache s) k) eqn:Hc.
  - exists (OrderedDict.delitem (_cache s) k).
    assert (Hnone : OrderedDict.get (OrderedDict.delitem (_cache s) k) k = None)
      by now apply delitem_get_same.
    rewrite setitem_absent by assumption.
    repeat split; [apply delitem_subseq | assumption].
  - exists (_cache s). apply contains_false in Hc.
    rewrite setitem_absent by assumption.
    repeat split; [apply subseq_refl | assumption].
Qed.

Lemma stored_recency k (v : Value) ttl s :
  monotone clock -> recency_inv clock s -> recency_inv clock (stored clock k v ttl s).
Proof.
  intros Hmono (Hu & Hs & Hacc).
  destruct (stored_cache k v ttl s Hu) as (rest & Heq & _ & Hsub & Hnone).
  unfold recency_inv. rewrite Heq.
  replace (ticks (world (stored clock k v ttl s))) with (S (ticks (world s)))
    by reflexivity.
  apply snoc_recency; auto.
  - unfold unique_keys in *. eapply subseq_NoDup; [|eassumption].
    now apply subseq_map.
  - eapply subseq_StronglySorted; eassumption.
  - eapply subseq_Forall; eassumption.
Qed.

Lemma touched_recency k e s :
  monotone clock -> OrderedDict.get (_cache s) k = Some e ->
  recency_inv clock s -> recency_inv clock (touched clock k e s).
Proof.
  intros Hmono Hget (Hu & Hs & Hacc).
  pose proof (delitem_subseq (_cache s) k) as Hsub.
  assert (Ht : (ticks (world s) <= tick_after (ticks (world s)) e)%nat)
    by (unfold tick_after; destruct (expires_at e); lia).
  unfold recency_inv, touched. simpl.
  apply snoc_recency; auto.
  - now apply delitem_NoDup.
  - eapply subseq_StronglySorted; eassumption.
  - apply (accessed_before_mono (clock (ticks (world s)))); [now apply Hmono|].
    eapply subseq_Forall; eassumption.
  - now apply delitem_get_same.
Qed.

(** *** Every public method keeps the recency invariant *)

Lemma set_recency (arg : KeyArg) (v : Value) ttl s :
  monotone clock -> recency_inv clock s ->
  recency_inv clock (snd (set clock arg v ttl s)).
Proof.
  intros Hmono Hinv.
  destruct arg as [k|]; [|exact Hinv].
  destruct (String.eqb_spec k EmptyString) as [->|Hk]; [exact Hinv|].
  rewrite set_eq by (assumption || apply Hinv). simpl.
  eapply shrinks_recency; [assumption | apply shrinks_persisted |].
  apply stored_recency; [assumption|].
  eapply shrinks_recency; [assumption | apply shrinks_made_room |].
  eapply shrinks_recency; [assumption | apply shrinks_precleaned | assumption].
Qed.

Lemma shrinks_dropped k e st s :
  shrinks s (dropped k e st s).
Proof.
  repeat split; simpl.
  - apply delitem_subseq.
  - unfold tick_after. destruct (expires_at e); lia.
Qed.

Lemma get_recency k (default : Value) s :
  monotone clock -> recency_inv clock s ->
  recency_inv clock (snd (get clock k default s)).
Proof.
  intros Hmono Hinv. rewrite get_eq.
  destruct (OrderedDict.get (_cache s) k) as [e|] eqn:Hget; [|exact Hinv].
  destruct (expired_at _ e); simpl.
  - eapply shrinks_recency; [assumption | apply shrinks_persisted |].
    eapply shrinks_recency; [assumption | apply shrinks_dropped | assumption].
  - now apply touched_recency.
Qed.

Lemma has_recency k s :
  monotone clock -> recency_inv clock s ->
  recency_inv clock (snd (has clock k s)).
Proof.
  intros Hmono Hinv. rewrite has_eq.
  destruct (OrderedDict.get (_cache s) k) as [e|] eqn:Hget; [|exact Hinv].
  destruct (expired_at _ e); simpl.
  - eapply shrinks_recency; [assumption | apply shrinks_persisted |].
    eapply shrinks_recency; [assumption | apply shrinks_dropped | assumption].
  - eapply shrinks_recency; [assumption | | eassumption].
    repeat split; simpl; [apply subseq_refl|].
    unfold tick_after. destruct (expires_at e); lia.
Qed.

Lemma shrinks_set_cache c s :
  subseq c (_cache s) -> shrinks s (set_cache c s).
Proof. intros H. repeat split; [assumption | simpl; lia]. Qed.

Lemma delete_recency k s :
  monotone clock -> recency_inv clock s ->
  recency_inv clock (snd (delete clock k s)).
Proof.
  intros Hmono Hinv. rewrite delete_eq.
  destruct (OrderedDict.contains (_cache s) k); [|exact Hinv]. simpl.
  eapply shrinks_recency; [assumption | apply shrinks_persisted |].
  eapply shrinks_recency; [assumption | | eassumption].
  apply shrinks_set_cache. apply delitem_subseq.
Qed.

Lemma clear_recency s :
  monotone clock -> recency_inv clock s ->
  recency_inv clock (snd (clear clock s)).
Proof.
  intros Hmono Hinv. rewrite clear_eq. simpl.
  eapply shrinks_recency; [assumption | apply shrinks_persisted |].
  eapply shrinks_recency; [assumption | | eassumption].
  apply shrinks_set_cache. apply subseq_nil_l.
Qed.

Lemma run_op_recency (op : Op) s :
  monotone clock -> recency_inv clock s -> recency_inv clock (run_op clock op s).
Proof.
  intros Hmono Hinv.
  assert (Hu : unique_keys (_cache s)) by apply Hinv.
  destruct op; simpl.
  - now apply set_recency.
  - now apply get_recency.
  - now apply has_recency.
  - now apply delete_recency.
  - now apply clear_recency.
  - rewrite size_eq by assumption. simpl.
    eapply shrinks_recency; [assumption | apply shrinks_precleaned | assumption].
  - rewrite keys_eq by assumption. simpl.
    eapply shrinks_recency; [assumption | apply shrinks_precleaned | assumption].
  - rewrite get_stats_state by assumption.
    eapply shrinks_recency; [assumption | apply shrinks_precleaned | assumption].
Qed.

Lemma run_ops_recency (ops : list Op) s :
  monotone clock -> recency_inv clock s -> recency_inv clock (run_ops clock ops s).
Proof.
  intros Hmono. revert s. unfold run_ops.
  induction ops as [|op r IH]; intros s Hinv; simpl; [assumption|].
  apply IH. now apply run_op_recency.
Qed.

Lemma empty_recency s : _cache s = [] -> recency_inv clock s.
Proof.
  intros H. unfold recency_inv, unique_keys, access_sorted, accessed_before.
  rewrite H. simpl. repeat split; constructor.
Qed.
End Invariants.

(** ** Which entry the eviction removes *)

Section Eviction.
Context {Value : Type} {codec : JSON Value}.
Variable clock : nat -> Z.

Local Abbreviation Entry := (CacheEntry Value).
Local Abbreviation Store := (OrderedDict.t (V := CacheEntry Value)).
Implicit Types (s : State Value) (c : Store) (e : Entry) (k : string).

Lemma last_accessed_of_In c k e :
  unique_keys c -> In (k, e) c -> last_accessed_of c k = last_accessed e.
Proof.
  intros Hu Hin. unfold last_accessed_of.
  now rewrite (In_get_Some c k e Hu Hin).
Qed.

Lemma delitem_middle (pre post : Store) k e :
  ~ In k (OrderedDict.keys pre) ->
  OrderedDict.delitem (pre ++ (k, e) :: post) k = pre ++ post.
Proof.
  induction pre as [|[k' e'] r IH]; simpl; intros Hnin.
  - now rewrite String.eqb_refl.
  - destruct (String.eqb_spec k' k) as [->|Hne].
    + exfalso. apply Hnin. now left.
    + f_equal. apply IH. intros Hin. apply Hnin. now right.
Qed.

(** The timestamp scan removes one entry: the first, in recency order,
    among those with the smallest [last_accessed]. *)
Lemma evict_first_oldest s :
  unique_keys (_cache s) -> _cache s <> [] ->
  exists pre victim post,
    _cache s = pre ++ victim :: post
    /\ (forall x, In x pre -> last_accessed (snd victim) < last_accessed (snd x))
    /\ (forall x, In x post -> last_accessed (snd victim) <= last_accessed (snd x))
    /\ snd (_evict_lru s)
       = mkState (config s) (pre ++ post) (incr_evictions (_stats s)) (world s).
Proof.
  intros Hu Hne. unfold _evict_lru. erewrite bind_run by reflexivity.
  destruct (_cache s) as [|[k0 e0] r] eqn:Hc; [congruence|].
  remember ((k0, e0) :: r) as c eqn:Ec.
  assert (Hk : OrderedDict.keys c = k0 :: OrderedDict.keys r)
    by (subst c; reflexivity).
  set (f := last_accessed_of c).
  destruct (py_min_from_first f (OrderedDict.keys r) k0)
    as (pk & qk & Hsplit & Hpre & Hpost).
  assert (Hmin : py_min f (OrderedDict.keys c)
                 = Some (py_min_from f k0 (OrderedDict.keys r)))
    by (rewrite Hk; reflexivity).
  set (m := py_min_from f k0 (OrderedDict.keys r)) in *.
  assert (Hkeys : OrderedDict.keys c = pk ++ m :: qk)
    by (rewrite Hk; exact Hsplit).
  unfold OrderedDict.keys in Hkeys.
  apply map_eq_app in Hkeys. destruct Hkeys as (pre & rest & Hcs & Hpk & Hrest).
  apply map_eq_cons in Hrest.
  destruct Hrest as ([m' e] & post & Hrest & Hm & Hqk).
  simpl in Hm. subst m' rest.
  assert (Hnin : ~ In m (OrderedDict.keys pre)).
  { unfold unique_keys, OrderedDict.keys in Hu. rewrite Hcs, map_app in Hu.
    simpl in Hu. apply NoDup_remove_2 in Hu.
    intros Hin. apply Hu. apply in_app_iff. now left. }
  assert (Hfm : f m = last_accessed e).
  { apply last_accessed_of_In; [assumption|].
    rewrite Hcs. apply in_app_iff. right. now left. }
  exists pre, (m, e), post. simpl.
  split; [exact Hcs|]. split; [|split].
  - intros [kx ex] Hin. simpl. rewrite <- Hfm.
    rewrite <- (last_accessed_of_In c kx ex Hu).
    + apply Hpre. rewrite <- Hpk. change kx with (fst (kx, ex)). now apply in_map.
    + rewrite Hcs. apply in_app_iff. now left.
  - intros [kx ex] Hin. simpl. rewrite <- Hfm.
    rewrite <- (last_accessed_of_In c kx ex Hu).
    + apply Hpost. rewrite <- Hqk. change kx with (fst (kx, ex)). now apply in_map.
    + rewrite Hcs. apply in_app_iff. right. now right.
  - rewrite Hmin.
    unfold del_key, count, bind, modify. simpl.
    rewrite Hc, Hcs. rewrite delitem_middle by assumption. reflexivity.
Qed.

(** On a dictionary ordered by access time the victim is the head. *)
Lemma sorted_prefix_empty (pre post : Store) (victim : string * Entry) :
  access_sorted (pre ++ victim :: post) ->
  (forall x, In x pre -> last_accessed (snd victim) < last_accessed (snd x)) ->
  pre = [].
Proof.
  intros Hs Hpre. destruct pre as [|x pre']; [reflexivity|].
  exfalso. simpl in Hs. inversion Hs as [|? ? _ Hall]; subst.
  rewrite Forall_forall in Hall.
  assert (Hle : le_access x victim).
  { apply Hall. apply in_app_iff. right. now left. }
  unfold le_access in Hle.
  specialize (Hpre x (or_introl eq_refl)). lia.
Qed.

(** C4 (tie-break consistency, eviction refinement).  Start from any
    state whose dictionary is empty and run any sequence of public
    operations under a clock whose readings never decrease.  In the
    state reached the recency order is the order of the access
    timestamps; when the dictionary is [(k0, e0) :: rest], no entry of
    [rest] has a smaller [last_accessed] than [e0], the [min] of
    [_evict_lru] in [v3.py] selects [k0], and the dictionary left by
    that eviction is the one left by the positional
    [popitem(last=False)] of [v2.py]. *)
Theorem lru_head_is_oldest (s0 : State Value) (ops : list Op) :
  monotone clock -> _cache s0 = [] ->
  let s := run_ops clock ops s0 in
  access_sorted (_cache s)
  /\ (forall k0 e0 rest,
        _cache s = (k0, e0) :: rest ->
        (forall k e, In (k, e) rest -> last_accessed e0 <= last_accessed e)
        /\ py_min (last_accessed_of (_cache s)) (OrderedDict.keys (_cache s))
           = Some k0)
  /\ _cache (snd (_evict_lru s)) = V2._evict_lru (_cache s).
Proof.
  intros Hmono Hempty s.
  assert (Hinv : recency_inv clock s).
  { apply run_ops_recency; [assumption|]. now apply empty_recency. }
  destruct Hinv as (Hu & Hs & _).
  assert (Hhead : forall k0 e0 rest,
    _cache s = (k0, e0) :: rest ->
    (forall k e, In (k, e) rest -> last_accessed e0 <= last_accessed e)
    /\ py_min (last_accessed_of (_cache s)) (OrderedDict.keys (_cache s))
       = Some k0).
  { intros k0 e0 rest Hc.
    assert (Hle : forall k e, In (k, e) rest -> last_accessed e0 <= last_accessed e).
    { intros k e Hin. unfold access_sorted in Hs. rewrite Hc in Hs.
      inversion Hs as [|? ? _ Hall]; subst. rewrite Forall_forall in Hall.
      apply (Hall (k, e) Hin). }
    split; [exact Hle|].
    rewrite Hc at 2. simpl. f_equal. apply py_min_from_head.
    intros y Hy. unfold OrderedDict.keys in Hy. apply in_map_iff in Hy.
    destruct Hy as ([ky ey] & Hfst & Hin). simpl in Hfst. subst ky.
    rewrite (last_accessed_of_In (_cache s) k0 e0 Hu)
      by (rewrite Hc; now left).
    rewrite (last_accessed_of_In (_cache s) y ey Hu)
      by (rewrite Hc; now right).
    now apply (Hle y). }
  split; [exact Hs|]. split; [exact Hhead|].
  destruct (_cache s) as [|[k0 e0] rest] eqn:Hc.
  - unfold _evict_lru. erewrite bind_run by reflexivity. rewrite Hc.
    simpl. exact Hc.
  - destruct (Hhead k0 e0 rest eq_refl) as (_ & Hmin).
    unfold _evict_lru. erewrite bind_run by reflexivity. rewrite Hc.
    rewrite Hmin. unfold del_key, count, bind, modify. simpl.
    rewrite Hc. simpl. now rewrite String.eqb_refl.
Qed.
End Eviction.

Lemma lru_head_is_oldest_witness :
  let s := run_ops Demo.clock [OpGet "a" "none"] Demo.abc in
  OrderedDict.keys (_cache s) = ["b"; "c"; "a"]
  /\ py_min (last_accessed_of (_cache s)) (OrderedDict.keys (_cache s)) = Some "b"
  /\ _cache (snd (_evict_lru s)) = V2._evict_lru (_cache s).
Proof.
  pose proof (lru_head_is_oldest Demo.clock Demo.empty3
    [Demo.set_ "a" "1" None; Demo.set_ "b" "2" None; Demo.set_ "c" "3" None;
     OpGet "a" "none"]) as H.
  simpl in H.
  destruct H as (_ & Hhead & Hsame).
  - intros i j Hij. unfold Demo.clock. lia.
  - reflexivity.
  - split; [reflexivity|]. split; [|exact Hsame].
    exact (proj2 (Hhead "b" _ _ eq_refl)).
Defined.

(** ** The capacity bound *)

Section Capacity.
Context {Value : Type} {codec : JSON Value}.
Variable clock : nat -> Z.

Local Abbreviation Entry := (CacheEntry Value).
Local Abbreviation Store := (OrderedDict.t (V := CacheEntry Value)).
Implicit Types (s : State Value) (c : Store) (e : Entry) (k : string).

(** A property kept by the steps that remove entries, by the write of
    [set] and by the reordering of a hit is kept by every public method. *)
Lemma run_op_preserves (P : State Value -> Prop) :
  (forall s, P s -> unique_keys (_cache s)) ->
  (forall s s', shrinks s s' -> P s -> P s') ->
  (forall k v ttl s, k <> EmptyString -> P s ->
     P (stored clock k v ttl (made_room clock k (precleaned clock s)))) ->
  (forall k e s, OrderedDict.get (_cache s) k = Some e -> P s ->
     P (touched clock k e s)) ->
  forall (op : Op) s, P s -> P (run_op clock op s).
Proof.
  intros Huniq Hshrink Hstore Htouch op s HP.
  pose proof (Huniq s HP) as Hu.
  destruct op as [arg v ttl|k d|k|k| | | |]; simpl.
  - destruct arg as [k|]; [|exact HP].
    destruct (String.eqb_spec k EmptyString) as [->|Hk]; [exact HP|].
    rewrite set_eq by assumption. simpl.
    eapply Hshrink; [apply shrinks_persisted|]. now apply Hstore.
  - rewrite get_eq.
    destruct (OrderedDict.get (_cache s) k) as [e|] eqn:Hget.
    2:{ simpl. eapply Hshrink; [|eassumption].
        repeat split; simpl; [apply subseq_refl | lia]. }
    destruct (expired_at _ e); simpl.
    + eapply Hshrink; [apply shrinks_persisted|].
      eapply Hshrink; [apply shrinks_dropped | assumption].
    + now apply Htouch.
  - rewrite has_eq.
    destruct (OrderedDict.get (_cache s) k) as [e|] eqn:Hget; [|exact HP].
    destruct (expired_at _ e); simpl.
    + eapply Hshrink; [apply shrinks_persisted|].
      eapply Hshrink; [apply shrinks_dropped | assumption].
    + eapply Hshrink; [|eassumption].
      repeat split; simpl; [apply subseq_refl|].
      unfold tick_after. destruct (expires_at e); lia.
  - rewrite delete_eq.
    destruct (OrderedDict.contains (_cache s) k); [|exact HP]. simpl.
    eapply Hshrink; [apply shrinks_persisted|].
    eapply Hshrink; [|eassumption].
    apply shrinks_set_cache. apply delitem_subseq.
  - rewrite clear_eq. simpl.
    eapply Hshrink; [apply shrinks_persisted|].
    eapply Hshrink; [|eassumption].
    apply shrinks_set_cache. apply subseq_nil_l.
  - rewrite size_eq by assumption. simpl.
    eapply Hshrink; [apply shrinks_precleaned | assumption].
  - rewrite keys_eq by assumption. simpl.
    eapply Hshrink; [apply shrinks_precleaned | assumption].
  - rewrite get_stats_state by assumption.
    eapply Hshrink; [apply shrinks_precleaned | assumption].
Qed.

Lemma evict_length s :
  unique_keys (_cache s) -> _cache s <> [] ->
  S (length (_cache (snd (_evict_lru s)))) = length (_cache s).
Proof.
  intros Hu Hne.
  destruct (evict_first_oldest s Hu Hne) as (pre & victim & post & Hc & _ & _ & He).
  rewrite He, Hc. simpl. rewrite !length_app. simpl. lia.
Qed.

(** After the capacity check of [set] there is room for a new key. *)
Lemma made_room_fits k s :
  unique_keys (_cache s) -> 0 < max_size (config s) -> within_capacity s ->
  OrderedDict.get (_cache (made_room clock k s)) k = None ->
  OrderedDict.len (_cache (made_room clock k s)) < max_size (config s).
Proof.
  unfold within_capacity, made_room. intros Hu Hpos Hcap.
  destruct (OrderedDict.contains (_cache s) k) eqn:Hin; simpl.
  - intros Hnone. apply contains_false in Hnone. congruence.
  - destruct (Z.geb_spec (OrderedDict.len (_cache s)) (max_size (config s)))
      as [Hfull|Hroom]; [|intros _; lia].
    pose proof (shrinks_cleaned clock s) as (_ & Hsub & _).
    apply subseq_length in Hsub.
    destruct (Z.geb_spec (OrderedDict.len (_cache (cleaned clock s)))
                (max_size (config s))) as [Hstill|Hfreed]; [|intros _; lia].
    intros _. unfold OrderedDict.len in *.
    assert (Hne : _cache (cleaned clock s) <> []).
    { intros Hnil. rewrite Hnil in Hstill. simpl in Hstill. lia. }
    pose proof (evict_length (cleaned clock s) (cleaned_unique clock s Hu) Hne).
    lia.
Qed.

Lemma run_op_bounded (op : Op) s : bounded s -> bounded (run_op clock op s).
Proof.
  apply run_op_preserves; clear s.
  - intros s H. apply H.
  - intros s s' Hsh (Hu & Hpos & Hcap). pose proof Hsh as (Hc & _).
    repeat split.
    + eapply shrinks_unique; eassumption.
    + now rewrite Hc.
    + eapply shrinks_capacity; eassumption.
  - intros k v ttl s Hk (Hu & Hpos & Hcap).
    set (s1 := precleaned clock s).
    assert (B1 : bounded s1).
    { pose proof (shrinks_precleaned clock s) as Hsh. pose proof Hsh as (Hc & _).
      repeat split; [eapply shrinks_unique; eassumption | unfold s1; now rewrite Hc
                    | eapply shrinks_capacity; eassumption]. }
    destruct B1 as (Hu1 & Hpos1 & Hcap1).
    set (s2 := made_room clock k s1).
    pose proof (shrinks_made_room clock k s1) as Hsh2.
    pose proof Hsh2 as (Hc2 & _).
    assert (Hu2 : unique_keys (_cache s2)) by (eapply shrinks_unique; eassumption).
    assert (Hcap2 : within_capacity s2) by (eapply shrinks_capacity; eassumption).
    destruct (stored_cache clock k v ttl s2 Hu2) as (rest & Heq & Hrest & Hsub & Hnone).
    unfold bounded, within_capacity. rewrite Heq.
    replace (config (stored clock k v ttl s2)) with (config s2) by reflexivity.
    repeat split.
    + apply NoDup_keys_snoc; [|assumption].
      unfold unique_keys in Hu2. eapply subseq_NoDup; [|eassumption].
      now apply subseq_map.
    + fold s2 in Hc2. rewrite Hc2. assumption.
    + unfold OrderedDict.len. rewrite length_app. simpl.
      destruct (OrderedDict.contains (_cache s2) k) eqn:Hin.
      * unfold OrderedDict.contains in Hin.
        destruct (OrderedDict.get (_cache s2) k) as [e|] eqn:Hget; [|discriminate].
        pose proof (delitem_length _ _ _ Hget) as Hlen. subst rest.
        unfold within_capacity, OrderedDict.len in Hcap2. lia.
      * subst rest. apply contains_false in Hin.
        pose proof (made_room_fits k s1 Hu1 Hpos1 Hcap1 Hin) as Hfit.
        fold s2 in Hfit. fold s2 in Hc2. rewrite Hc2.
        unfold OrderedDict.len in Hfit. lia.
  - intros k e s Hget (Hu & Hpos & Hcap).
    unfold bounded, within_capacity, touched. simpl. repeat split.
    + apply NoDup_keys_snoc; [now apply delitem_NoDup | now apply delitem_get_same].
    + assumption.
    + unfold OrderedDict.len. rewrite length_app. simpl.
      pose proof (delitem_length _ _ _ Hget).
      unfold within_capacity, OrderedDict.len in Hcap. lia.
Qed.

(** Once the dictionary holds at most [max_size] entries it does so
    after every sequence of public operations. *)
Lemma capacity_kept (ops : list Op) s :
  bounded s -> bounded (run_ops clock ops s).
Proof.
  revert s. unfold run_ops.
  induction ops as [|op r IH]; intros s Hb; simpl; [assumption|].
  apply IH. now apply run_op_bounded.
Qed.

(** A cache constructed without a stored snapshot starts within capacity. *)
Lemma fresh_cache_bounded (cfg : CacheConfig) (w : World Value) :
  0 < max_size cfg -> enable_persistence cfg = false ->
  bounded (Cache_init clock (Some cfg) w).
Proof.
  intros Hpos Hp. unfold Cache_init. rewrite Hp.
  unfold bounded, within_capacity, unique_keys. simpl.
  split; [constructor|]. split; [assumption|].
  unfold OrderedDict.len. simpl. lia.
Qed.
End Capacity.

(** C1 (capacity invariant) fails on a cache that loads a snapshot: the
    constructor inserts every unexpired stored entry without looking at
    [max_size], and a later [set] evicts one entry at most.  Here a
    cache of capacity 3 has saved ["a"] and ["b"]; a cache of capacity 1
    bound to the same file holds both after construction, [size()]
    returns 2, and after [set('c', ...)] it still holds two entries. *)
Theorem load_exceeds_capacity :
  exists s : State string,
    Demo.reloaded_small = Return s
    /\ max_size (config s) = 1
    /\ OrderedDict.keys (_cache s) = ["a"; "b"]
    /\ fst (size Demo.clock s) = 2
    /\ OrderedDict.keys
         (_cache (run_ops Demo.clock [Demo.set_ "c" "3" None; OpSize] s))
       = ["b"; "c"].
Proof. eexists. repeat split. Qed.

(** ** The eviction procedure of [set] *)

Section EvictionProcedure.
Context {Value : Type} {codec : JSON Value}.
Variable clock : nat -> Z.

Local Abbreviation Entry := (CacheEntry Value).
Local Abbreviation Store := (OrderedDict.t (V := CacheEntry Value)).
Implicit Types (s : State Value) (c : Store) (e : Entry) (k : string).

Lemma expiry_pass_refl s : expiry_pass clock s s.
Proof.
  unfold expiry_pass. repeat split; auto; try lia.
  - apply subseq_refl.
Qed.

Lemma expiry_pass_trans s1 s2 s3 :
  expiry_pass clock s1 s2 -> expiry_pass clock s2 s3 -> expiry_pass clock s1 s3.
Proof.
  intros (C1 & S1 & T1 & D1 & H1 & M1 & E1 & X1)
         (C2 & S2 & T2 & D2 & H2 & M2 & E2 & X2).
  unfold expiry_pass. repeat split; try congruence; try lia.
  - eapply subseq_trans; eassumption.
  - intros k e Hin. destruct (D1 k e Hin) as [Hin2|(i & Hi & Hd)].
    + destruct (D2 k e Hin2) as [Hin3|(i & Hi & Hd)]; [now left|].
      right. exists i. split; [lia | assumption].
    + right. exists i. split; [lia | assumption].
Qed.

Lemma expiry_pass_cleaned s : expiry_pass clock s (cleaned clock s).
Proof.
  destruct (cleaned_frame clock s) as (Hc & Hd & Hh & Hm & He & Hx & _ & Ht).
  pose proof (scan_end_ge (ticks (world s)) (_cache s)) as Hge.
  unfold expiry_pass. repeat split; auto; try lia.
  - rewrite Hd. apply survivors_subseq.
  - intros k e Hin. rewrite Hd.
    destruct (purged_seen_expired clock (ticks (world s)) _ k e Hin)
      as [Hs|(i & Hi & Hdead)]; [now left|].
    right. exists i. split; [lia | assumption].
Qed.

Lemma expiry_pass_precleaned s : expiry_pass clock s (precleaned clock s).
Proof.
  unfold precleaned. destruct (auto_cleanup (config s)).
  - apply expiry_pass_cleaned.
  - apply expiry_pass_refl.
Qed.

Lemma alive_earlier (t t' : nat) e :
  monotone clock -> (t <= t')%nat ->
  expired_at (clock t') e = false -> expired_at (clock t) e = false.
Proof.
  intros Hmono Hle Hlive.
  destruct (expired_at (clock t) e) eqn:E; [|reflexivity].
  rewrite (expired_at_mono (clock t) (clock t')) in Hlive; auto.
Qed.

Lemma cleaned_alive s k e :
  monotone clock -> In (k, e) (_cache (cleaned clock s)) ->
  expired_at (clock (ticks (world s))) e = false.
Proof.
  intros Hmono Hin.
  destruct (cleaned_frame clock s) as (_ & Hd & _). rewrite Hd in Hin.
  eapply survivors_not_expired; eassumption.
Qed.

(** The write that ends [set] when [k] is not in the dictionary. *)
Lemma finish_set k (v : Value) ttl s :
  OrderedDict.get (_cache s) k = None ->
  let s' := persisted clock (stored clock k v ttl s) in
  _cache s'
  = _cache s ++ [(k, fresh_entry k v (effective_ttl (config s) ttl)
                       (clock (ticks (world s))))]
  /\ _stats s' = _stats s
  /\ (S (ticks (world s)) <= ticks (world s'))%nat.
Proof.
  intros Hnone. simpl.
  destruct (persisted_frame clock (stored clock k v ttl s))
    as (_ & Hc & Hst & _ & Ht).
  rewrite Hc, Hst. unfold stored in *. simpl in *.
  apply contains_false in Hnone as Hin. rewrite Hin in *.
  rewrite setitem_absent in * by assumption.
  split; [reflexivity|]. split; [reflexivity|]. lia.
Qed.

(** The state in which [set] decides whether to evict. *)
Lemma eviction_decision k s :
  monotone clock -> unique_keys (_cache s) ->
  OrderedDict.get (_cache s) k = None ->
  OrderedDict.len (_cache s) = max_size (config s) ->
  exists sK,
    expiry_pass clock s sK
    /\ (forall k' e, In (k', e) (_cache sK) ->
          expired_at (clock (ticks (world s))) e = false)
    /\ made_room clock k (precleaned clock s)
       = (if OrderedDict.len (_cache sK) >=? max_size (config s)
          then snd (_evict_lru sK) else sK).
Proof.
  intros Hmono Hu Hnone Hfull.
  set (s1 := precleaned clock s).
  pose proof (expiry_pass_precleaned s) as P1. fold s1 in P1.
  pose proof P1 as (C1 & S1 & T1 & _).
  assert (Hnone1 : OrderedDict.contains (_cache s1) k = false).
  { apply contains_false. apply get_None_keys. intros Hin.
    apply get_None_keys in Hnone. apply Hnone.
    eapply subseq_In; [apply subseq_map; exact S1 | exact Hin]. }
  unfold made_room. rewrite Hnone1, C1. simpl.
  destruct (Z.geb_spec (OrderedDict.len (_cache s1)) (max_size (config s)))
    as [Hstill|Hfreed].
  - exists (cleaned clock s1). split; [|split].
    + eapply expiry_pass_trans; [exact P1 | apply expiry_pass_cleaned].
    + intros k' e Hin. apply (alive_earlier _ (ticks (world s1))); auto.
      eapply cleaned_alive; eassumption.
    + reflexivity.
  - assert (Hauto : s1 = cleaned clock s).
    { unfold s1, precleaned in *. destruct (auto_cleanup (config s)); [reflexivity|].
      lia. }
    exists s1. split; [exact P1|]. split.
    + intros k' e Hin. rewrite Hauto in Hin. eapply cleaned_alive; eassumption.
    + destruct (Z.geb_spec (OrderedDict.len (_cache s1)) (max_size (config s)));
        [lia | reflexivity].
Qed.

(** C2 (eviction procedure).  [set] is called with a valid key that is
    not in the dictionary while the dictionary holds [max_size] entries,
    under a monotone clock.  The call returns [True] and, whatever
    [auto_cleanup] says, first runs the expiry cleanup: [kept] is the
    dictionary it leaves, in which no entry is expired at the time of the
    call, from which only entries seen expired during the call are
    missing, each counted as an expiration.  If [kept] has fewer than
    [max_size] entries nothing is evicted.  If it still has [max_size]
    entries exactly one is removed: the entry with the smallest
    [last_accessed], the first such in recency order, which is the head
    whenever the recency order agrees with the timestamps; [evictions]
    grows by one, and the call returns nothing but [True].  In both
    cases the new entry is appended at the most-recently-used end. *)
Theorem eviction_procedure k (v : Value) (ttl : option Z) s :
  monotone clock ->
  unique_keys (_cache s) ->
  0 < max_size (config s) ->
  k <> EmptyString ->
  OrderedDict.get (_cache s) k = None ->
  OrderedDict.len (_cache s) = max_size (config s) ->
  let t := ticks (world s) in
  let r := set clock (KStr k) v ttl s in
  fst r = Return true
  /\ hits (_stats (snd r)) = hits (_stats s)
  /\ misses (_stats (snd r)) = misses (_stats s)
  /\ exists kept now,
       let new := fresh_entry k v (effective_ttl (config s) ttl) now in
       subseq kept (_cache s)
       /\ (forall k' e, In (k', e) kept -> expired_at (clock t) e = false)
       /\ (forall k' e, In (k', e) (_cache s) ->
             In (k', e) kept
             \/ exists i, (t <= i < ticks (world (snd r)))%nat
                          /\ expired_at (clock i) e = true)
       /\ expirations (_stats (snd r)) + OrderedDict.len kept
          = expirations (_stats s) + OrderedDict.len (_cache s)
       /\ (OrderedDict.len kept < max_size (config s) ->
             _cache (snd r) = kept ++ [(k, new)]
             /\ evictions (_stats (snd r)) = evictions (_stats s))
       /\ (OrderedDict.len kept = max_size (config s) ->
             exists pre victim post,
               kept = pre ++ victim :: post
               /\ (forall x, In x pre ->
                     last_accessed (snd victim) < last_accessed (snd x))
               /\ (forall x, In x post ->
                     last_accessed (snd victim) <= last_accessed (snd x))
               /\ (access_sorted kept -> pre = [])
               /\ _cache (snd r) = pre ++ post ++ [(k, new)]
               /\ evictions (_stats (snd r)) = evictions (_stats s) + 1).
Proof.
  intros Hmono Hu Hpos Hk Hnone Hfull. cbv zeta.
  rewrite set_eq by assumption. cbn [fst snd].
  destruct (eviction_decision k s Hmono Hu Hnone Hfull)
    as (sK & PK & Halive & Hroom).
  rewrite Hroom. clear Hroom.
  pose proof PK as (CK & SK & TK & DK & HK & MK & EK & XK).
  assert (HuK : unique_keys (_cache sK)).
  { unfold unique_keys in *. eapply subseq_NoDup; [|eassumption].
    now apply subseq_map. }
  assert (HnoneK : OrderedDict.get (_cache sK) k = None).
  { apply get_None_keys. intros Hin. apply get_None_keys in Hnone. apply Hnone.
    eapply subseq_In; [apply subseq_map; exact SK | exact Hin]. }
  pose proof (subseq_length _ _ SK) as HlenK.
  destruct (Z.geb_spec (OrderedDict.len (_cache sK)) (max_size (config s)))
    as [Hstill|Hfreed].
  - (* still at capacity: one eviction *)
    assert (Hne : _cache sK <> []).
    { intros Hnil. rewrite Hnil in Hstill. unfold OrderedDict.len in Hstill.
      simpl in Hstill. lia. }
    destruct (evict_first_oldest sK HuK Hne)
      as (pre & victim & post & Hsplit & Hpre & Hpost & Hev).
    set (s2 := snd (_evict_lru sK)) in *.
    assert (Hnone2 : OrderedDict.get (_cache s2) k = None).
    { rewrite Hev. simpl. apply get_None_keys. intros Hin.
      apply get_None_keys in HnoneK. apply HnoneK.
      rewrite Hsplit. unfold OrderedDict.keys in *.
      rewrite map_app in *. simpl. apply in_app_iff in Hin.
      apply in_app_iff. destruct Hin; [now left | right; now right]. }
    destruct (finish_set k v ttl s2 Hnone2) as (Hc' & Hst' & Ht').
    simpl in Hc', Hst', Ht'. rewrite Hc', Hst'.
    rewrite Hev in *. simpl in *.
    split; [reflexivity|]. split; [assumption|]. split; [assumption|].
    exists (_cache sK), (clock (ticks (world sK))).
    split; [assumption|]. split; [assumption|]. split; [|split; [|split]].
    + intros k' e Hin. destruct (DK k' e Hin) as [Hin'|(i & Hi & Hd)]; [now left|].
      right. exists i. split; [lia | assumption].
    + lia.
    + intros Hlt. lia.
    + intros _. exists pre, victim, post.
      split; [assumption|]. split; [assumption|]. split; [assumption|].
      split; [|split].
      * intros Hs. rewrite Hsplit in Hs.
        eapply sorted_prefix_empty; eassumption.
      * rewrite CK, app_assoc. reflexivity.
      * lia.
  - (* room was made by the cleanup: no eviction *)
    destruct (finish_set k v ttl sK HnoneK) as (Hc' & Hst' & Ht').
    simpl in Hc', Hst', Ht'. rewrite Hc', Hst'.
    split; [reflexivity|]. split; [assumption|]. split; [assumption|].
    exists (_cache sK), (clock (ticks (world sK))).
    split; [assumption|]. split; [assumption|]. split; [|split; [|split]].
    + intros k' e Hin. destruct (DK k' e Hin) as [Hin'|(i & Hi & Hd)]; [now left|].
      right. exists i. split; [lia | assumption].
    + assumption.
    + intros _. rewrite CK. split; [reflexivity | assumption].
    + intros Heq. lia.
Qed.
End EvictionProcedure.

(** ** Loading a snapshot *)

Section Loading.
Context {Value : Type} {codec : JSON Value}.
Variable clock : nat -> Z.

Local Abbreviation Entry := (CacheEntry Value).
Local Abbreviation Store := (OrderedDict.t (V := CacheEntry Value)).
Implicit Types (s : State Value) (c : Store) (e : Entry) (k : string).

Lemma load_entry_eq (now : Z) (data : EntryData Value) s :
  load_entry now data s
  = (tt, match from_dict data with
         | Some e => set_cache (load_step now (_cache s) e) s
         | None => s
         end).
Proof.
  unfold load_entry, load_step, skipped_on_load, expired_at.
  destruct (from_dict data) as [e|]; [|reflexivity].
  destruct (truthy_time (expires_at e) && _); [|reflexivity].
  destruct s. reflexivity.
Qed.

Lemma load_loop_eq (now : Z) (entries : list (EntryData Value)) s :
  for_each entries (load_entry now) s
  = (tt, set_cache (fold_left (load_step now) (entries_of entries) (_cache s)) s).
Proof.
  revert s. induction entries as [|data r IH]; intros s; simpl.
  - destruct s. reflexivity.
  - erewrite bind_run by apply load_entry_eq.
    rewrite IH. destruct data as [e|]; reflexivity.
Qed.

Lemma entries_of_to_dict (l : list Entry) : entries_of (map to_dict l) = l.
Proof. induction l; simpl; [reflexivity | now f_equal]. Qed.

(** Loading the values of a well-formed dictionary into a dictionary
    with other keys appends those that are not skipped, in order. *)
Lemma load_own_values (now : Z) c (acc : Store) :
  keys_agree c ->
  NoDup (OrderedDict.keys acc ++ OrderedDict.keys c) ->
  fold_left (load_step now) (OrderedDict.values c) acc
  = acc ++ filter (fun kv => negb (skipped_on_load now (snd kv))) c.
Proof.
  revert acc. induction c as [|[k e] r IH]; intros acc Hagree Hnd; simpl.
  - now rewrite app_nil_r.
  - inversion Hagree as [|? ? Hk Hrest]; subst. simpl in Hk.
    unfold load_step at 2.
    destruct (skipped_on_load now e); simpl.
    + apply IH; [assumption|].
      simpl in Hnd. now apply NoDup_remove_1 in Hnd.
    + rewrite Hk. rewrite setitem_absent.
      * rewrite IH; [now rewrite <- app_assoc | assumption |].
        rewrite keys_app. simpl. rewrite <- app_assoc. exact Hnd.
      * apply get_None_keys. simpl in Hnd. apply NoDup_remove_2 in Hnd.
        intros Hin. apply Hnd. apply in_app_iff. now left.
Qed.

(** Construction of a cache bound to a file that holds a snapshot. *)
Lemma init_from_snapshot (cfg : CacheConfig) (w : World Value) (path version : string)
    (stamp : Z) (entries : list (EntryData Value)) :
  enable_persistence cfg = true ->
  storage_file cfg = Some path -> path <> EmptyString ->
  files w path = Some (Snapshot version stamp entries) ->
  Cache_init clock (Some cfg) w
  = mkState cfg
      (fold_left (load_step (clock (ticks w))) (entries_of entries) [])
      (mkStats 0 0 0 0) (tick w).
Proof.
  intros Hp Hfile Hne Hsnap. unfold Cache_init. rewrite Hp.
  unfold _load_from_storage. erewrite bind_run by reflexivity. simpl.
  rewrite Hfile. apply String.eqb_neq in Hne. rewrite Hne.
  erewrite bind_run by reflexivity. simpl. rewrite Hsnap.
  erewrite bind_run by reflexivity.
  rewrite load_loop_eq. reflexivity.
Qed.

Lemma alive_not_skipped (now : Z) e :
  expired_at now e = false -> skipped_on_load now e = false.
Proof. intros H. unfold skipped_on_load. rewrite H. apply andb_false_r. Qed.

Lemma filter_subseq {A : Type} (f : A -> bool) (l : list A) :
  subseq (filter f l) l.
Proof.
  induction l as [|x r IH]; simpl; [constructor|].
  destruct (f x); [now apply subseq_keep | now apply subseq_skip].
Qed.

(** C5 (persistence round trip), as amended.  A cache bound to the
    file [target] saves its dictionary on a writable disk; a second
    cache is then constructed with a configuration bound to the same
    file.
    - When [json.dump] accepts every stored value, the file holds the
      dictionary [c'] that JSON gives back, and the second dictionary
      is [c'] without the entries that the load skips: its keys are
      keys of the first, in the same order, and every entry of the
      first that is not expired at the load-time reading is found under
      its key with the same key, [created_at], [expires_at] and
      [last_accessed] and with the value that JSON gives back for its
      own; [get] on the second cache returns that value as long as the
      entry is not expired when [get] reads the clock.  When moreover
      JSON gives every value back as it is, the second dictionary is
      the first one without the skipped entries, every kept entry being
      the very same record.
    - When [json.dump] raises on a value, the storage file is not
      replaced and the temporary file is left behind. *)
Theorem persistence_round_trip (s1 : State Value) (target : string)
    (cfg2 : CacheConfig) (default : Value) :
  enable_persistence (config s1) = true ->
  storage_file (config s1) = Some target -> target <> EmptyString ->
  writable (world s1) = true ->
  unique_keys (_cache s1) -> keys_agree (_cache s1) ->
  enable_persistence cfg2 = true -> storage_file cfg2 = Some target ->
  let saved := snd (_save_to_storage clock s1) in
  let s2 := Cache_init clock (Some cfg2) (world saved) in
  let load_time := clock (ticks (world saved)) in
  match json_store (_cache s1) with
  | Some c' =>
      files (world saved) target = Some (snapshot (clock (ticks (world s1))) c')
      /\ _cache s2
         = filter (fun kv => negb (skipped_on_load load_time (snd kv))) c'
      /\ subseq (OrderedDict.keys (_cache s2)) (OrderedDict.keys (_cache s1))
      /\ (forall k e, In (k, e) (_cache s1) -> expired_at load_time e = false ->
            exists v e2,
              json_roundtrip (value e) = Some v
              /\ OrderedDict.get (_cache s2) k = Some e2
              /\ key e2 = key e /\ value e2 = v
              /\ created_at e2 = created_at e /\ expires_at e2 = expires_at e
              /\ last_accessed e2 = last_accessed e
              /\ (expired_at (clock (ticks (world s2))) e = false ->
                  fst (get clock k default s2) = v))
      /\ (json_exact (_cache s1) ->
          _cache s2
          = filter (fun kv => negb (skipped_on_load load_time (snd kv)))
              (_cache s1)
          /\ subseq (_cache s2) (_cache s1)
          /\ (forall k e, In (k, e) (_cache s1) ->
                expired_at load_time e = false ->
                OrderedDict.get (_cache s2) k = Some e
                /\ (expired_at (clock (ticks (world s2))) e = false ->
                    fst (get clock k default s2) = value e)))
  | None =>
      files (world saved) target = files (world s1) target
      /\ files (world saved) (String.append target ".tmp") = Some NotJSON
  end.
Proof.
  intros Hp1 Hfile1 Hne Hw Hu Hagree Hp2 Hfile2 saved s2 load_time.
  destruct (json_store (_cache s1)) as [c'|] eqn:Hjs.
  2:{ destruct (save_fails clock s1 target Hfile1 Hne Hw Hjs) as (H1 & H2 & _).
      split; assumption. }
  destruct (save_writes clock s1 target c' Hfile1 Hne Hw Hjs) as (Hsnap & _ & _).
  fold saved in Hsnap.
  pose proof (json_store_keys _ _ Hjs) as Hkeys.
  assert (Hu' : unique_keys c') by (unfold unique_keys; now rewrite Hkeys).
  assert (Hagree' : keys_agree c') by (eapply json_store_agree; eassumption).
  assert (Hc2 : _cache s2
            = filter (fun kv => negb (skipped_on_load load_time (snd kv))) c').
  { unfold s2. unfold snapshot in Hsnap.
    rewrite (init_from_snapshot cfg2 (world saved) target _ _ _ Hp2 Hfile2 Hne Hsnap).
    rewrite entries_of_to_dict. cbn [_cache]. rewrite load_own_values; auto. }
  assert (Hfound : forall k e, In (k, e) c' ->
            expired_at load_time e = false ->
            OrderedDict.get (_cache s2) k = Some e).
  { intros k e Hin Hlive. apply In_get_Some.
    - rewrite Hc2. unfold unique_keys in Hu'. eapply subseq_NoDup; [|exact Hu'].
      apply subseq_map. apply filter_subseq.
    - rewrite Hc2. apply filter_In. split; [assumption|]. simpl.
      now rewrite alive_not_skipped. }
  split; [exact Hsnap|]. split; [exact Hc2|]. split.
  { rewrite Hc2, <- Hkeys. apply subseq_map. apply filter_subseq. }
  split.
  - intros k e Hin Hlive.
    destruct (json_store_In _ _ _ _ Hjs Hin) as (v & Hrt & Hin').
    exists v, (with_value e v).
    assert (Hgot : OrderedDict.get (_cache s2) k = Some (with_value e v))
      by (apply Hfound; [assumption | exact Hlive]).
    split; [assumption|]. split; [exact Hgot|].
    split; [reflexivity|]. split; [reflexivity|]. split; [reflexivity|].
    split; [reflexivity|]. split; [reflexivity|].
    intros Hstill. rewrite get_eq, Hgot.
    change (expired_at (clock (ticks (world s2))) (with_value e v))
      with (expired_at (clock (ticks (world s2))) e).
    rewrite Hstill. reflexivity.
  - intros Hexact.
    assert (Hsame : c' = _cache s1).
    { rewrite (json_store_exact _ Hexact Hagree) in Hjs. now injection Hjs. }
    rewrite Hsame in *.
    split; [exact Hc2|]. split; [rewrite Hc2; apply filter_subseq|].
    intros k e Hin Hlive.
    pose proof (Hfound k e Hin Hlive) as Hgot.
    split; [exact Hgot|].
    intros Hstill. rewrite get_eq, Hgot, Hstill. reflexivity.
Qed.
End Loading.

(** ** Overwriting a key *)

Lemma subseq_delitem {V : Type} (l c : OrderedDict.t (V := V)) (k : string) :
  subseq l c -> ~ In k (OrderedDict.keys l) -> subseq l (OrderedDict.delitem c k).
Proof.
  induction 1 as [|[k' v'] l c Hs IH|[k' v'] l c Hs IH]; simpl; intros Hnin.
  - constructor.
  - destruct (String.eqb k' k); [assumption|]. apply subseq_skip. auto.
  - destruct (String.eqb_spec k' k) as [->|Hne].
    + exfalso. apply Hnin. now left.
    + apply subseq_keep. apply IH. intros Hin. apply Hnin. now right.
Qed.

Lemma In_delitem_other {V : Type} (c : OrderedDict.t (V := V)) (k k' : string)
    (v : V) :
  k' <> k -> In (k', v) c -> In (k', v) (OrderedDict.delitem c k).
Proof.
  intros Hne. induction c as [|[k0 v0] r IH]; simpl; [tauto|].
  intros [Heq|Hin].
  - injection Heq as -> ->.
    destruct (String.eqb_spec k' k); [contradiction | now left].
  - destruct (String.eqb k0 k); [assumption | right; auto].
Qed.

Lemma subseq_lost_key {V : Type} (l c : OrderedDict.t (V := V)) (k : string) :
  subseq l c -> In k (OrderedDict.keys c) -> ~ In k (OrderedDict.keys l) ->
  (length l < length c)%nat.
Proof.
  intros Hs Hin Hnin. pose proof (subseq_length _ _ Hs) as Hle.
  destruct (Nat.eq_dec (length l) (length c)) as [Heq|Hne]; [|lia].
  apply subseq_same_length in Hs; [|assumption]. subst l. contradiction.
Qed.

Section Overwrite.
Context {Value : Type} {codec : JSON Value}.
Variable clock : nat -> Z.

Local Abbreviation Entry := (CacheEntry Value).
Local Abbreviation Store := (OrderedDict.t (V := CacheEntry Value)).
Implicit Types (s : State Value) (c : Store) (e : Entry) (k : string).

Lemma expirations_grow s s' :
  shrinks s s' ->
  expirations (_stats s') + OrderedDict.len (_cache s')
  = expirations (_stats s) + OrderedDict.len (_cache s) ->
  expirations (_stats s) <= expirations (_stats s').
Proof.
  intros (_ & Hs & _) H. apply subseq_length in Hs.
  unfold OrderedDict.len in H. lia.
Qed.

(** The capacity check of [set] never lowers the expiration counter. *)
Lemma made_room_expirations k s :
  expirations (_stats s) <= expirations (_stats (made_room clock k s)).
Proof.
  unfold made_room. destruct (negb _ && _); [|lia].
  destruct (cleaned_frame clock s) as (_ & _ & _ & _ & _ & Hx & _).
  pose proof (expirations_grow s _ (shrinks_cleaned clock s) Hx) as Hle.
  destruct (_ >=? _); [|assumption].
  destruct (evict_frame (cleaned clock s)) as (_ & _ & _ & _ & _ & He).
  rewrite He. assumption.
Qed.

(** C6 (overwrite), as amended.  [set(k, v2, ttl)] on a key that is
    present, with a valid key, returns [True] and leaves the dictionary
    [rest ++ [(k, new)]]: [new] holds [v2], has [created_at] and
    [last_accessed] equal to the write time [now] (a reading taken
    during the call) and [expires_at] equal to [now] plus the TTL in
    effect, or none; [k] is at the most-recently-used end and occurs
    once; [rest] consists of other entries of the old dictionary,
    unchanged and in their order.  The entry count does not grow, and
    it is unchanged, with [rest] being all the other entries, when
    [auto_cleanup] is off or the call counts no expiration.  In a cache
    within capacity an entry under another key is missing from [rest]
    only if [auto_cleanup] is on and the entry was expired at a reading
    that the call took before the write time.  A [get(k)] that follows
    returns [v2] provided [new] is not expired when that [get] reads
    the clock. *)
Theorem overwrite_resets k (v2 : Value) (ttl : option Z) (default : Value)
    (old : Entry) s :
  unique_keys (_cache s) -> k <> EmptyString ->
  OrderedDict.get (_cache s) k = Some old ->
  let r := set clock (KStr k) v2 ttl s in
  fst r = Return true
  /\ exists rest i,
       let new := fresh_entry k v2 (effective_ttl (config s) ttl) (clock i) in
       (ticks (world s) <= i < ticks (world (snd r)))%nat
       /\ _cache (snd r) = rest ++ [(k, new)]
       /\ value new = v2 /\ created_at new = clock i
       /\ last_accessed new = clock i
       /\ expires_at new
          = match effective_ttl (config s) ttl with
            | Some d => Some (clock i + d)
            | None => None
            end
       /\ subseq rest (OrderedDict.delitem (_cache s) k)
       /\ OrderedDict.get rest k = None
       /\ (length (_cache (snd r)) <= length (_cache s))%nat
       /\ (auto_cleanup (config s) = false
           \/ expirations (_stats (snd r)) = expirations (_stats s) ->
           rest = OrderedDict.delitem (_cache s) k
           /\ length (_cache (snd r)) = length (_cache s))
       /\ (within_capacity s ->
           forall k' e', k' <> k -> In (k', e') (_cache s) ->
             In (k', e') rest
             \/ (auto_cleanup (config s) = true
                 /\ exists j, (ticks (world s) <= j < i)%nat
                              /\ expired_at (clock j) e' = true))
       /\ (expired_at (clock (ticks (world (snd r)))) new = false ->
           fst (get clock k default (snd r)) = v2).
Proof.
  intros Hu Hk Hget. cbv zeta.
  rewrite set_eq by assumption. cbn [fst snd].
  set (s1 := precleaned clock s).
  set (s2 := made_room clock k s1).
  pose proof (shrinks_precleaned clock s) as Sh1. fold s1 in Sh1.
  pose proof (shrinks_made_room clock k s1) as Sh2. fold s2 in Sh2.
  pose proof (shrinks_trans _ _ _ Sh1 Sh2) as Sh.
  pose proof Sh1 as (C1 & Sub1 & T1).
  pose proof Sh as (C2 & Sub2 & T2).
  assert (Hu1 : unique_keys (_cache s1)) by (eapply shrinks_unique; eassumption).
  assert (Hu2 : unique_keys (_cache s2)) by (eapply shrinks_unique; eassumption).
  destruct (stored_cache clock k v2 ttl s2 Hu2)
    as (rest & Heq & Hrest & Hsubrest & Hnone).
  destruct (persisted_frame clock (stored clock k v2 ttl s2))
    as (_ & Hc' & Hst' & _ & Ht').
  set (s' := persisted clock (stored clock k v2 ttl s2)) in *.
  assert (Hticks : (S (ticks (world s2)) <= ticks (world s'))%nat)
    by (simpl in Ht'; lia).
  assert (Hcache : _cache s'
            = rest ++ [(k, fresh_entry k v2 (effective_ttl (config s) ttl)
                             (clock (ticks (world s2))))])
    by (rewrite Hc', Heq, C2; reflexivity).
  assert (Hsub : subseq rest (OrderedDict.delitem (_cache s) k)).
  { apply subseq_delitem.
    - eapply subseq_trans; eassumption.
    - now apply get_None_keys. }
  assert (Hlen : S (length (OrderedDict.delitem (_cache s) k)) = length (_cache s))
    by (eapply delitem_length; eassumption).
  assert (Hlen' : length (_cache s') = S (length rest))
    by (rewrite Hcache, length_app; simpl; lia).
  pose proof (subseq_length _ _ Hsub) as Hle.
  split; [reflexivity|].
  exists rest, (ticks (world s2)). cbv zeta.
  split; [lia|]. split; [exact Hcache|].
  split; [reflexivity|]. split; [reflexivity|]. split; [reflexivity|].
  split; [reflexivity|]. split; [exact Hsub|]. split; [exact Hnone|].
  split; [lia|]. split; [|split].
  - (* nothing was purged *)
    intros Hquiet.
    assert (Hsame : _cache s2 = _cache s /\ OrderedDict.contains (_cache s) k = true).
    { assert (Hin : OrderedDict.contains (_cache s) k = true)
        by (unfold OrderedDict.contains; now rewrite Hget).
      split; [|assumption].
      assert (Hs1 : _cache s1 = _cache s).
      { unfold s1, precleaned in *.
        destruct (auto_cleanup (config s)) eqn:Hauto; [|reflexivity].
        destruct Hquiet as [Hoff|Hexp]; [discriminate|].
        destruct (cleaned_frame clock s) as (_ & _ & _ & _ & _ & Hx & _).
        pose proof (made_room_expirations k (cleaned clock s)) as Hgrow.
        fold s2 in Hgrow. rewrite Hst' in Hexp. simpl in Hexp.
        apply subseq_same_length; [assumption|].
        apply subseq_length in Sub1. unfold OrderedDict.len in Hx. lia. }
      unfold s2, made_room. rewrite Hs1, Hin. simpl. exact Hs1. }
    destruct Hsame as (Hs2 & Hin).
    rewrite Hs2, Hin in Hrest. subst rest. split; [reflexivity | lia].
  - (* what is missing was seen expired *)
    intros Hcap k' e' Hother Hin.
    assert (Hkin : In k (OrderedDict.keys (_cache s))).
    { apply get_Some_In in Hget. change k with (fst (k, old)). now apply in_map. }
    assert (Hsame2 : s2 = s1).
    { unfold s2, made_room.
      destruct (OrderedDict.contains (_cache s1) k) eqn:Hloc; [reflexivity|].
      cbn [negb andb].
      assert (Hlt : (length (_cache s1) < length (_cache s))%nat).
      { apply (subseq_lost_key _ _ k); [exact Sub1 | exact Hkin |].
        apply contains_false in Hloc. now apply get_None_keys. }
      unfold within_capacity, OrderedDict.len in *.
      destruct (Z.geb_spec (Z.of_nat (length (_cache s1))) (max_size (config s1)));
        [|reflexivity].
      rewrite C1 in *. lia. }
    rewrite Hsame2 in Hrest.
    assert (Hstay : In (k', e') (_cache s1) -> In (k', e') rest).
    { intros Hloc. rewrite Hrest.
      destruct (OrderedDict.contains (_cache s1) k); [|assumption].
      now apply In_delitem_other. }
    unfold s1, precleaned in Hstay |- *.
    destruct (auto_cleanup (config s)) eqn:Hauto; [|left; now apply Hstay].
    destruct (cleaned_frame clock s) as (_ & Hc & _ & _ & _ & _ & _ & Hscan & _).
    destruct (purged_seen_expired clock (ticks (world s)) (_cache s) k' e' Hin)
      as [Halive|(j & Hj & Hdead)].
    + left. apply Hstay. now rewrite Hc.
    + right. split; [reflexivity|]. exists j. split; [|assumption].
      rewrite Hsame2. unfold s1, precleaned. rewrite Hauto. lia.
  - (* the value is read back *)
    intros Hlive. rewrite get_eq.
    assert (Hgot : OrderedDict.get (_cache s') k
              = Some (fresh_entry k v2 (effective_ttl (config s) ttl)
                        (clock (ticks (world s2))))).
    { rewrite Hcache. now apply get_snoc_same. }
    rewrite Hgot, Hlive. reflexivity.
Qed.
End Overwrite.

(** Counterexample to C6 as stated.  (1) With [auto_cleanup] on, the
    cache holds ["a"], which lives until time 3, and ["k"]: [size()]
    reads 3 and returns 2; [set('k', 'new')] then reads 4, purges ["a"]
    and returns [True]; [size()] now returns 1.  (2) [set('a', 'new',
    ttl=-1)] on a present key stores an entry that is expired from the
    start: the [get('a', 'default')] that follows returns ['default'],
    even on a clock that stands still. *)
Lemma overwrite_counterexample :
  (let before := size Demo.clock Demo.short_lived in
   let written := set Demo.clock (KStr "k") "new" None (snd before) in
   OrderedDict.contains (_cache (snd before)) "k" = true
   /\ fst before = 2
   /\ fst written = Return true
   /\ fst (size Demo.clock (snd written)) = 1
   /\ length (_cache (snd before)) = 2%nat
   /\ length (_cache (snd written)) = 1%nat)
  /\ (let written := set Demo.frozen (KStr "a") "new" (Some (-1)) Demo.abc in
      OrderedDict.contains (_cache Demo.abc) "a" = true
      /\ fst written = Return true
      /\ fst (get Demo.frozen "a" "default" (snd written)) = "default").
Proof. repeat split. Qed.

Lemma overwrite_resets_witness :
  let r := set Demo.clock (KStr "a") "new" None Demo.abc in
  fst r = Return true
  /\ OrderedDict.keys (_cache (snd r)) = ["b"; "c"; "a"]
  /\ fst (get Demo.clock "a" "default" (snd r)) = "new".
Proof.
  destruct (overwrite_resets Demo.clock "a" "new" None "default"
              (mkEntry "a" "1" 0 None 0) Demo.abc)
    as (Hret & rest & i & _ & _ & _ & _ & _ & _ & _ & _ & _ & _ & _ & Hread).
  - unfold unique_keys. simpl.
    repeat constructor; simpl; intuition discriminate.
  - discriminate.
  - reflexivity.
  - split; [exact Hret|]. split; [reflexivity|].
    reflexivity.
Defined.

(** ** Well-formed dictionaries *)

Section WellFormed.
Context {Value : Type} {codec : JSON Value}.
Variable clock : nat -> Z.

Local Abbreviation Entry := (CacheEntry Value).
Local Abbreviation Store := (OrderedDict.t (V := CacheEntry Value)).
Implicit Types (s : State Value) (c : Store) (e : Entry) (k : string).

Lemma setitem_keys c k e :
  OrderedDict.keys (OrderedDict.setitem c k e)
  = if OrderedDict.contains c k then OrderedDict.keys c
    else OrderedDict.keys c ++ [k].
Proof.
  unfold OrderedDict.contains.
  induction c as [|[k' e'] r IH]; simpl; [reflexivity|].
  destruct (String.eqb k' k); simpl; [reflexivity|].
  rewrite IH. destruct (OrderedDict.get r k); reflexivity.
Qed.

Lemma setitem_unique c k e :
  unique_keys c -> unique_keys (OrderedDict.setitem c k e).
Proof.
  unfold unique_keys. intros Hu. rewrite setitem_keys.
  destruct (OrderedDict.contains c k) eqn:Hin; [assumption|].
  apply contains_false in Hin.
  pose proof (NoDup_keys_snoc c k e Hu Hin) as H.
  now rewrite keys_app in H.
Qed.

Lemma setitem_agree c k e :
  keys_agree c -> key e = k -> keys_agree (OrderedDict.setitem c k e).
Proof.
  unfold keys_agree. intros Hall Hk.
  induction c as [|[k' e'] r IH]; simpl.
  - constructor; [exact Hk | constructor].
  - apply Forall_cons_iff in Hall. destruct Hall as (Hhead & Htail).
    destruct (String.eqb k' k) eqn:E.
    + apply String.eqb_eq in E. constructor; [simpl; congruence | assumption].
    + constructor; [assumption | now apply IH].
Qed.

Lemma load_well_formed (now : Z) (l : list Entry) c :
  unique_keys c /\ keys_agree c ->
  unique_keys (fold_left (load_step now) l c)
  /\ keys_agree (fold_left (load_step now) l c).
Proof.
  revert c. induction l as [|e r IH]; intros c (Hu & Ha); simpl; [now split|].
  apply IH. unfold load_step. destruct (skipped_on_load now e); [now split|].
  split; [now apply setitem_unique | now apply setitem_agree].
Qed.

(** Whatever the file holds, the constructor builds a dictionary with
    unique keys in which every entry records its own key. *)
Lemma init_well_formed (cfg : option CacheConfig) (w : World Value) :
  unique_keys (_cache (Cache_init clock cfg w))
  /\ keys_agree (_cache (Cache_init clock cfg w)).
Proof.
  assert (Hnil : unique_keys (@nil (string * Entry)) /\ keys_agree (@nil (string * Entry)))
    by (split; constructor).
  unfold Cache_init.
  destruct (enable_persistence _); [|exact Hnil].
  unfold _load_from_storage. erewrite bind_run by reflexivity. simpl.
  destruct (storage_file _) as [path|]; [|exact Hnil].
  destruct (String.eqb path EmptyString); [exact Hnil|].
  erewrite bind_run by reflexivity. simpl.
  destruct (files w path) as [[| |version stamp entries]|]; try exact Hnil.
  erewrite bind_run by reflexivity. rewrite load_loop_eq. simpl.
  now apply load_well_formed.
Qed.

(** Every public method keeps the dictionary well-formed. *)
Lemma run_ops_well_formed (ops : list Op) s :
  unique_keys (_cache s) /\ keys_agree (_cache s) ->
  unique_keys (_cache (run_ops clock ops s))
  /\ keys_agree (_cache (run_ops clock ops s)).
Proof.
  revert s. unfold run_ops.
  induction ops as [|op r IH]; intros s Hwf; simpl; [assumption|].
  apply IH. revert Hwf.
  apply (run_op_preserves clock
           (fun s => unique_keys (_cache s) /\ keys_agree (_cache s))).
  - intros s0 H. apply H.
  - intros s0 s' Hsh (Hu & Ha). pose proof Hsh as (_ & Hsub & _). split.
    + eapply shrinks_unique; eassumption.
    + unfold keys_agree in *. eapply subseq_Forall; eassumption.
  - intros k v ttl s0 Hk (Hu & Ha).
    set (s2 := made_room clock k (precleaned clock s0)).
    assert (Hsh : shrinks s0 s2).
    { eapply shrinks_trans; [apply shrinks_precleaned | apply shrinks_made_room]. }
    pose proof Hsh as (_ & Hsub & _).
    assert (Hu2 : unique_keys (_cache s2)) by (eapply shrinks_unique; eassumption).
    destruct (stored_cache clock k v ttl s2 Hu2) as (rest & Heq & _ & Hsr & Hnone).
    rewrite Heq. split.
    + apply NoDup_keys_snoc; [|assumption].
      unfold unique_keys in Hu2. eapply subseq_NoDup; [|exact Hu2].
      now apply subseq_map.
    + unfold keys_agree in *. apply Forall_app. split.
      * eapply subseq_Forall; [|exact Ha]. eapply subseq_trans; eassumption.
      * constructor; [reflexivity | constructor].
  - intros k e s0 Hget (Hu & Ha). unfold touched. simpl. split.
    + apply NoDup_keys_snoc; [now apply delitem_NoDup | now apply delitem_get_same].
    + unfold keys_agree in *. apply Forall_app. split.
      * eapply subseq_Forall; [apply delitem_subseq | exact Ha].
      * constructor; [|constructor]. simpl.
        apply get_Some_In in Hget. rewrite Forall_forall in Ha.
        apply (Ha (k, e) Hget).
Qed.
End WellFormed.

(** ** The properties on concrete caches *)

Lemma eviction_procedure_witness :
  let r := set Demo.clock (KStr "d") "4" None Demo.abc in
  fst r = Return true
  /\ hits (_stats (snd r)) = hits (_stats Demo.abc)
  /\ misses (_stats (snd r)) = misses (_stats Demo.abc).
Proof.
  destruct (eviction_procedure Demo.clock "d" "4" None Demo.abc)
    as (Hret & Hhits & Hmisses & _).
  - intros i j Hij. unfold Demo.clock. lia.
  - unfold unique_keys. simpl.
    repeat constructor; simpl; intuition discriminate.
  - simpl. lia.
  - discriminate.
  - reflexivity.
  - reflexivity.
  - exact (conj Hret (conj Hhits Hmisses)).
Defined.

(** The eviction of the LRU test: ["a"], ["b"], ["c"] are written,
    ["a"] is read, and writing ["d"] evicts ["b"]. *)
Example lru_test_evicts_b :
  let s := run_ops Demo.clock
             [OpGet "a" "none"; Demo.set_ "d" "4" None] Demo.abc in
  OrderedDict.keys (_cache s) = ["c"; "a"; "d"]
  /\ evictions (_stats s) = 1 /\ hits (_stats s) = 1.
Proof. repeat split. Qed.

Lemma persistence_round_trip_witness :
  let saved := snd (_save_to_storage Demo.fast Demo.stale_on_disk) in
  let s2 := Cache_init Demo.fast
              (Some (mkConfig 5 None (Some "cache.json") true true))
              (world saved) in
  OrderedDict.keys (_cache s2) = ["keep"]
  /\ subseq (_cache s2) (_cache Demo.stale_on_disk)
  /\ fst (get Demo.fast "keep" "none" s2) = "v".
Proof.
  pose proof (persistence_round_trip Demo.fast Demo.stale_on_disk "cache.json"
                (mkConfig 5 None (Some "cache.json") true true) "none") as H.
  cbv zeta in H.
  assert (Hjs : json_store (_cache Demo.stale_on_disk)
                = Some (_cache Demo.stale_on_disk)) by reflexivity.
  rewrite Hjs in H.
  destruct H as (_ & _ & _ & _ & Hexact).
  - reflexivity.
  - reflexivity.
  - discriminate.
  - reflexivity.
  - unfold unique_keys. simpl.
    repeat constructor; simpl; intuition discriminate.
  - unfold keys_agree. simpl. repeat constructor.
  - reflexivity.
  - reflexivity.
  - destruct Hexact as (Hcache & Hsub & Hget).
    + unfold json_exact. simpl. repeat constructor.
    + split; [rewrite Hcache; reflexivity|]. split; [exact Hsub|].
      apply (Hget "keep" (mkEntry "keep" "v" 20 None 20)).
      * simpl. auto.
      * reflexivity.
      * reflexivity.
Defined.

(** [get] on the three kinds of key, at time 20 in a cache that holds
    the expired ["temp"] and the live ["keep"]. *)
Example get_on_missing_key :
  let r := get Demo.fast "other" "none" Demo.stale in
  fst r = "none" /\ _stats (snd r) = mkStats 0 1 0 0
  /\ _cache (snd r) = _cache Demo.stale.
Proof. repeat split. Qed.

Example get_on_expired_key :
  let r := get Demo.fast "temp" "none" Demo.stale in
  fst r = "none" /\ _stats (snd r) = mkStats 0 1 0 1
  /\ OrderedDict.keys (_cache (snd r)) = ["keep"].
Proof. repeat split. Qed.

Example get_on_live_key :
  let r := get Demo.clock "a" "none" Demo.abc in
  fst r = "1" /\ _stats (snd r) = mkStats 1 0 0 0
  /\ OrderedDict.keys (_cache (snd r)) = ["b"; "c"; "a"]
  /\ OrderedDict.get (_cache (snd r)) "a" = Some (mkEntry "a" "1" 0 None 3).
Proof. repeat split. Qed.

Example has_on_expired_key :
  let r := has Demo.fast "temp" Demo.stale in
  fst r = false /\ _stats (snd r) = mkStats 0 0 0 1
  /\ OrderedDict.keys (_cache (snd r)) = ["keep"].
Proof. repeat split. Qed.

Example has_on_missing_key :
  has Demo.fast "other" Demo.stale = (false, Demo.stale).
Proof. reflexivity. Qed.

(** Counterexample to C5 as stated.  A cache that persists to
    ["cache.json"] stores the tuple [('1', '2')] under ["t"]; the save
    succeeds and [get('t')] on this cache returns the tuple.  A second
    cache constructed on the same file finds ["t"], with the same
    timestamps, but its value is the list [['1', '2']], which differs
    from the tuple that was stored. *)
Lemma round_trip_changes_tuple :
  let s1 := Demo.py_on_disk in
  let s2 := Cache_init Demo.clock
              (Some (mkConfig 3 None (Some "cache.json") true true)) (world s1) in
  fst (get Demo.clock "t" (Demo.PyStr "none") s1) = Demo.PyTuple ["1"; "2"]
  /\ files (world s1) "cache.json"
     = Some (Snapshot "1.0" 1
               [EntryDict (mkEntry "t" (Demo.PyList ["1"; "2"]) 0 None 0)])
  /\ OrderedDict.get (_cache s1) "t"
     = Some (mkEntry "t" (Demo.PyTuple ["1"; "2"]) 0 None 0)
  /\ OrderedDict.get (_cache s2) "t"
     = Some (mkEntry "t" (Demo.PyList ["1"; "2"]) 0 None 0)
  /\ fst (get Demo.clock "t" (Demo.PyStr "none") s2) = Demo.PyList ["1"; "2"]
  /\ Demo.PyList ["1"; "2"] <> Demo.PyTuple ["1"; "2"].
Proof.
  cbv zeta. split; [reflexivity|]. split; [reflexivity|]. split; [reflexivity|].
  split; [reflexivity|]. split; [reflexivity | discriminate].
Qed.

(** ** What the public methods do to counters, clock and files *)

Section EffectFacts.
Context {Value : Type} {codec : JSON Value}.
Variable clock : nat -> Z.

Local Abbreviation Entry := (CacheEntry Value).
Local Abbreviation Store := (OrderedDict.t (V := CacheEntry Value)).
Implicit Types (s : State Value) (c : Store) (e : Entry) (k : string).

Lemma effect_refl s : effect 0 s s.
Proof. unfold effect. repeat split; auto; lia. Qed.

Lemma effect_trans (a b : Z) s1 s2 s3 :
  effect a s1 s2 -> effect b s2 s3 -> effect (a + b) s1 s3.
Proof.
  intros (C1 & W1 & T1 & H1 & M1 & R1 & E1 & X1 & F1)
         (C2 & W2 & T2 & H2 & M2 & R2 & E2 & X2 & F2).
  unfold effect. repeat split; try congruence; try lia.
  intros Hoff. rewrite F2, F1; auto. now rewrite C1.
Qed.

Lemma effect_persisted s : effect 0 s (persisted clock s).
Proof.
  destruct (persisted_frame clock s) as (Hc & _ & Hst & Hw & Ht).
  unfold effect. rewrite Hc, Hst, Hw. repeat split; auto; try lia.
  intros Hoff. unfold persisted. now rewrite Hoff.
Qed.

Lemma effect_cleaned s : effect 0 s (cleaned clock s).
Proof.
  destruct (cleaned_frame clock s) as (Hc & Hd & Hh & Hm & He & Hx & Hw & Ht).
  pose proof (scan_end_ge (ticks (world s)) (_cache s)) as Hge.
  pose proof (survivors_subseq clock (ticks (world s)) (_cache s)) as Hsub.
  apply subseq_length in Hsub. rewrite <- Hd in Hsub.
  unfold OrderedDict.len in Hx.
  unfold effect. repeat split; auto; try lia.
  intros Hoff. unfold cleaned. rewrite Hoff, andb_false_r. reflexivity.
Qed.

Lemma effect_precleaned s : effect 0 s (precleaned clock s).
Proof.
  unfold precleaned. destruct (auto_cleanup (config s)).
  - apply effect_cleaned.
  - apply effect_refl.
Qed.

(** An eviction either finds the dictionary empty and does nothing, or
    removes one entry and counts it. *)
Lemma evict_cases s :
  (_cache s = [] /\ snd (_evict_lru s) = s)
  \/ (exists victim,
        In victim (OrderedDict.keys (_cache s))
        /\ snd (_evict_lru s)
           = mkState (config s) (OrderedDict.delitem (_cache s) victim)
               (incr_evictions (_stats s)) (world s)).
Proof.
  unfold _evict_lru. erewrite bind_run by reflexivity.
  destruct (_cache s) as [|[k0 e0] r] eqn:Hc.
  - left. split; reflexivity.
  - right. rewrite <- Hc.
    assert (Hk : OrderedDict.keys (_cache s) = k0 :: OrderedDict.keys r)
      by (rewrite Hc; reflexivity).
    rewrite Hk. unfold py_min.
    destruct (py_min_from_first (last_accessed_of (_cache s))
                (OrderedDict.keys r) k0) as (pre & post & Hsplit & _).
    exists (py_min_from (last_accessed_of (_cache s)) k0 (OrderedDict.keys r)).
    split.
    + rewrite Hsplit. apply in_app_iff. right. now left.
    + reflexivity.
Qed.

Lemma effect_evicted s : effect 0 s (snd (_evict_lru s)).
Proof.
  destruct (evict_cases s) as [(_ & ->)|(victim & _ & ->)].
  - apply effect_refl.
  - unfold effect. simpl. repeat split; auto; lia.
Qed.

Lemma effect_made_room k s : effect 0 s (made_room clock k s).
Proof.
  unfold made_room. destruct (negb _ && _); [|apply effect_refl].
  destruct (_ >=? _).
  - change 0 with (0 + 0).
    eapply effect_trans; [apply effect_cleaned | apply effect_evicted].
  - apply effect_cleaned.
Qed.

Lemma effect_stored k (v : Value) ttl s : effect 0 s (stored clock k v ttl s).
Proof. unfold effect, stored. simpl. repeat split; auto; lia. Qed.

Lemma effect_set (arg : KeyArg) (v : Value) ttl s :
  unique_keys (_cache s) -> effect 0 s (snd (set clock arg v ttl s)).
Proof.
  intros Hu. destruct arg as [k|]; [|apply effect_refl].
  destruct (String.eqb_spec k EmptyString) as [->|Hk]; [apply effect_refl|].
  rewrite set_eq by assumption. cbn [snd].
  change 0 with (0 + (0 + (0 + 0))).
  eapply effect_trans; [apply effect_precleaned|].
  eapply effect_trans; [apply effect_made_room|].
  eapply effect_trans; [apply effect_stored | apply effect_persisted].
Qed.

Lemma effect_get k (default : Value) s :
  effect 1 s (snd (get clock k default s)).
Proof.
  rewrite get_eq.
  destruct (OrderedDict.get (_cache s) k) as [e|].
  - destruct (expired_at _ e); cbn [snd].
    + change 1 with (1 + 0).
      eapply effect_trans; [|apply effect_persisted].
      unfold effect, dropped, tick_after. simpl.
      destruct (expires_at e); repeat split; auto; lia.
    + unfold effect, touched, tick_after. simpl.
      destruct (expires_at e); repeat split; auto; lia.
  - cbn [snd]. unfold effect. simpl. repeat split; auto; lia.
Qed.

Lemma effect_has k s : effect 0 s (snd (has clock k s)).
Proof.
  rewrite has_eq.
  destruct (OrderedDict.get (_cache s) k) as [e|]; [|apply effect_refl].
  destruct (expired_at _ e); cbn [snd].
  - change 0 with (0 + 0).
    eapply effect_trans; [|apply effect_persisted].
    unfold effect, dropped, tick_after. simpl.
    destruct (expires_at e); repeat split; auto; lia.
  - unfold effect, tick_after. simpl.
    destruct (expires_at e); repeat split; auto; lia.
Qed.

Lemma effect_delete k s : effect 0 s (snd (delete clock k s)).
Proof.
  rewrite delete_eq.
  destruct (OrderedDict.contains (_cache s) k); [|apply effect_refl].
  cbn [snd]. change 0 with (0 + 0).
  eapply effect_trans; [|apply effect_persisted].
  unfold effect. simpl. repeat split; auto; lia.
Qed.

Lemma effect_clear s : effect 0 s (snd (clear clock s)).
Proof.
  rewrite clear_eq. cbn [snd]. change 0 with (0 + 0).
  eapply effect_trans; [|apply effect_persisted].
  unfold effect. simpl. repeat split; auto; lia.
Qed.

Lemma run_op_effect (op : Op) s :
  unique_keys (_cache s) ->
  effect (if is_get op then 1 else 0) s (run_op clock op s).
Proof.
  intros Hu. destruct op; simpl.
  - now apply effect_set.
  - apply effect_get.
  - apply effect_has.
  - apply effect_delete.
  - apply effect_clear.
  - rewrite size_eq by assumption. apply effect_precleaned.
  - rewrite keys_eq by assumption. apply effect_precleaned.
  - rewrite get_stats_state by assumption. apply effect_precleaned.
Qed.

Lemma run_op_unique (op : Op) s :
  unique_keys (_cache s) -> unique_keys (_cache (run_op clock op s)).
Proof.
  apply (run_op_preserves clock (fun s => unique_keys (_cache s))); clear s.
  - auto.
  - intros s s' Hsh Hu. eapply shrinks_unique; eassumption.
  - intros k v ttl s Hk Hu.
    set (s2 := made_room clock k (precleaned clock s)).
    assert (Hu2 : unique_keys (_cache s2)).
    { eapply shrinks_unique; [apply shrinks_made_room|].
      eapply shrinks_unique; [apply shrinks_precleaned | assumption]. }
    destruct (stored_cache clock k v ttl s2 Hu2) as (rest & Heq & _ & Hsr & Hnone).
    rewrite Heq. apply NoDup_keys_snoc; [|assumption].
    unfold unique_keys in Hu2. eapply subseq_NoDup; [|exact Hu2].
    now apply subseq_map.
  - intros k e s Hget Hu. unfold touched. simpl.
    apply NoDup_keys_snoc; [now apply delitem_NoDup | now apply delitem_get_same].
Qed.

Lemma run_ops_effect (ops : list Op) s :
  unique_keys (_cache s) ->
  unique_keys (_cache (run_ops clock ops s))
  /\ effect (Z.of_nat (count_gets ops)) s (run_ops clock ops s).
Proof.
  revert s. unfold run_ops, count_gets.
  induction ops as [|op r IH]; intros s Hu; simpl.
  - split; [assumption | apply effect_refl].
  - destruct (IH (run_op clock op s) (run_op_unique op s Hu)) as (Hu' & He).
    split; [assumption|].
    pose proof (run_op_effect op s Hu) as H1.
    replace (Z.of_nat (length (if is_get op then op :: filter is_get r
                               else filter is_get r)))
      with ((if is_get op then 1 else 0) + Z.of_nat (length (filter is_get r))).
    + eapply effect_trans; eassumption.
    + destruct (is_get op); simpl length; lia.
Qed.

(** X1.  The four counters never decrease: after any sequence of public
    operations each of [hits], [misses], [evictions] and [expirations]
    is at least what it was. *)
Theorem counters_never_decrease (ops : list Op) s :
  unique_keys (_cache s) ->
  let s' := run_ops clock ops s in
  hits (_stats s) <= hits (_stats s')
  /\ misses (_stats s) <= misses (_stats s')
  /\ evictions (_stats s) <= evictions (_stats s')
  /\ expirations (_stats s) <= expirations (_stats s').
Proof.
  intros Hu. destruct (run_ops_effect ops s Hu)
    as (_ & _ & _ & _ & Hh & Hm & _ & He & Hx & _).
  repeat split; assumption.
Qed.

(** X2.  Every [get] is counted exactly once, as a hit or as a miss,
    and nothing else is: after a sequence of public operations
    [hits + misses] has grown by the number of [get] calls in it. *)
Theorem every_get_is_counted (ops : list Op) s :
  unique_keys (_cache s) ->
  let s' := run_ops clock ops s in
  hits (_stats s') + misses (_stats s')
  = hits (_stats s) + misses (_stats s) + Z.of_nat (count_gets ops).
Proof.
  intros Hu. destruct (run_ops_effect ops s Hu)
    as (_ & _ & _ & _ & _ & _ & Hr & _).
  exact Hr.
Qed.

(** X3.  A cache whose persistence is disabled never touches the file
    system: whatever operations run, every path holds what it held. *)
Theorem no_persistence_no_writes (ops : list Op) s :
  unique_keys (_cache s) ->
  enable_persistence (config s) = false ->
  files (world (run_ops clock ops s)) = files (world s).
Proof.
  intros Hu Hoff. destruct (run_ops_effect ops s Hu)
    as (_ & _ & _ & _ & _ & _ & _ & _ & _ & Hf).
  now apply Hf.
Qed.
End EffectFacts.

(** ** The disk never changes what the cache answers *)

Section DiskBlind.
Context {Value : Type} {codec : JSON Value}.
Variable clock : nat -> Z.

Local Abbreviation Entry := (CacheEntry Value).
Local Abbreviation Store := (OrderedDict.t (V := CacheEntry Value)).
Implicit Types (s : State Value) (c : Store) (e : Entry) (k : string).

Lemma same_memory_refl s : same_memory s s.
Proof. repeat split. Qed.

Lemma blind_ret {A : Type} (a : A) : disk_blind (Value := Value) (ret a).
Proof. intros s s' H. split; [reflexivity | exact H]. Qed.

Lemma blind_bind {A B : Type} (m : M Value A) (f : A -> M Value B) :
  disk_blind m -> (forall a, disk_blind (f a)) -> disk_blind (bind m f).
Proof.
  intros Hm Hf s s' H. unfold bind.
  destruct (Hm s s' H) as (Ha & Hmem).
  destruct (m s) as [a s1], (m s') as [a' s1']. simpl in *. subst a'.
  now apply Hf.
Qed.

Lemma blind_gets {A : Type} (f : State Value -> A) :
  (forall s s', same_memory s s' -> f s = f s') -> disk_blind (gets f).
Proof. intros Hf s s' H. split; [now apply Hf | exact H]. Qed.

Lemma blind_modify (f : State Value -> State Value) :
  (forall s s', same_memory s s' -> same_memory (f s) (f s')) ->
  disk_blind (Value := Value) (modify f).
Proof. intros Hf s s' H. split; [reflexivity | now apply Hf]. Qed.

Lemma blind_when (b : bool) (m : M Value unit) :
  disk_blind m -> disk_blind (when b m).
Proof. intros Hm. destruct b; [exact Hm | apply blind_ret]. Qed.

Lemma blind_for_each {A : Type} (xs : list A) (body : A -> M Value unit) :
  (forall x, disk_blind (body x)) -> disk_blind (for_each xs body).
Proof.
  intros Hb. induction xs as [|x r IH]; simpl.
  - apply blind_ret.
  - apply blind_bind; [apply Hb | intros _; exact IH].
Qed.

Lemma blind_config : disk_blind (Value := Value) (gets config).
Proof. apply blind_gets. intros s s' H. apply H. Qed.

Lemma blind_cache : disk_blind (Value := Value) (gets _cache).
Proof. apply blind_gets. intros s s' H. apply H. Qed.

Lemma blind_stats : disk_blind (Value := Value) (gets _stats).
Proof. apply blind_gets. intros s s' H. apply H. Qed.

Lemma blind_time : disk_blind (Value := Value) (time_time clock).
Proof.
  intros s s' (Hc & Hd & Hst & Ht). unfold time_time. simpl.
  rewrite Ht. repeat split; assumption.
Qed.

Lemma blind_del_key k : disk_blind (Value := Value) (del_key k).
Proof.
  apply blind_modify. intros s s' (Hc & Hd & Hst & Ht).
  repeat split; simpl; congruence.
Qed.

Lemma blind_count (f : Stats -> Stats) : disk_blind (Value := Value) (count f).
Proof.
  apply blind_modify. intros s s' (Hc & Hd & Hst & Ht).
  repeat split; simpl; congruence.
Qed.

Lemma blind_set_cache (f : Store -> Store) :
  disk_blind (Value := Value) (modify (fun s => set_cache (f (_cache s)) s)).
Proof.
  apply blind_modify. intros s s' (Hc & Hd & Hst & Ht).
  repeat split; simpl; congruence.
Qed.

Lemma blind_is_expired e : disk_blind (Value := Value) (is_expired clock e).
Proof.
  unfold is_expired. destruct (expires_at e); [|apply blind_ret].
  apply blind_bind; [apply blind_time | intros t; apply blind_ret].
Qed.

(** A save reads the clock once whether or not the write succeeds. *)
Lemma blind_save : disk_blind (Value := Value) (_save_to_storage clock).
Proof.
  unfold _save_to_storage.
  intros s s' H. pose proof H as (Hc & Hd & Hst & Ht).
  unfold bind, gets. cbn [fst snd]. rewrite <- Hc.
  destruct (storage_file (config s)) as [path|]; [|now apply blind_ret].
  destruct (String.eqb path EmptyString); [now apply blind_ret|].
  unfold time_time, modify. cbn [fst snd]. split; [reflexivity|].
  destruct (writable (world s)), (writable (world s')); simpl;
    rewrite <- ?Hd; try destruct (json_entries _);
    repeat split; simpl; congruence.
Qed.

Lemma blind_expired_keys c : disk_blind (Value := Value) (expired_keys_of clock c).
Proof.
  induction c as [|[k e] r IH]; simpl.
  - apply blind_ret.
  - apply blind_bind; [apply blind_is_expired | intros b].
    apply blind_bind; [exact IH | intros ks; apply blind_ret].
Qed.

Lemma blind_cleanup : disk_blind (Value := Value) (_cleanup_expired clock).
Proof.
  unfold _cleanup_expired.
  apply blind_bind; [apply blind_cache | intros c].
  apply blind_bind; [apply blind_expired_keys | intros ks].
  apply blind_bind.
  - apply blind_for_each. intros k.
    apply blind_bind; [apply blind_del_key | intros _; apply blind_count].
  - intros _. apply blind_bind; [apply blind_config | intros cfg].
    apply blind_bind; [apply blind_when, blind_save | intros _; apply blind_ret].
Qed.

Lemma blind_evict : disk_blind (Value := Value) _evict_lru.
Proof.
  unfold _evict_lru.
  apply blind_bind; [apply blind_cache | intros c].
  destruct c as [|kv r]; [apply blind_ret|].
  destruct (py_min _ _) as [victim|]; [|apply blind_ret].
  apply blind_bind; [apply blind_del_key | intros _; apply blind_count].
Qed.

Lemma blind_auto_cleanup (b : bool) :
  disk_blind (Value := Value) (when b (_cleanup_expired clock ;;; ret tt)).
Proof.
  apply blind_when.
  apply blind_bind; [apply blind_cleanup | intros _; apply blind_ret].
Qed.

Lemma blind_set (arg : KeyArg) (v : Value) (ttl : option Z) :
  disk_blind (Value := Value) (set clock arg v ttl).
Proof.
  unfold set. destruct arg as [k|]; [|apply blind_ret].
  destruct (String.eqb k EmptyString); [apply blind_ret|].
  apply blind_bind; [apply blind_config | intros cfg].
  apply blind_bind; [apply blind_auto_cleanup | intros _].
  apply blind_bind; [apply blind_cache | intros c].
  apply blind_bind.
  { apply blind_when.
    apply blind_bind; [apply blind_cleanup | intros _].
    apply blind_bind; [apply blind_cache | intros c'].
    apply blind_when, blind_evict. }
  intros _. apply blind_bind; [apply blind_time | intros t].
  apply blind_bind; [apply blind_cache | intros c2].
  apply blind_bind; [apply blind_when, blind_del_key | intros _].
  apply blind_bind.
  { apply (blind_set_cache (fun d => OrderedDict.setitem d k _)). }
  intros _. apply blind_bind; [apply blind_when, blind_save | intros _].
  apply blind_ret.
Qed.

Lemma blind_get k (default : Value) : disk_blind (Value := Value) (get clock k default).
Proof.
  unfold get. apply blind_bind; [apply blind_cache | intros c].
  destruct (OrderedDict.get c k) as [e|].
  - apply blind_bind; [apply blind_is_expired | intros b]. destruct b.
    + apply blind_bind; [apply blind_del_key | intros _].
      apply blind_bind; [apply blind_count | intros _].
      apply blind_bind; [apply blind_count | intros _].
      apply blind_bind; [apply blind_config | intros cfg].
      apply blind_bind; [apply blind_when, blind_save | intros _; apply blind_ret].
    + apply blind_bind; [apply blind_time | intros t].
      apply blind_bind.
      { apply (blind_set_cache
                 (fun d => OrderedDict.setitem d k (with_last_accessed e t))). }
      intros _. apply blind_bind; [apply blind_count | intros _].
      apply blind_bind.
      { apply (blind_set_cache (fun d => OrderedDict.move_to_end d k)). }
      intros _. apply blind_ret.
  - apply blind_bind; [apply blind_count | intros _; apply blind_ret].
Qed.

Lemma blind_has k : disk_blind (Value := Value) (has clock k).
Proof.
  unfold has. apply blind_bind; [apply blind_cache | intros c].
  destruct (OrderedDict.get c k) as [e|]; [|apply blind_ret].
  apply blind_bind; [apply blind_is_expired | intros b].
  destruct b; [|apply blind_ret].
  apply blind_bind; [apply blind_del_key | intros _].
  apply blind_bind; [apply blind_count | intros _].
  apply blind_bind; [apply blind_config | intros cfg].
  apply blind_bind; [apply blind_when, blind_save | intros _; apply blind_ret].
Qed.

Lemma blind_delete k : disk_blind (Value := Value) (delete clock k).
Proof.
  unfold delete. apply blind_bind; [apply blind_cache | intros c].
  destruct (OrderedDict.contains c k); [|apply blind_ret].
  apply blind_bind; [apply blind_del_key | intros _].
  apply blind_bind; [apply blind_config | intros cfg].
  apply blind_bind; [apply blind_when, blind_save | intros _; apply blind_ret].
Qed.

Lemma blind_clear : disk_blind (Value := Value) (clear clock).
Proof.
  unfold clear. apply blind_bind.
  { apply blind_modify. intros s s' (Hc & Hd & Hst & Ht).
    repeat split; simpl; congruence. }
  intros _. apply blind_bind; [apply blind_config | intros cfg].
  apply blind_when, blind_save.
Qed.

Lemma blind_size : disk_blind (Value := Value) (size clock).
Proof.
  unfold size. apply blind_bind; [apply blind_config | intros cfg].
  apply blind_bind; [apply blind_auto_cleanup | intros _].
  apply blind_bind; [apply blind_cache | intros c; apply blind_ret].
Qed.

Lemma blind_keys : disk_blind (Value := Value) (keys clock).
Proof.
  unfold keys. apply blind_bind; [apply blind_config | intros cfg].
  apply blind_bind; [apply blind_auto_cleanup | intros _].
  apply blind_bind; [apply blind_cache | intros c; apply blind_ret].
Qed.

Lemma blind_get_stats : disk_blind (Value := Value) (get_stats clock).
Proof.
  unfold get_stats. apply blind_bind; [apply blind_config | intros cfg].
  apply blind_bind; [apply blind_auto_cleanup | intros _].
  apply blind_bind; [apply blind_cache | intros c].
  apply blind_bind; [apply blind_stats | intros st; apply blind_ret].
Qed.

(** X4.  Storage failures are not fatal and not even visible: two
    caches with the same configuration, dictionary, counters and clock
    position, one on a disk that accepts writes and one on a disk that
    does not (or that holds other files), get the same result from every
    public method and still agree afterwards. *)
Theorem disk_never_changes_answers (s s' : State Value) :
  same_memory s s' ->
  (forall arg v ttl, fst (set clock arg v ttl s) = fst (set clock arg v ttl s'))
  /\ (forall k d, fst (get clock k d s) = fst (get clock k d s'))
  /\ (forall k, fst (has clock k s) = fst (has clock k s'))
  /\ (forall k, fst (delete clock k s) = fst (delete clock k s'))
  /\ fst (size clock s) = fst (size clock s')
  /\ fst (keys clock s) = fst (keys clock s')
  /\ fst (get_stats clock s) = fst (get_stats clock s')
  /\ (forall ops, same_memory (run_ops clock ops s) (run_ops clock ops s')).
Proof.
  intros H.
  split; [intros; now apply blind_set|].
  split; [intros; now apply blind_get|].
  split; [intros; now apply blind_has|].
  split; [intros; now apply blind_delete|].
  split; [now apply blind_size|].
  split; [now apply blind_keys|].
  split; [now apply blind_get_stats|].
  intros ops. revert s s' H. unfold run_ops.
  induction ops as [|op r IH]; intros s s' H; simpl; [exact H|].
  apply IH. destruct op; simpl.
  - now apply blind_set.
  - now apply blind_get.
  - now apply blind_has.
  - now apply blind_delete.
  - now apply blind_clear.
  - now apply blind_size.
  - now apply blind_keys.
  - now apply blind_get_stats.
Qed.
End DiskBlind.

(** ** Writing, reading back, deleting and clearing *)

Section Lookup.
Context {Value : Type} {codec : JSON Value}.
Variable clock : nat -> Z.

Local Abbreviation Entry := (CacheEntry Value).
Local Abbreviation Store := (OrderedDict.t (V := CacheEntry Value)).
Implicit Types (s : State Value) (c : Store) (e : Entry) (k : string).

(** What [get] and [has] answer for a key whose entry is known. *)
Lemma read_known k e (default : Value) s :
  OrderedDict.get (_cache s) k = Some e ->
  fst (get clock k default s)
  = (if expired_at (clock (ticks (world s))) e then default else value e)
  /\ fst (has clock k s) = negb (expired_at (clock (ticks (world s))) e).
Proof.
  intros Hget. rewrite get_eq, has_eq, Hget.
  destruct (expired_at _ e); split; reflexivity.
Qed.

Lemma read_missing k (default : Value) s :
  OrderedDict.get (_cache s) k = None ->
  fst (get clock k default s) = default
  /\ has clock k s = (false, s)
  /\ delete clock k s = (false, s).
Proof.
  intros Hget. rewrite get_eq, has_eq, delete_eq, Hget.
  apply contains_false in Hget. rewrite Hget. repeat split.
Qed.

(** The entry that [set] leaves under its key. *)
Lemma set_writes_entry k (v : Value) (ttl : option Z) s :
  unique_keys (_cache s) -> k <> EmptyString ->
  let s' := snd (set clock (KStr k) v ttl s) in
  exists i rest,
    let new := fresh_entry k v (effective_ttl (config s) ttl) (clock i) in
    (ticks (world s) <= i < ticks (world s'))%nat
    /\ _cache s' = rest ++ [(k, new)]
    /\ OrderedDict.get (_cache s') k = Some new.
Proof.
  intros Hu Hk. cbv zeta. rewrite set_eq by assumption. cbn [snd].
  set (s2 := made_room clock k (precleaned clock s)).
  assert (Sh : shrinks s s2).
  { eapply shrinks_trans; [apply shrinks_precleaned | apply shrinks_made_room]. }
  pose proof Sh as (C2 & _ & T2).
  assert (Hu2 : unique_keys (_cache s2)) by (eapply shrinks_unique; eassumption).
  destruct (stored_cache clock k v ttl s2 Hu2) as (rest & Heq & _ & _ & Hnone).
  destruct (persisted_frame clock (stored clock k v ttl s2))
    as (_ & Hc' & _ & _ & Ht').
  set (s' := persisted clock (stored clock k v ttl s2)) in *.
  simpl in Ht'.
  assert (Hcache : _cache s'
            = rest ++ [(k, fresh_entry k v (effective_ttl (config s) ttl)
                             (clock (ticks (world s2))))])
    by (rewrite Hc', Heq, C2; reflexivity).
  exists (ticks (world s2)), rest.
  split; [lia|]. split; [exact Hcache|].
  rewrite Hcache. now apply get_snoc_same.
Qed.

(** X5.  Insert and look up.  After [set(k, v, ttl)] with a valid key,
    present before or not, [k] is stored at the most-recently-used end
    with the entry written at a clock reading of the call; [get(k)]
    then returns [v] and [has(k)] is [True] exactly when that entry is
    not expired at the reading they take, else [default] and [False]. *)
Theorem set_then_get k (v : Value) (ttl : option Z) (default : Value) s :
  unique_keys (_cache s) -> k <> EmptyString ->
  let s' := snd (set clock (KStr k) v ttl s) in
  exists i rest,
    let new := fresh_entry k v (effective_ttl (config s) ttl) (clock i) in
    (ticks (world s) <= i < ticks (world s'))%nat
    /\ _cache s' = rest ++ [(k, new)]
    /\ OrderedDict.get (_cache s') k = Some new
    /\ fst (get clock k default s')
       = (if expired_at (clock (ticks (world s'))) new then default else v)
    /\ fst (has clock k s')
       = negb (expired_at (clock (ticks (world s'))) new).
Proof.
  intros Hu Hk.
  destruct (set_writes_entry k v ttl s Hu Hk) as (i & rest & Hi & Hc & Hgot).
  exists i, rest. cbv zeta in *.
  split; [exact Hi|]. split; [exact Hc|]. split; [exact Hgot|].
  exact (read_known k _ default _ Hgot).
Qed.

(** X6.  [delete(k)] returns whether [k] was in the dictionary; a
    missing key leaves the state untouched; afterwards [k] is absent
    while every other key keeps its entry, so [has(k)] is [False],
    [get(k)] gives the default and a second [delete(k)] returns
    [False]. *)
Theorem delete_removes k (default : Value) s :
  unique_keys (_cache s) ->
  let r := delete clock k s in
  fst r = OrderedDict.contains (_cache s) k
  /\ (OrderedDict.contains (_cache s) k = false -> snd r = s)
  /\ OrderedDict.get (_cache (snd r)) k = None
  /\ (forall k', k' <> k ->
        OrderedDict.get (_cache (snd r)) k' = OrderedDict.get (_cache s) k')
  /\ fst (has clock k (snd r)) = false
  /\ fst (get clock k default (snd r)) = default
  /\ fst (delete clock k (snd r)) = false.
Proof.
  intros Hu. cbv zeta.
  assert (Hc : _cache (snd (delete clock k s))
          = OrderedDict.delitem (_cache s) k).
  { rewrite delete_eq.
    destruct (OrderedDict.contains (_cache s) k) eqn:Hin; cbn [snd].
    - destruct (persisted_frame clock
                  (set_cache (OrderedDict.delitem (_cache s) k) s))
        as (_ & Hp & _). exact Hp.
    - apply contains_false in Hin. now rewrite delitem_absent. }
  assert (Hnone : OrderedDict.get (_cache (snd (delete clock k s))) k = None)
    by (rewrite Hc; now apply delitem_get_same).
  destruct (read_missing k default _ Hnone) as (Hg & Hh & Hd).
  split; [rewrite delete_eq; now destruct (OrderedDict.contains (_cache s) k)|].
  split; [intros Hin; rewrite delete_eq, Hin; reflexivity|].
  split; [exact Hnone|].
  split; [intros k' Hne; rewrite Hc; now apply delitem_get_other|].
  split; [now rewrite Hh|]. split; [exact Hg | now rewrite Hd].
Qed.

Lemma cleaned_empty s : _cache s = [] -> cleaned clock s = s.
Proof.
  intros He. unfold cleaned, purged. rewrite He. simpl.
  rewrite <- He. destruct s as [cfg c [h m ev ex] [t fs wr]]; simpl.
  unfold add_expirations, at_tick. simpl. now rewrite Z.add_0_r.
Qed.

(** X7.  [clear()] empties the dictionary and changes no counter;
    afterwards [size()] is 0, [keys()] is empty, no key is found, and
    a second [clear()] leaves the dictionary empty and the counters as
    they are. *)
Theorem clear_empties (default : Value) s :
  let s' := snd (clear clock s) in
  _cache s' = [] /\ _stats s' = _stats s
  /\ fst (size clock s') = 0
  /\ fst (keys clock s') = []
  /\ (forall k, fst (has clock k s') = false
                /\ fst (get clock k default s') = default
                /\ fst (delete clock k s') = false)
  /\ _cache (snd (clear clock s')) = []
  /\ _stats (snd (clear clock s')) = _stats s.
Proof.
  cbv zeta.
  assert (Hclear : forall s0, _cache (snd (clear clock s0)) = []
                              /\ _stats (snd (clear clock s0)) = _stats s0).
  { intros s0. rewrite clear_eq. cbn [snd].
    destruct (persisted_frame clock (set_cache [] s0)) as (_ & Hc & Hst & _).
    split; assumption. }
  destruct (Hclear s) as (Hc & Hst).
  set (s' := snd (clear clock s)) in *.
  assert (Hu : unique_keys (_cache s')) by (rewrite Hc; constructor).
  assert (Hpre : _cache (precleaned clock s') = []).
  { unfold precleaned. destruct (auto_cleanup (config s')); [|exact Hc].
    now rewrite cleaned_empty. }
  split; [exact Hc|]. split; [exact Hst|].
  split; [rewrite size_eq by assumption; cbn [fst]; now rewrite Hpre|].
  split; [rewrite keys_eq by assumption; cbn [fst]; now rewrite Hpre|].
  split.
  - intros k.
    assert (Hnone : OrderedDict.get (_cache s') k = None) by now rewrite Hc.
    destruct (read_missing k default s' Hnone) as (Hg & Hh & Hd).
    rewrite Hh, Hd. repeat split. exact Hg.
  - destruct (Hclear s') as (Hc2 & Hst2). split; [exact Hc2 | congruence].
Qed.

Lemma survivors_keep_immortal (t : nat) c k e :
  In (k, e) c -> expires_at e = None -> In (k, e) (survivors clock t c).
Proof.
  intros Hin Hnever.
  destruct (purged_seen_expired clock t c k e Hin) as [H|(i & _ & Hdead)];
    [assumption|].
  unfold expired_at in Hdead. rewrite Hnever in Hdead. discriminate.
Qed.

(** X8.  [keys()] and [size()].  They answer with the keys, in recency
    order, and the number of entries of the dictionary they leave, and
    [size()] is the length of [keys()].  Without [auto_cleanup] that is
    the dictionary as it stands, expired entries included, and the
    state is not changed.  With [auto_cleanup] the keys are some of the
    stored keys in their order, the entries without expiry time are
    all among them and, the clock being monotone, none of them was
    expired when the call started. *)
Theorem keys_and_size s :
  unique_keys (_cache s) ->
  let ks := fst (keys clock s) in
  fst (size clock s) = Z.of_nat (length ks)
  /\ ks = OrderedDict.keys (_cache (snd (keys clock s)))
  /\ snd (size clock s) = snd (keys clock s)
  /\ subseq ks (OrderedDict.keys (_cache s))
  /\ (auto_cleanup (config s) = false ->
      ks = OrderedDict.keys (_cache s) /\ snd (keys clock s) = s)
  /\ (auto_cleanup (config s) = true ->
      (forall k e, In (k, e) (_cache s) -> expires_at e = None -> In k ks)
      /\ (monotone clock ->
          forall k, In k ks ->
            exists e, OrderedDict.get (_cache s) k = Some e
                      /\ expired_at (clock (ticks (world s))) e = false)).
Proof.
  intros Hu. cbv zeta.
  rewrite size_eq, keys_eq by assumption. cbn [fst snd].
  pose proof (shrinks_precleaned clock s) as (_ & Hsub & _).
  split; [unfold OrderedDict.len, OrderedDict.keys; now rewrite length_map|].
  split; [reflexivity|]. split; [reflexivity|].
  split; [now apply subseq_map|].
  unfold precleaned. split.
  - intros Hoff. rewrite Hoff. split; reflexivity.
  - intros Hon. rewrite Hon.
    destruct (cleaned_frame clock s) as (_ & Hc & _). rewrite Hc. split.
    + intros k e Hin Hnever. change k with (fst (k, e)). apply in_map.
      now apply survivors_keep_immortal.
    + intros Hmono k Hin. unfold OrderedDict.keys in Hin.
      apply in_map_iff in Hin. destruct Hin as ([k' e] & Hk & Hin).
      simpl in Hk. subst k'. exists e. split.
      * apply In_get_Some; [assumption|].
        eapply subseq_In; [apply survivors_subseq | eassumption].
      * eapply survivors_not_expired; eassumption.
Qed.
End Lookup.

(** ** Loading and saving *)

Section Storage.
Context {Value : Type} {codec : JSON Value}.
Variable clock : nat -> Z.

Local Abbreviation Entry := (CacheEntry Value).
Local Abbreviation Store := (OrderedDict.t (V := CacheEntry Value)).
Implicit Types (s : State Value) (c : Store) (e : Entry) (k : string).

(** X9.  A cache starts empty, with its counters at zero and without
    reading the clock or touching the disk, when persistence is
    disabled, when no usable path is configured, when the file does not
    exist, when it is not JSON and when it holds no ['entries']. *)
Theorem load_failures_start_empty (cfg : CacheConfig) (w : World Value) :
  enable_persistence cfg = false
  \/ storage_file cfg = None
  \/ storage_file cfg = Some EmptyString
  \/ (exists path,
        storage_file cfg = Some path
        /\ (files w path = None \/ files w path = Some NotJSON
            \/ files w path = Some NoEntries)) ->
  Cache_init clock (Some cfg) w = mkState cfg [] (mkStats 0 0 0 0) w.
Proof.
  intros H. unfold Cache_init.
  destruct (enable_persistence cfg) eqn:Hp; [|reflexivity].
  unfold _load_from_storage. erewrite bind_run by reflexivity. cbn [config].
  destruct H as [H|[H|[H|(path & Hfile & H)]]].
  - discriminate.
  - rewrite H. reflexivity.
  - rewrite H. reflexivity.
  - rewrite Hfile. destruct (String.eqb path EmptyString); [reflexivity|].
    erewrite bind_run by reflexivity. cbn [world files].
    destruct H as [->|[->| ->]]; reflexivity.
Qed.

Lemma dict_of_keys (l : list Entry) : OrderedDict.keys (dict_of l) = map key l.
Proof. unfold dict_of, OrderedDict.keys. rewrite map_map. reflexivity. Qed.

(** Loading entries with fresh, distinct keys appends those that are
    not skipped, in order. *)
Lemma load_distinct (now : Z) (l : list Entry) (acc : Store) :
  NoDup (OrderedDict.keys acc ++ map key l) ->
  fold_left (load_step now) l acc
  = acc ++ dict_of (filter (fun e => negb (skipped_on_load now e)) l).
Proof.
  revert acc. induction l as [|e r IH]; intros acc Hnd; simpl.
  - now rewrite app_nil_r.
  - unfold load_step at 2.
    destruct (skipped_on_load now e); simpl.
    + apply IH. now apply NoDup_remove_1 in Hnd.
    + rewrite setitem_absent.
      * rewrite IH; [now rewrite <- app_assoc|].
        rewrite keys_app. simpl. rewrite <- app_assoc. exact Hnd.
      * apply get_None_keys. apply NoDup_remove_2 in Hnd.
        intros Hin. apply Hnd. apply in_app_iff. now left.
Qed.

Lemma skipped_iff (now : Z) e :
  skipped_on_load now e = true
  <-> exists x, expires_at e = Some x /\ x <> 0 /\ now > x.
Proof.
  unfold skipped_on_load, truthy_time, expired_at.
  destruct (expires_at e) as [x|]; simpl.
  - rewrite andb_true_iff, negb_true_iff, Z.eqb_neq, Z.gtb_lt. split.
    + intros (Hx & Hlt). exists x. repeat split; auto. lia.
    + intros (y & [= <-] & Hy & Hgt). split; [assumption | lia].
  - split; [discriminate | intros (x & H & _); discriminate].
Qed.

(** X10.  Partial corruption.  When the file holds a snapshot whose
    well-formed elements have distinct keys, the constructor reads the
    clock once and loads exactly the well-formed elements it does not
    skip, in file order and as they are; a malformed element is passed
    over and the elements after it still load.  An element is skipped
    exactly when its [expires_at] is a non-zero time earlier than the
    load time, so an element whose [expires_at] is 0 is loaded at any
    time. *)
Theorem load_skips_bad_entries (cfg : CacheConfig) (w : World Value)
    (path version : string) (stamp : Z) (entries : list (EntryData Value)) :
  enable_persistence cfg = true ->
  storage_file cfg = Some path -> path <> EmptyString ->
  files w path = Some (Snapshot version stamp entries) ->
  NoDup (map key (entries_of entries)) ->
  let now := clock (ticks w) in
  Cache_init clock (Some cfg) w
  = mkState cfg
      (dict_of (filter (fun e => negb (skipped_on_load now e))
                  (entries_of entries)))
      (mkStats 0 0 0 0) (tick w)
  /\ (forall e, skipped_on_load now e = true
                <-> exists x, expires_at e = Some x /\ x <> 0 /\ now > x)
  /\ (forall e, In e (entries_of entries) -> expired_at now e = false ->
        OrderedDict.get (_cache (Cache_init clock (Some cfg) w)) (key e)
        = Some e).
Proof.
  intros Hp Hfile Hne Hsnap Hnd now.
  assert (Hinit : Cache_init clock (Some cfg) w
            = mkState cfg
                (dict_of (filter (fun e => negb (skipped_on_load now e))
                            (entries_of entries)))
                (mkStats 0 0 0 0) (tick w)).
  { rewrite (init_from_snapshot clock cfg w path version stamp entries
               Hp Hfile Hne Hsnap).
    rewrite load_distinct by exact Hnd. reflexivity. }
  split; [exact Hinit|]. split; [intros e; apply skipped_iff|].
  intros e Hin Hlive. rewrite Hinit. cbn [_cache].
  apply In_get_Some.
  - rewrite dict_of_keys.
    clear Hinit Hin. induction (entries_of entries) as [|x r IH]; simpl.
    + constructor.
    + inversion Hnd as [|? ? Hx Hr]; subst.
      destruct (negb (skipped_on_load now x)); simpl; [|now apply IH].
      constructor; [|now apply IH].
      intros Hin. apply Hx. apply in_map_iff in Hin.
      destruct Hin as (y & Hy & Hin). apply filter_In in Hin.
      rewrite <- Hy. apply in_map. apply Hin.
  - unfold dict_of. apply in_map_iff. exists e. split; [reflexivity|].
    apply filter_In. split; [assumption|].
    now rewrite alive_not_skipped.
Qed.

(** The state that a save leaves on a writable disk. *)
Lemma save_outcome s (path : string) :
  storage_file (config s) = Some path -> path <> EmptyString ->
  writable (world s) = true ->
  let s' := snd (_save_to_storage clock s) in
  _cache s' = _cache s
  /\ ticks (world s') = S (ticks (world s))
  /\ match json_store (_cache s') with
     | Some c' =>
         files (world s') path = Some (snapshot (clock (ticks (world s))) c')
         /\ files (world s') (String.append path ".tmp") = None
     | None =>
         files (world s') path = files (world s) path
         /\ files (world s') (String.append path ".tmp") = Some NotJSON
     end.
Proof.
  intros Hfile Hne Hw.
  destruct (save_frame clock s) as (_ & Hc & _).
  cbv zeta. rewrite Hc. split; [reflexivity|].
  destruct (json_store (_cache s)) as [c'|] eqn:Hjs.
  - destruct (save_writes clock s path c' Hfile Hne Hw Hjs) as (Hf & Htmp & Ht).
    auto.
  - destruct (save_fails clock s path Hfile Hne Hw Hjs) as (Hf & Htmp & Ht).
    auto.
Qed.

(** The file after the save that ends a mutating method. *)
Lemma persisted_in_step s0 (path : string) :
  enable_persistence (config s0) = true ->
  storage_file (config s0) = Some path -> path <> EmptyString ->
  writable (world s0) = true ->
  match json_store (_cache (persisted clock s0)) with
  | Some c' =>
      (exists stamp,
         files (world (persisted clock s0)) path = Some (snapshot stamp c'))
      /\ files (world (persisted clock s0)) (String.append path ".tmp") = None
  | None =>
      files (world (persisted clock s0)) path = files (world s0) path
      /\ files (world (persisted clock s0)) (String.append path ".tmp")
         = Some NotJSON
  end.
Proof.
  intros Hp Hfile Hne Hw. unfold persisted. rewrite Hp.
  destruct (save_outcome s0 path Hfile Hne Hw) as (_ & _ & Hf).
  destruct (json_store _); [|exact Hf].
  destruct Hf as (Hf & Htmp). split; [eexists; exact Hf | exact Htmp].
Qed.

Lemma set_in_step s (path : string) k (v : Value) (ttl : option Z) :
  unique_keys (_cache s) ->
  enable_persistence (config s) = true ->
  storage_file (config s) = Some path -> path <> EmptyString ->
  writable (world s) = true -> k <> EmptyString ->
  let s' := snd (set clock (KStr k) v ttl s) in
  match json_store (_cache s') with
  | Some c' =>
      (exists stamp, files (world s') path = Some (snapshot stamp c'))
      /\ files (world s') (String.append path ".tmp") = None
  | None => files (world s') (String.append path ".tmp") = Some NotJSON
  end.
Proof.
  intros Hu Hp Hfile Hne Hw Hk. cbv zeta.
  rewrite set_eq by assumption. cbn [snd].
  set (s2 := made_room clock k (precleaned clock s)).
  assert (Hc2 : config s2 = config s).
  { unfold s2. rewrite made_room_config. apply precleaned_config. }
  assert (Hw2 : writable (world s2) = true).
  { pose proof (effect_precleaned clock s) as (_ & W1 & _).
    pose proof (effect_made_room clock k (precleaned clock s)) as (_ & W2 & _).
    fold s2 in W2. congruence. }
  pose proof (persisted_in_step (stored clock k v ttl s2) path) as H.
  cbn [stored config world tick writable] in H.
  rewrite Hc2 in H. specialize (H Hp Hfile Hne Hw2).
  destruct (json_store _); [exact H | apply H].
Qed.

(** X11.  No batching, and what a value that JSON cannot encode does.
    With persistence enabled on a writable disk, when [set] (valid
    key), [delete] (key present) or [clear] returns and [json.dump]
    accepts every value of the dictionary the call leaves, the storage
    file holds that dictionary as JSON gives it back, stamped with a
    clock reading, and the temporary file is gone.  When [json.dump]
    raises on one of the values, the call returns all the same, the
    temporary file is left with text that is not JSON, and after
    [delete] or [clear] the storage file is what it was. *)
Theorem mutations_reach_the_disk s (path : string) :
  unique_keys (_cache s) ->
  enable_persistence (config s) = true ->
  storage_file (config s) = Some path -> path <> EmptyString ->
  writable (world s) = true ->
  let temp := String.append path ".tmp" in
  let synced (s' : State Value) (unchanged : Prop) :=
    match json_store (_cache s') with
    | Some c' =>
        (exists stamp, files (world s') path = Some (snapshot stamp c'))
        /\ files (world s') temp = None
    | None => files (world s') temp = Some NotJSON /\ unchanged
    end in
  (forall k v ttl, k <> EmptyString ->
     fst (set clock (KStr k) v ttl s) = Return true
     /\ synced (snd (set clock (KStr k) v ttl s)) True)
  /\ (forall k, OrderedDict.contains (_cache s) k = true ->
        synced (snd (delete clock k s))
          (files (world (snd (delete clock k s))) path = files (world s) path))
  /\ synced (snd (clear clock s))
       (files (world (snd (clear clock s))) path = files (world s) path).
Proof.
  intros Hu Hp Hfile Hne Hw. cbv zeta.
  split; [|split].
  - intros k v ttl Hk. split.
    + rewrite set_eq by assumption. reflexivity.
    + pose proof (set_in_step s path k v ttl Hu Hp Hfile Hne Hw Hk) as H.
      cbv zeta in H. destruct (json_store _); [exact H | now split].
  - intros k Hin. rewrite delete_eq, Hin. cbn [snd].
    pose proof (persisted_in_step
                  (set_cache (OrderedDict.delitem (_cache s) k) s) path
                  Hp Hfile Hne Hw) as H.
    destruct (json_store _); [exact H|].
    destruct H as (Hf & Htmp). split; [exact Htmp | exact Hf].
  - rewrite clear_eq. cbn [snd].
    pose proof (persisted_in_step (set_cache [] s) path Hp Hfile Hne Hw) as H.
    destruct (json_store _); [exact H|].
    destruct H as (Hf & Htmp). split; [exact Htmp | exact Hf].
Qed.

(** X12.  A write survives a restart as JSON gives it back.  A cache
    that persists to a writable disk stores [v] under a valid key; a
    second cache is then constructed on the same file.  When
    [json.dump] accepts every value of the first dictionary, the second
    dictionary is that dictionary as JSON gives it back, without the
    entries that the load skips, and [get(k)] on it returns the value
    that JSON gives back for [v], provided the entry written is expired
    neither at the load time nor when [get] reads the clock.  When
    [json.dump] raises, the save is lost and the temporary file is left
    behind. *)
Theorem write_survives_restart s (path : string) k (v : Value)
    (ttl : option Z) (cfg2 : CacheConfig) (default : Value) :
  unique_keys (_cache s) -> keys_agree (_cache s) ->
  enable_persistence (config s) = true ->
  storage_file (config s) = Some path -> path <> EmptyString ->
  writable (world s) = true -> k <> EmptyString ->
  enable_persistence cfg2 = true -> storage_file cfg2 = Some path ->
  let s1 := snd (set clock (KStr k) v ttl s) in
  let s2 := Cache_init clock (Some cfg2) (world s1) in
  let load_time := clock (ticks (world s1)) in
  match json_store (_cache s1) with
  | Some c' =>
      _cache s2
      = filter (fun kv => negb (skipped_on_load load_time (snd kv))) c'
      /\ exists e v',
           OrderedDict.get (_cache s1) k = Some e /\ value e = v
           /\ json_roundtrip v = Some v'
           /\ (expired_at load_time e = false ->
               expired_at (clock (ticks (world s2))) e = false ->
               fst (get clock k default s2) = v')
  | None => files (world s1) (String.append path ".tmp") = Some NotJSON
  end.
Proof.
  intros Hu Ha Hp Hfile Hne Hw Hk Hp2 Hfile2 s1 s2 load_time.
  destruct (run_ops_well_formed clock [OpSet (KStr k) v ttl] s (conj Hu Ha))
    as (Hu1 & Ha1).
  change (run_ops clock [OpSet (KStr k) v ttl] s) with s1 in Hu1, Ha1.
  pose proof (set_in_step s path k v ttl Hu Hp Hfile Hne Hw Hk) as Hstep.
  cbv zeta in Hstep. fold s1 in Hstep.
  destruct (json_store (_cache s1)) as [c'|] eqn:Hjs; [|exact Hstep].
  destruct Hstep as ((stamp & Hf) & _).
  pose proof (json_store_keys _ _ Hjs) as Hkeys.
  assert (Hu' : unique_keys c') by (unfold unique_keys; now rewrite Hkeys).
  assert (Ha' : keys_agree c') by (eapply json_store_agree; eassumption).
  assert (Hc2 : _cache s2
            = filter (fun kv => negb (skipped_on_load load_time (snd kv))) c').
  { unfold s2. unfold snapshot in Hf.
    rewrite (init_from_snapshot clock cfg2 (world s1) path _ _ _
               Hp2 Hfile2 Hne Hf).
    rewrite entries_of_to_dict. cbn [_cache].
    rewrite load_own_values; auto. }
  split; [exact Hc2|].
  destruct (set_writes_entry clock k v ttl s Hu Hk)
    as (i & rest & _ & _ & Hget).
  fold s1 in Hget. cbv zeta in Hget.
  set (e := fresh_entry k v (effective_ttl (config s) ttl) (clock i)) in *.
  assert (Hv : value e = v) by reflexivity.
  destruct (json_store_In _ _ _ _ Hjs (get_Some_In _ _ _ Hget))
    as (v' & Hrt & Hin').
  exists e, v'. split; [exact Hget|]. split; [exact Hv|].
  split; [rewrite <- Hv; exact Hrt|].
  intros Hlive Hstill.
  assert (Hgot : OrderedDict.get (_cache s2) k = Some (with_value e v')).
  { apply In_get_Some.
    - rewrite Hc2. unfold unique_keys in Hu'.
      eapply subseq_NoDup; [|exact Hu']. apply subseq_map.
      apply filter_subseq.
    - rewrite Hc2. apply filter_In. split; [assumption|].
      cbn [snd]. now rewrite alive_not_skipped. }
  destruct (read_known clock k (with_value e v') default s2 Hgot) as (Hread & _).
  rewrite Hread.
  change (expired_at (clock (ticks (world s2))) (with_value e v'))
    with (expired_at (clock (ticks (world s2))) e).
  rewrite Hstill. reflexivity.
Qed.
End Storage.

(** ** When [set] does not evict, and whom it spares *)

Section EvictionMore.
Context {Value : Type} {codec : JSON Value}.
Variable clock : nat -> Z.

Local Abbreviation Entry := (CacheEntry Value).
Local Abbreviation Store := (OrderedDict.t (V := CacheEntry Value)).
Implicit Types (s : State Value) (c : Store) (e : Entry) (k : string).

Lemma survivors_app (t : nat) (c1 c2 : Store) :
  survivors clock t (c1 ++ c2)
  = survivors clock t c1 ++ survivors clock (scan_end t c1) c2.
Proof.
  revert t. induction c1 as [|[k e] r IH]; intros t; simpl; [reflexivity|].
  destruct (expired_at _ e); simpl; now rewrite IH.
Qed.

(** A cleanup pass keeps a last entry that never expires in last place. *)
Lemma cleaned_keeps_last s (rest : Store) k e :
  _cache s = rest ++ [(k, e)] -> expires_at e = None ->
  exists rest',
    _cache (cleaned clock s) = rest' ++ [(k, e)] /\ subseq rest' rest.
Proof.
  intros Hc Hnever.
  destruct (cleaned_frame clock s) as (_ & Hd & _). rewrite Hd, Hc.
  rewrite survivors_app. simpl. unfold expired_at. rewrite Hnever.
  eexists. split; [reflexivity | apply survivors_subseq].
Qed.

(** X13.  [set] evicts only a full cache for a new key.  In a cache
    within capacity, a [set] on a key that is present, or while fewer
    than [max_size] entries are stored, leaves [evictions] as it is and
    keeps every other entry that has no expiry time under its key. *)
Theorem no_eviction_with_room k (v : Value) (ttl : option Z) s :
  unique_keys (_cache s) -> k <> EmptyString ->
  within_capacity s ->
  OrderedDict.contains (_cache s) k = true
  \/ OrderedDict.len (_cache s) < max_size (config s) ->
  let s' := snd (set clock (KStr k) v ttl s) in
  evictions (_stats s') = evictions (_stats s)
  /\ (forall k' e, k' <> k -> OrderedDict.get (_cache s) k' = Some e ->
        expires_at e = None -> OrderedDict.get (_cache s') k' = Some e).
Proof.
  intros Hu Hk Hcap Hroom. cbv zeta.
  rewrite set_eq by assumption. cbn [snd].
  set (s1 := precleaned clock s).
  pose proof (shrinks_precleaned clock s) as Sh1. fold s1 in Sh1.
  pose proof Sh1 as (C1 & Sub1 & _).
  assert (Hu1 : unique_keys (_cache s1)) by (eapply shrinks_unique; eassumption).
  pose proof (effect_precleaned clock s) as (_ & _ & _ & _ & _ & _ & Ev1 & _).
  fold s1 in Ev1.
  assert (Hsame : evictions (_stats s1) = evictions (_stats s)).
  { unfold s1, precleaned. destruct (auto_cleanup (config s)); [|reflexivity].
    apply cleaned_frame. }
  assert (Hstay : made_room clock k s1 = s1).
  { unfold made_room.
    destruct (OrderedDict.contains (_cache s1) k) eqn:Hin1; [reflexivity|].
    cbn [negb andb].
    destruct (Z.geb_spec (OrderedDict.len (_cache s1)) (max_size (config s1)))
      as [Hfull|]; [|reflexivity].
    exfalso. rewrite C1 in Hfull.
    pose proof (subseq_length _ _ Sub1) as Hlen.
    unfold within_capacity, OrderedDict.len in *.
    destruct Hroom as [Hin|Hlt]; [|lia].
    assert (Hshort : (length (_cache s1) < length (_cache s))%nat).
    { unfold OrderedDict.contains in Hin.
      destruct (OrderedDict.get (_cache s) k) as [e|] eqn:Hget; [|discriminate].
      apply (subseq_missing_shorter _ _ (k, e)); [assumption | |].
      - now apply get_Some_In.
      - intros Hin'. apply (In_get_Some _ _ _ Hu1) in Hin'.
        apply contains_false in Hin1. congruence. }
    lia. }
  rewrite Hstay.
  destruct (stored_cache clock k v ttl s1 Hu1) as (rest & Heq & Hrest & _ & Hnone).
  destruct (persisted_frame clock (stored clock k v ttl s1))
    as (_ & Hc' & Hst' & _).
  rewrite Hc', Hst', Heq. cbn [stored _stats]. split; [exact Hsame|].
  intros k' e Hne Hget Hnever.
  assert (Hin1 : In (k', e) (_cache s1)).
  { apply get_Some_In in Hget. unfold s1, precleaned.
    destruct (auto_cleanup (config s)); [|assumption].
    destruct (cleaned_frame clock s) as (_ & Hd & _). rewrite Hd.
    now apply survivors_keep_immortal. }
  apply (In_get_Some _ _ _ Hu1) in Hin1.
  assert (Hrest' : OrderedDict.get rest k' = Some e).
  { rewrite Hrest. destruct (OrderedDict.contains (_cache s1) k); [|assumption].
    now rewrite delitem_get_other. }
  clear - Hrest' Hne. induction rest as [|[k0 e0] r IH]; simpl in *.
  - discriminate.
  - destruct (String.eqb k0 k'); [assumption | now apply IH].
Qed.

(** The eviction of a dictionary ordered by access time removes its head. *)
Lemma evict_sorted_head s (kv : string * Entry) (r : Store) :
  unique_keys (_cache s) -> access_sorted (_cache s) ->
  _cache s = kv :: r ->
  _cache (snd (_evict_lru s)) = r.
Proof.
  intros Hu Hs Hc.
  assert (Hne : _cache s <> []) by (rewrite Hc; discriminate).
  destruct (evict_first_oldest s Hu Hne)
    as (pre & victim & post & Hsplit & Hpre & _ & Hev).
  rewrite Hsplit in Hs.
  pose proof (sorted_prefix_empty pre post victim Hs Hpre) as ->.
  rewrite Hev. cbn [_cache]. simpl in *.
  rewrite Hc in Hsplit. now injection Hsplit as _ ->.
Qed.

(** X14.  A read protects from the next eviction.  In a state that
    keeps the recency invariant, under a monotone clock and with room
    for at least two entries, a hit on a key [k] whose entry has no
    expiry time followed by a [set] on another valid key leaves [k] in
    the cache with its value: the entry that [set] may evict is not the
    one just read. *)
Theorem hit_protects_from_eviction k e k2 (v default : Value)
    (ttl : option Z) s :
  monotone clock -> recency_inv clock s ->
  2 <= max_size (config s) ->
  OrderedDict.get (_cache s) k = Some e -> expires_at e = None ->
  k2 <> EmptyString -> k2 <> k ->
  let s1 := snd (get clock k default s) in
  let s2 := snd (set clock (KStr k2) v ttl s1) in
  fst (get clock k default s) = value e
  /\ exists e', OrderedDict.get (_cache s2) k = Some e' /\ value e' = value e.
Proof.
  intros Hmono Hinv Hmax Hget Hnever Hk2 Hne s1 s2.
  assert (Hlive : expired_at (clock (ticks (world s))) e = false)
    by (unfold expired_at; now rewrite Hnever).
  assert (Hs1 : s1 = touched clock k e s)
    by (unfold s1; rewrite get_eq, Hget, Hlive; reflexivity).
  split; [rewrite get_eq, Hget, Hlive; reflexivity|].
  set (e' := with_last_accessed e
               (clock (tick_after (ticks (world s)) e))).
  assert (Hnever' : expires_at e' = None) by exact Hnever.
  assert (Hinv1 : recency_inv clock s1)
    by (rewrite Hs1; now apply touched_recency).
  assert (Hlast1 : exists rest, _cache s1 = rest ++ [(k, e')])
    by (rewrite Hs1; eexists; reflexivity).
  assert (Hcfg1 : config s1 = config s) by (rewrite Hs1; reflexivity).
  exists e'. split; [|reflexivity].
  (* the cleanup that opens [set] *)
  set (sa := precleaned clock s1).
  assert (Hinva : recency_inv clock sa).
  { eapply shrinks_recency; [assumption | apply shrinks_precleaned | assumption]. }
  assert (Hlasta : exists rest, _cache sa = rest ++ [(k, e')]).
  { unfold sa, precleaned. destruct (auto_cleanup (config s1)); [|assumption].
    destruct Hlast1 as (rest & Hc).
    destruct (cleaned_keeps_last s1 rest k e' Hc Hnever') as (rest' & Hc' & _).
    now exists rest'. }
  assert (Hcfga : config sa = config s).
  { unfold sa. now rewrite precleaned_config. }
  (* the capacity check *)
  set (sb := made_room clock k2 sa).
  assert (Hinvb : recency_inv clock sb).
  { eapply shrinks_recency; [assumption | apply shrinks_made_room | assumption]. }
  assert (Hinb : In (k, e') (_cache sb)).
  { unfold sb, made_room. destruct (negb _ && _).
    - destruct Hlasta as (rest & Hc).
      destruct (cleaned_keeps_last sa rest k e' Hc Hnever') as (rest' & Hc' & _).
      assert (Hinvc : recency_inv clock (cleaned clock sa)).
      { eapply shrinks_recency; [assumption | apply shrinks_cleaned | assumption]. }
      destruct (Z.geb_spec (OrderedDict.len (_cache (cleaned clock sa)))
                  (max_size (config sa))) as [Hfull|].
      + rewrite Hcfga in Hfull. unfold OrderedDict.len in Hfull.
        rewrite Hc', length_app in Hfull. simpl in Hfull.
        destruct rest' as [|kv r']; [simpl in Hfull; lia|].
        destruct Hinvc as (Huc & Hsc & _).
        rewrite (evict_sorted_head (cleaned clock sa) kv (r' ++ [(k, e')])
                   Huc Hsc Hc').
        apply in_app_iff. right. now left.
      + rewrite Hc'. apply in_app_iff. right. now left.
    - destruct Hlasta as (rest & Hc). rewrite Hc.
      apply in_app_iff. right. now left. }
  destruct Hinvb as (Hub & _).
  apply (In_get_Some _ _ _ Hub) in Hinb.
  (* the write *)
  unfold s2. rewrite set_eq by (assumption || apply Hinv1). cbn [snd].
  fold sa. fold sb.
  destruct (stored_cache clock k2 v ttl sb Hub) as (rest & Heq & Hrest & _ & _).
  destruct (persisted_frame clock (stored clock k2 v ttl sb)) as (_ & Hc' & _).
  rewrite Hc', Heq.
  assert (Hrest' : OrderedDict.get rest k = Some e').
  { rewrite Hrest. destruct (OrderedDict.contains (_cache sb) k2); [|assumption].
    rewrite delitem_get_other; [assumption | congruence]. }
  clear - Hrest'. induction rest as [|[k0 e0] r IH]; simpl in *.
  - discriminate.
  - destruct (String.eqb k0 k); [assumption | now apply IH].
Qed.
End EvictionMore.

(** ** The second version: closed forms of its methods *)

Section V2Internals.
Context {Value : Type} {codec : JSON Value}.
Variable clock : nat -> Z.

Local Abbreviation Entry := (CacheEntry Value).
Local Abbreviation Store := (OrderedDict.t (V := CacheEntry Value)).
Implicit Types (s : V2Cache.State Value) (c : Store) (e : Entry) (k : string).

Lemma v2_bind_run {A B : Type} (m : V2Cache.M Value A)
    (f : A -> V2Cache.M Value B) s a s' :
  m s = (a, s') -> V2Cache.bind m f s = f a s'.
Proof. intros H. unfold V2Cache.bind. now rewrite H. Qed.

Lemma v2_at_tick_same s :
  V2Cache.set_world (v2_at_tick (V2Cache.ticks (V2Cache.world s)) (V2Cache.world s)) s
  = s.
Proof. destruct s as [m d p en c [t fs wr]]. reflexivity. Qed.

Lemma v2_is_expired_eq e s :
  V2Cache.is_expired clock e s
  = (expired_at (clock (V2Cache.ticks (V2Cache.world s))) e,
     V2Cache.set_world
       (v2_at_tick (tick_after (V2Cache.ticks (V2Cache.world s)) e)
          (V2Cache.world s)) s).
Proof.
  unfold V2Cache.is_expired, expired_at, tick_after.
  destruct (expires_at e); run_monad2; simpl.
  - reflexivity.
  - now rewrite v2_at_tick_same.
Qed.

Lemma v2_expired_keys_of_eq c s :
  V2Cache.expired_keys_of clock c s
  = (scan_expired clock (V2Cache.ticks (V2Cache.world s)) c,
     V2Cache.set_world
       (v2_at_tick (scan_end (V2Cache.ticks (V2Cache.world s)) c)
          (V2Cache.world s)) s).
Proof.
  revert s. induction c as [|[k e] r IH]; intros s; simpl.
  - unfold V2Cache.ret. now rewrite v2_at_tick_same.
  - rewrite (v2_bind_run _ _ _ _ _ (v2_is_expired_eq e s)).
    rewrite (v2_bind_run _ _ _ _ _ (IH _)). unfold V2Cache.ret. simpl.
    destruct (expired_at _ e); reflexivity.
Qed.

Lemma v2_purge_loop_eq (ks : list string) s :
  V2Cache.for_each ks V2Cache.del_key s
  = (tt, V2Cache.set_cache
           (fold_left OrderedDict.delitem ks (V2Cache._cache s)) s).
Proof.
  revert s. induction ks as [|k r IH]; intros s; simpl.
  - unfold V2Cache.ret. now destruct s.
  - run_monad2. rewrite IH. reflexivity.
Qed.

(** A save changes nothing but the files. *)
Lemma v2_save_frame s :
  let s' := snd (V2Cache._save_to_storage s) in
  V2Cache.max_size s' = V2Cache.max_size s
  /\ V2Cache.default_ttl s' = V2Cache.default_ttl s
  /\ V2Cache.enable_persistence s' = V2Cache.enable_persistence s
  /\ V2Cache.storage_file s' = V2Cache.storage_file s
  /\ V2Cache._cache s' = V2Cache._cache s
  /\ V2Cache.ticks (V2Cache.world s') = V2Cache.ticks (V2Cache.world s)
  /\ V2Cache.writable (V2Cache.world s') = V2Cache.writable (V2Cache.world s).
Proof.
  unfold V2Cache._save_to_storage. run_monad2.
  destruct s as [m d [p|] en c [t fs wr]]; simpl; [|auto 10].
  destruct (String.eqb p EmptyString); simpl; [auto 10|].
  destruct wr; simpl; auto 10.
Qed.

Lemma v2_save_unit s :
  V2Cache._save_to_storage s = (tt, snd (V2Cache._save_to_storage s)).
Proof. now destruct (V2Cache._save_to_storage s) as [[] s']. Qed.

Lemma v2_save_when s :
  V2Cache.bind (V2Cache.gets V2Cache.enable_persistence)
    (fun enabled => V2Cache.when enabled V2Cache._save_to_storage) s
  = (tt, v2_persisted s).
Proof.
  unfold v2_persisted. run_monad2.
  destruct (V2Cache.enable_persistence s); [apply v2_save_unit | reflexivity].
Qed.

Lemma v2_persisted_frame s :
  let s' := v2_persisted s in
  V2Cache.max_size s' = V2Cache.max_size s
  /\ V2Cache.default_ttl s' = V2Cache.default_ttl s
  /\ V2Cache.enable_persistence s' = V2Cache.enable_persistence s
  /\ V2Cache.storage_file s' = V2Cache.storage_file s
  /\ V2Cache._cache s' = V2Cache._cache s
  /\ V2Cache.ticks (V2Cache.world s') = V2Cache.ticks (V2Cache.world s)
  /\ V2Cache.writable (V2Cache.world s') = V2Cache.writable (V2Cache.world s).
Proof.
  unfold v2_persisted. pose proof (v2_save_frame s) as H.
  destruct (V2Cache.enable_persistence s) eqn:E.
  - exact H.
  - cbv zeta. rewrite E. auto 10.
Qed.

Lemma v2_cleanup_eq s :
  unique_keys (V2Cache._cache s) ->
  V2Cache._cleanup_expired clock s = (tt, v2_cleaned clock s).
Proof.
  intros Hu. unfold V2Cache._cleanup_expired.
  erewrite v2_bind_run by reflexivity.
  erewrite v2_bind_run by apply v2_expired_keys_of_eq.
  erewrite v2_bind_run by apply v2_purge_loop_eq.
  erewrite v2_bind_run by reflexivity.
  cbn [V2Cache.gets V2Cache.enable_persistence V2Cache.set_cache
       V2Cache.set_world V2Cache._cache V2Cache.world fst snd].
  rewrite (purge_scan clock _ _ Hu).
  unfold v2_cleaned, v2_purged.
  destruct (negb _ && V2Cache.enable_persistence s); simpl.
  - apply v2_save_unit.
  - reflexivity.
Qed.

Lemma v2_cleaned_frame s :
  let s' := v2_cleaned clock s in
  V2Cache.max_size s' = V2Cache.max_size s
  /\ V2Cache.default_ttl s' = V2Cache.default_ttl s
  /\ V2Cache.enable_persistence s' = V2Cache.enable_persistence s
  /\ V2Cache.storage_file s' = V2Cache.storage_file s
  /\ V2Cache._cache s'
     = survivors clock (V2Cache.ticks (V2Cache.world s)) (V2Cache._cache s)
  /\ V2Cache.ticks (V2Cache.world s')
     = scan_end (V2Cache.ticks (V2Cache.world s)) (V2Cache._cache s)
  /\ V2Cache.writable (V2Cache.world s') = V2Cache.writable (V2Cache.world s).
Proof.
  unfold v2_cleaned.
  destruct (negb _ && V2Cache.enable_persistence s).
  - pose proof (v2_save_frame (v2_purged clock s)) as H. cbv zeta in *.
    destruct H as (H1 & H2 & H3 & H4 & H5 & H6 & H7).
    rewrite H1, H2, H3, H4, H5, H6, H7. simpl. auto 10.
  - simpl. auto 10.
Qed.

Lemma v2_made_room_frame k s :
  let s' := v2_made_room k s in
  V2Cache.max_size s' = V2Cache.max_size s
  /\ V2Cache.default_ttl s' = V2Cache.default_ttl s
  /\ V2Cache.enable_persistence s' = V2Cache.enable_persistence s
  /\ V2Cache.storage_file s' = V2Cache.storage_file s
  /\ V2Cache.world s' = V2Cache.world s.
Proof.
  unfold v2_made_room. destruct (negb _ && _); simpl; auto 10.
Qed.

(** *** The public methods *)

Lemma v2_set_eq k (v : Value) ttl s :
  unique_keys (V2Cache._cache s) ->
  V2Cache.set clock k v ttl s
  = (tt, v2_persisted
           (v2_stored clock k v ttl (v2_made_room k (v2_cleaned clock s)))).
Proof.
  intros Hu. unfold V2Cache.set.
  erewrite v2_bind_run by reflexivity.
  erewrite v2_bind_run by (apply v2_cleanup_eq; exact Hu).
  erewrite v2_bind_run by reflexivity.
  erewrite v2_bind_run by reflexivity.
  set (s1 := v2_cleaned clock s).
  assert (Hroom : V2Cache.when
            (negb (OrderedDict.contains (V2Cache._cache s1) k)
             && (OrderedDict.len (V2Cache._cache s1) >=? V2Cache.max_size s1))
            V2Cache._evict_lru s1 = (tt, v2_made_room k s1)).
  { unfold v2_made_room, V2Cache.when, V2Cache._evict_lru, V2Cache.modify,
      V2Cache.ret.
    now destruct (negb _ && _). }
  cbn [V2Cache.gets fst snd].
  erewrite v2_bind_run by exact Hroom.
  set (s2 := v2_made_room k s1).
  erewrite v2_bind_run by reflexivity.
  erewrite v2_bind_run by reflexivity.
  cbn [V2Cache.gets fst snd V2Cache.set_world V2Cache._cache V2Cache.world].
  assert (Hdflt : V2Cache.default_ttl s2 = V2Cache.default_ttl s).
  { unfold s2. destruct (v2_made_room_frame k s1) as (_ & H & _).
    cbv zeta in H. rewrite H. unfold s1.
    now destruct (v2_cleaned_frame s) as (_ & H' & _). }
  assert (Hentry :
    mkEntry k v (clock (V2Cache.ticks (V2Cache.world s2)))
      (if truthy_time (match ttl with
                       | Some t => Some t
                       | None => V2Cache.default_ttl s
                       end)
       then match match ttl with
                  | Some t => Some t
                  | None => V2Cache.default_ttl s
                  end with
            | Some t => Some (clock (V2Cache.ticks (V2Cache.world s2)) + t)
            | None => None
            end
       else None) (clock (V2Cache.ticks (V2Cache.world s2)))
    = v2_entry k v (v2_effective_ttl s2 ttl)
        (clock (V2Cache.ticks (V2Cache.world s2)))).
  { unfold v2_entry, v2_effective_ttl. rewrite Hdflt.
    destruct ttl as [t|]; [|destruct (V2Cache.default_ttl s) as [t|]];
      simpl; try reflexivity; now destruct (t =? 0). }
  rewrite Hentry.
  unfold V2Cache.when at 1.
  destruct (OrderedDict.contains (V2Cache._cache s2) k) eqn:Hin.
  - run_monad2. cbn [fst snd].
    rewrite <- v2_save_when. unfold v2_stored. rewrite Hin. reflexivity.
  - run_monad2. cbn [fst snd].
    rewrite <- v2_save_when. unfold v2_stored. rewrite Hin.
    destruct s2 as [m d p en c [t fs wr]]. reflexivity.
Qed.
End V2Internals.

Section V2PublicMethods.
Context {Value : Type} {codec : JSON Value}.
Variable clock : nat -> Z.

Local Abbreviation Entry := (CacheEntry Value).
Local Abbreviation Store := (OrderedDict.t (V := CacheEntry Value)).
Implicit Types (s : V2Cache.State Value) (c : Store) (e : Entry) (k : string).

Lemma v2_when_persist_eq s :
  V2Cache.when (V2Cache.enable_persistence s) V2Cache._save_to_storage s
  = (tt, v2_persisted s).
Proof.
  unfold v2_persisted, V2Cache.when.
  destruct (V2Cache.enable_persistence s); [apply v2_save_unit | reflexivity].
Qed.

Lemma v2_get_eq k (default : Value) s :
  V2Cache.get clock k default s
  = match OrderedDict.get (V2Cache._cache s) k with
    | None => (default, s)
    | Some e =>
        if expired_at (clock (V2Cache.ticks (V2Cache.world s))) e
        then (default, v2_persisted (v2_dropped k e s))
        else (value e, v2_touched clock k e s)
    end.
Proof.
  unfold V2Cache.get. erewrite v2_bind_run by reflexivity.
  destruct (OrderedDict.get (V2Cache._cache s) k) as [e|] eqn:Hget;
    [|reflexivity].
  erewrite v2_bind_run by apply v2_is_expired_eq.
  destruct (expired_at _ e).
  - erewrite v2_bind_run by reflexivity.
    erewrite v2_bind_run by reflexivity.
    erewrite v2_bind_run.
    2:{ apply (v2_when_persist_eq (v2_dropped k e s)). }
    reflexivity.
  - do 3 (erewrite v2_bind_run by reflexivity).
    unfold V2Cache.ret, v2_touched. simpl.
    rewrite move_to_end_setitem by congruence. reflexivity.
Qed.

Lemma v2_has_eq k s :
  V2Cache.has clock k s
  = match OrderedDict.get (V2Cache._cache s) k with
    | None => (false, s)
    | Some e =>
        if expired_at (clock (V2Cache.ticks (V2Cache.world s))) e
        then (false, v2_persisted (v2_dropped k e s))
        else (true,
              V2Cache.set_world
                (v2_at_tick (tick_after (V2Cache.ticks (V2Cache.world s)) e)
                   (V2Cache.world s)) s)
    end.
Proof.
  unfold V2Cache.has. erewrite v2_bind_run by reflexivity.
  destruct (OrderedDict.get (V2Cache._cache s) k) as [e|] eqn:Hget;
    [|reflexivity].
  erewrite v2_bind_run by apply v2_is_expired_eq.
  destruct (expired_at _ e); [|reflexivity].
  erewrite v2_bind_run by reflexivity.
  erewrite v2_bind_run by reflexivity.
  erewrite v2_bind_run.
  2:{ apply (v2_when_persist_eq (v2_dropped k e s)). }
  reflexivity.
Qed.

Lemma v2_delete_eq k s :
  V2Cache.delete k s
  = if OrderedDict.contains (V2Cache._cache s) k
    then (true,
          v2_persisted
            (V2Cache.set_cache (OrderedDict.delitem (V2Cache._cache s) k) s))
    else (false, s).
Proof.
  unfold V2Cache.delete. erewrite v2_bind_run by reflexivity.
  destruct (OrderedDict.contains (V2Cache._cache s) k); [|reflexivity].
  do 2 (erewrite v2_bind_run by reflexivity).
  erewrite v2_bind_run.
  2:{ apply (v2_when_persist_eq
               (V2Cache.set_cache (OrderedDict.delitem (V2Cache._cache s) k) s)). }
  reflexivity.
Qed.

Lemma v2_clear_eq s :
  V2Cache.clear s = (tt, v2_persisted (V2Cache.set_cache [] s)).
Proof.
  unfold V2Cache.clear. do 2 (erewrite v2_bind_run by reflexivity).
  apply (v2_when_persist_eq (V2Cache.set_cache [] s)).
Qed.

Lemma v2_size_eq s :
  unique_keys (V2Cache._cache s) ->
  V2Cache.size clock s
  = (OrderedDict.len (V2Cache._cache (v2_cleaned clock s)), v2_cleaned clock s).
Proof.
  intros Hu. unfold V2Cache.size.
  erewrite v2_bind_run by (apply v2_cleanup_eq; assumption).
  erewrite v2_bind_run by reflexivity. reflexivity.
Qed.

Lemma v2_keys_eq s :
  unique_keys (V2Cache._cache s) ->
  V2Cache.keys clock s
  = (OrderedDict.keys (V2Cache._cache (v2_cleaned clock s)), v2_cleaned clock s).
Proof.
  intros Hu. unfold V2Cache.keys.
  erewrite v2_bind_run by (apply v2_cleanup_eq; assumption).
  erewrite v2_bind_run by reflexivity. reflexivity.
Qed.

Lemma v2_get_stats_state s :
  unique_keys (V2Cache._cache s) ->
  snd (V2Cache.get_stats clock s)
  = V2Cache.set_world
      (v2_at_tick (S (V2Cache.ticks (V2Cache.world (v2_cleaned clock s))))
         (V2Cache.world (v2_cleaned clock s)))
      (v2_cleaned clock s).
Proof.
  intros Hu. unfold V2Cache.get_stats.
  erewrite v2_bind_run by (apply v2_cleanup_eq; assumption).
  do 3 (erewrite v2_bind_run by reflexivity). reflexivity.
Qed.

(** *** Steps that only remove entries *)

Lemma v2_shrinks_refl s : v2_shrinks s s.
Proof. unfold v2_shrinks. auto 10 using subseq_refl. Qed.

Lemma v2_shrinks_trans s1 s2 s3 :
  v2_shrinks s1 s2 -> v2_shrinks s2 s3 -> v2_shrinks s1 s3.
Proof.
  intros (A1 & A2 & A3 & A4 & A5 & A6) (B1 & B2 & B3 & B4 & B5 & B6).
  unfold v2_shrinks.
  split; [congruence|]. split; [congruence|]. split; [congruence|].
  split; [congruence|]. split; [|lia].
  eapply subseq_trans; eassumption.
Qed.

Lemma v2_shrinks_persisted s : v2_shrinks s (v2_persisted s).
Proof.
  destruct (v2_persisted_frame s) as (H1 & H2 & H3 & H4 & H5 & H6 & _).
  unfold v2_shrinks. rewrite H1, H2, H3, H4, H5, H6.
  auto 10 using subseq_refl.
Qed.

Lemma v2_shrinks_cleaned s : v2_shrinks s (v2_cleaned clock s).
Proof.
  destruct (v2_cleaned_frame clock s) as (H1 & H2 & H3 & H4 & H5 & H6 & _).
  unfold v2_shrinks. rewrite H1, H2, H3, H4, H5, H6.
  split; [reflexivity|]. split; [reflexivity|]. split; [reflexivity|].
  split; [reflexivity|]. split; [apply survivors_subseq | apply scan_end_ge].
Qed.

Lemma v2_evict_subseq c : subseq (V2._evict_lru c) c.
Proof.
  unfold V2._evict_lru. destruct c as [|kv r]; simpl.
  - constructor.
  - apply subseq_skip. apply subseq_refl.
Qed.

Lemma v2_shrinks_made_room k s : v2_shrinks s (v2_made_room k s).
Proof.
  unfold v2_made_room. destruct (negb _ && _).
  - unfold v2_shrinks. simpl.
    split; [reflexivity|]. split; [reflexivity|]. split; [reflexivity|].
    split; [reflexivity|]. split; [apply v2_evict_subseq | lia].
  - apply v2_shrinks_refl.
Qed.

Lemma v2_shrinks_set_cache c s :
  subseq c (V2Cache._cache s) -> v2_shrinks s (V2Cache.set_cache c s).
Proof. intros H. unfold v2_shrinks. simpl. auto 10. Qed.

Lemma v2_shrinks_dropped k e s : v2_shrinks s (v2_dropped k e s).
Proof.
  unfold v2_shrinks, v2_dropped. simpl.
  split; [reflexivity|]. split; [reflexivity|]. split; [reflexivity|].
  split; [reflexivity|]. split; [apply delitem_subseq|].
  unfold tick_after. destruct (expires_at e); lia.
Qed.

Lemma v2_shrinks_unique s s' :
  v2_shrinks s s' -> unique_keys (V2Cache._cache s) ->
  unique_keys (V2Cache._cache s').
Proof.
  intros (_ & _ & _ & _ & Hsub & _) Hu. unfold unique_keys in *.
  eapply subseq_NoDup; [|eassumption]. now apply subseq_map.
Qed.

(** The dictionary that [set] writes into. *)
Lemma v2_stored_cache k (v : Value) ttl s :
  unique_keys (V2Cache._cache s) ->
  exists rest,
    V2Cache._cache (v2_stored clock k v ttl s)
    = rest ++ [(k, v2_entry k v (v2_effective_ttl s ttl)
                     (clock (V2Cache.ticks (V2Cache.world s))))]
    /\ rest = (if OrderedDict.contains (V2Cache._cache s) k
               then OrderedDict.delitem (V2Cache._cache s) k
               else V2Cache._cache s)
    /\ subseq rest (V2Cache._cache s)
    /\ OrderedDict.get rest k = None.
Proof.
  intros Hu. unfold v2_stored. simpl.
  destruct (OrderedDict.contains (V2Cache._cache s) k) eqn:Hc.
  - exists (OrderedDict.delitem (V2Cache._cache s) k).
    assert (Hnone : OrderedDict.get (OrderedDict.delitem (V2Cache._cache s) k) k
                    = None) by now apply delitem_get_same.
    rewrite setitem_absent by assumption.
    split; [reflexivity|]. split; [reflexivity|].
    split; [apply delitem_subseq | assumption].
  - exists (V2Cache._cache s). apply contains_false in Hc.
    rewrite setitem_absent by assumption.
    split; [reflexivity|]. split; [reflexivity|].
    split; [apply subseq_refl | assumption].
Qed.

Lemma v2_stored_unique k (v : Value) ttl s :
  unique_keys (V2Cache._cache s) ->
  unique_keys (V2Cache._cache (v2_stored clock k v ttl s)).
Proof.
  intros Hu.
  destruct (v2_stored_cache k v ttl s Hu) as (rest & Heq & _ & Hsub & Hnone).
  rewrite Heq. apply NoDup_keys_snoc; [|assumption].
  unfold unique_keys in Hu. eapply subseq_NoDup; [|eassumption].
  now apply subseq_map.
Qed.

Lemma v2_touched_unique k e s :
  unique_keys (V2Cache._cache s) ->
  unique_keys (V2Cache._cache (v2_touched clock k e s)).
Proof.
  intros Hu. unfold v2_touched. simpl.
  apply NoDup_keys_snoc; [now apply delitem_NoDup | now apply delitem_get_same].
Qed.

(** A property kept, on dictionaries with unique keys, by the steps
    that remove entries, by the write of [set] and by the reordering of
    a hit is kept by every public method. *)
Lemma v2_run_op_preserves (P : V2Cache.State Value -> Prop) :
  (forall s s', v2_shrinks s s' -> unique_keys (V2Cache._cache s) -> P s -> P s') ->
  (forall k v ttl s, unique_keys (V2Cache._cache s) -> P s ->
     P (v2_stored clock k v ttl (v2_made_room k (v2_cleaned clock s)))) ->
  (forall k e s, OrderedDict.get (V2Cache._cache s) k = Some e ->
     unique_keys (V2Cache._cache s) -> P s -> P (v2_touched clock k e s)) ->
  forall (op : V2Cache.Op Value) s,
    unique_keys (V2Cache._cache s) -> P s ->
    unique_keys (V2Cache._cache (V2Cache.run_op clock op s))
    /\ P (V2Cache.run_op clock op s).
Proof.
  intros Hshrink Hstore Htouch op s Hu HP.
  assert (Hboth : forall s1 s2, v2_shrinks s1 s2 ->
            unique_keys (V2Cache._cache s1) /\ P s1 ->
            unique_keys (V2Cache._cache s2) /\ P s2).
  { intros s1 s2 Hsh (Hu1 & HP1).
    split; [eapply v2_shrinks_unique; eassumption | eapply Hshrink; eassumption]. }
  destruct op as [k v ttl|k d|k|k| | | |]; cbn [V2Cache.run_op].
  - rewrite v2_set_eq by assumption. cbn [snd].
    eapply Hboth; [apply v2_shrinks_persisted|].
    split; [|now apply Hstore].
    apply v2_stored_unique.
    eapply v2_shrinks_unique; [apply v2_shrinks_made_room|].
    eapply v2_shrinks_unique; [apply v2_shrinks_cleaned | assumption].
  - rewrite v2_get_eq.
    destruct (OrderedDict.get (V2Cache._cache s) k) as [e|] eqn:Hget;
      [|now split].
    destruct (expired_at _ e); cbn [snd].
    + eapply Hboth; [apply v2_shrinks_persisted|].
      eapply Hboth; [apply v2_shrinks_dropped | now split].
    + split; [now apply v2_touched_unique | now apply Htouch].
  - rewrite v2_delete_eq.
    destruct (OrderedDict.contains (V2Cache._cache s) k); [|now split].
    cbn [snd].
    eapply Hboth; [apply v2_shrinks_persisted|].
    eapply Hboth; [|split; eassumption].
    apply v2_shrinks_set_cache. apply delitem_subseq.
  - rewrite v2_has_eq.
    destruct (OrderedDict.get (V2Cache._cache s) k) as [e|] eqn:Hget;
      [|now split].
    destruct (expired_at _ e); cbn [snd].
    + eapply Hboth; [apply v2_shrinks_persisted|].
      eapply Hboth; [apply v2_shrinks_dropped | now split].
    + eapply Hboth; [|split; eassumption].
      unfold v2_shrinks. simpl.
      split; [reflexivity|]. split; [reflexivity|]. split; [reflexivity|].
      split; [reflexivity|]. split; [apply subseq_refl|].
      unfold tick_after. destruct (expires_at e); lia.
  - rewrite v2_clear_eq. cbn [snd].
    eapply Hboth; [apply v2_shrinks_persisted|].
    eapply Hboth; [|split; eassumption].
    apply v2_shrinks_set_cache. apply subseq_nil_l.
  - rewrite v2_size_eq by assumption. cbn [snd].
    eapply Hboth; [apply v2_shrinks_cleaned | now split].
  - rewrite v2_keys_eq by assumption. cbn [snd].
    eapply Hboth; [apply v2_shrinks_cleaned | now split].
  - rewrite v2_get_stats_state by assumption.
    eapply (Hboth (v2_cleaned clock s));
      [|eapply Hboth; [apply v2_shrinks_cleaned | now split]].
    unfold v2_shrinks. simpl.
    split; [reflexivity|]. split; [reflexivity|]. split; [reflexivity|].
    split; [reflexivity|]. split; [apply subseq_refl | lia].
Qed.

Lemma v2_run_ops_preserves (P : V2Cache.State Value -> Prop) :
  (forall s s', v2_shrinks s s' -> unique_keys (V2Cache._cache s) -> P s -> P s') ->
  (forall k v ttl s, unique_keys (V2Cache._cache s) -> P s ->
     P (v2_stored clock k v ttl (v2_made_room k (v2_cleaned clock s)))) ->
  (forall k e s, OrderedDict.get (V2Cache._cache s) k = Some e ->
     unique_keys (V2Cache._cache s) -> P s -> P (v2_touched clock k e s)) ->
  forall (ops : list (V2Cache.Op Value)) s,
    unique_keys (V2Cache._cache s) -> P s ->
    unique_keys (V2Cache._cache (V2Cache.run_ops clock ops s))
    /\ P (V2Cache.run_ops clock ops s).
Proof.
  intros Hshrink Hstore Htouch ops.
  induction ops as [|op r IH]; intros s Hu HP; simpl; [now split|].
  destruct (v2_run_op_preserves P Hshrink Hstore Htouch op s Hu HP) as (Hu' & HP').
  now apply IH.
Qed.
End V2PublicMethods.

(** ** The second version: capacity and recency *)

Section V2Capacity.
Context {Value : Type} {codec : JSON Value}.
Variable clock : nat -> Z.

Local Abbreviation Entry := (CacheEntry Value).
Local Abbreviation Store := (OrderedDict.t (V := CacheEntry Value)).
Implicit Types (s : V2Cache.State Value) (c : Store) (e : Entry) (k : string).

Lemma v2_evict_length c :
  OrderedDict.len (V2._evict_lru c) = Z.max 0 (OrderedDict.len c - 1).
Proof.
  unfold V2._evict_lru, OrderedDict.len. destruct c as [|kv r]; simpl length; lia.
Qed.

(** What the write of [set] does to the number of entries. *)
Lemma v2_stored_length k (v : Value) ttl s :
  unique_keys (V2Cache._cache s) ->
  OrderedDict.len (V2Cache._cache (v2_stored clock k v ttl (v2_made_room k s)))
  <= Z.max (OrderedDict.len (V2Cache._cache s)) (Z.max 1 (V2Cache.max_size s)).
Proof.
  intros Hu.
  assert (Hu2 : unique_keys (V2Cache._cache (v2_made_room k s)))
    by (eapply v2_shrinks_unique; [apply v2_shrinks_made_room | assumption]).
  destruct (v2_stored_cache clock k v ttl _ Hu2) as (rest & Heq & Hrest & _ & _).
  rewrite Heq.
  assert (Hlen : Z.of_nat (length rest) + 1
                 <= Z.max (OrderedDict.len (V2Cache._cache s))
                      (Z.max 1 (V2Cache.max_size s)));
    [|unfold OrderedDict.len in *; rewrite length_app; simpl length; lia].
  subst rest. unfold v2_made_room.
  destruct (OrderedDict.contains (V2Cache._cache s) k) eqn:Hin; simpl negb;
    cbn [andb].
  - rewrite Hin. unfold OrderedDict.contains in Hin.
    destruct (OrderedDict.get (V2Cache._cache s) k) as [e0|] eqn:Hget;
      [|discriminate].
    pose proof (delitem_length _ _ _ Hget). unfold OrderedDict.len. lia.
  - destruct (Z.geb_spec (OrderedDict.len (V2Cache._cache s)) (V2Cache.max_size s))
      as [Hfull|Hroom]; cbn [V2Cache._cache V2Cache.set_cache].
    + assert (Hstill : OrderedDict.contains (V2._evict_lru (V2Cache._cache s)) k
                       = false).
      { destruct (OrderedDict.contains (V2._evict_lru (V2Cache._cache s)) k)
          eqn:E; [|reflexivity].
        apply contains_true in E.
        assert (Hk : In k (OrderedDict.keys (V2Cache._cache s))).
        { eapply subseq_In; [|eassumption].
          apply subseq_map. apply v2_evict_subseq. }
        apply contains_true in Hk. congruence. }
      rewrite Hstill.
      pose proof (v2_evict_length (V2Cache._cache s)) as He.
      unfold OrderedDict.len in *. lia.
    + rewrite Hin. unfold OrderedDict.len in *. lia.
Qed.

(** X15.  The second version never holds more entries than the larger
    of its capacity and what it started with.  [max_size] is not
    validated, and a capacity of zero or less behaves as a capacity of
    one: every [set] of a new key evicts first and then stores, so the
    entry just written is always kept.  For every sequence of public
    methods on a cache with unique keys, the number of entries at the
    end is at most [max (len at the start) (max 1 max_size)], and
    [max_size] itself is never changed. *)
Theorem v2_capacity_kept (ops : list (V2Cache.Op Value)) s :
  unique_keys (V2Cache._cache s) ->
  V2Cache.max_size (V2Cache.run_ops clock ops s) = V2Cache.max_size s
  /\ OrderedDict.len (V2Cache._cache (V2Cache.run_ops clock ops s))
     <= Z.max (OrderedDict.len (V2Cache._cache s)) (Z.max 1 (V2Cache.max_size s)).
Proof.
  intros Hu.
  set (B := Z.max (OrderedDict.len (V2Cache._cache s)) (Z.max 1 (V2Cache.max_size s))).
  set (P := fun s' : V2Cache.State Value =>
              V2Cache.max_size s' = V2Cache.max_size s
              /\ OrderedDict.len (V2Cache._cache s') <= B).
  assert (HP : P s) by (unfold P, B; split; [reflexivity | lia]).
  apply (v2_run_ops_preserves clock P); try assumption; unfold P.
  - intros s1 s2 (Hm & _ & _ & _ & Hsub & _) _ (Hmax & Hlen).
    split; [congruence|].
    apply subseq_length in Hsub. unfold OrderedDict.len in *. lia.
  - intros k v ttl s1 Hu1 (Hmax & Hlen).
    pose proof (v2_shrinks_cleaned clock s1) as Hsh.
    pose proof Hsh as (Hm & _ & _ & _ & Hsub & _).
    assert (Hu2 : unique_keys (V2Cache._cache (v2_cleaned clock s1)))
      by (eapply v2_shrinks_unique; eassumption).
    pose proof (v2_stored_length k v ttl _ Hu2) as Hst.
    split.
    + unfold v2_stored. cbn [V2Cache.max_size V2Cache.set_world V2Cache.set_cache].
      destruct (v2_made_room_frame k (v2_cleaned clock s1)) as (Hm2 & _).
      cbv zeta in Hm2. congruence.
    + apply subseq_length in Hsub. rewrite Hm in Hst.
      unfold OrderedDict.len in *. unfold B in *. lia.
  - intros k e s1 Hget _ (Hmax & Hlen). split; [assumption|].
    unfold v2_touched. cbn [V2Cache._cache V2Cache.set_world V2Cache.set_cache].
    pose proof (delitem_length _ _ _ Hget).
    unfold OrderedDict.len in *. rewrite length_app. simpl length. lia.
Qed.

(** *** Recency order *)

Lemma v2_shrinks_recency s s' :
  monotone clock -> v2_shrinks s s' -> v2_recency clock s -> v2_recency clock s'.
Proof.
  intros Hmono Hsh (Hu & Hs & Hacc).
  pose proof Hsh as (_ & _ & _ & _ & Hsub & Hticks).
  split; [eapply v2_shrinks_unique; eassumption|]. split.
  - eapply subseq_StronglySorted; eassumption.
  - apply (accessed_before_mono (clock (V2Cache.ticks (V2Cache.world s))));
      [now apply Hmono|].
    eapply subseq_Forall; eassumption.
Qed.

Lemma v2_stored_recency k (v : Value) ttl s :
  monotone clock -> v2_recency clock s ->
  v2_recency clock (v2_stored clock k v ttl s).
Proof.
  intros Hmono (Hu & Hs & Hacc).
  destruct (v2_stored_cache clock k v ttl s Hu) as (rest & Heq & _ & Hsub & Hnone).
  unfold v2_recency. rewrite Heq.
  replace (V2Cache.ticks (V2Cache.world (v2_stored clock k v ttl s)))
    with (S (V2Cache.ticks (V2Cache.world s))) by reflexivity.
  apply (snoc_recency clock); auto.
  - unfold unique_keys in *. eapply subseq_NoDup; [|eassumption].
    now apply subseq_map.
  - eapply subseq_StronglySorted; eassumption.
  - eapply subseq_Forall; eassumption.
Qed.

Lemma v2_touched_recency k e s :
  monotone clock -> v2_recency clock s -> v2_recency clock (v2_touched clock k e s).
Proof.
  intros Hmono (Hu & Hs & Hacc).
  pose proof (delitem_subseq (V2Cache._cache s) k) as Hsub.
  assert (Ht : (V2Cache.ticks (V2Cache.world s)
                <= tick_after (V2Cache.ticks (V2Cache.world s)) e)%nat)
    by (unfold tick_after; destruct (expires_at e); lia).
  unfold v2_recency, v2_touched.
  cbn [V2Cache._cache V2Cache.world V2Cache.set_world V2Cache.set_cache
       V2Cache.ticks v2_at_tick].
  apply (snoc_recency clock); auto.
  - now apply delitem_NoDup.
  - eapply subseq_StronglySorted; eassumption.
  - apply (accessed_before_mono (clock (V2Cache.ticks (V2Cache.world s))));
      [now apply Hmono|].
    eapply subseq_Forall; eassumption.
  - now apply delitem_get_same.
Qed.

Lemma v2_run_ops_recency (ops : list (V2Cache.Op Value)) s :
  monotone clock -> v2_recency clock s ->
  v2_recency clock (V2Cache.run_ops clock ops s).
Proof.
  intros Hmono Hinv. pose proof Hinv as (Hu & _).
  apply (v2_run_ops_preserves clock (v2_recency clock)); try assumption.
  - intros s1 s2 Hsh _ H. eapply v2_shrinks_recency; eassumption.
  - intros k v ttl s1 _ H. apply v2_stored_recency; [assumption|].
    eapply v2_shrinks_recency; [assumption | apply v2_shrinks_made_room |].
    eapply v2_shrinks_recency; [assumption | apply v2_shrinks_cleaned | assumption].
  - intros k e s1 _ _ H. now apply v2_touched_recency.
Qed.

(** X16.  Positional eviction of the second version removes a least
    recently accessed entry.  [_evict_lru] pops the first entry of the
    [OrderedDict] without looking at any timestamp.  On a cache that
    started empty and was driven by public methods under a clock that
    never goes back, the dictionary is ordered by [last_accessed], so
    the first entry, which is the one [_evict_lru] removes and the only
    one it removes, was accessed no later than any entry that stays. *)
Theorem v2_evicts_least_recently_accessed (ops : list (V2Cache.Op Value)) s0
    k e (rest : Store) :
  monotone clock -> V2Cache._cache s0 = [] ->
  V2Cache._cache (V2Cache.run_ops clock ops s0) = (k, e) :: rest ->
  V2Cache._cache (snd (V2Cache._evict_lru (V2Cache.run_ops clock ops s0))) = rest
  /\ forall k' e', In (k', e') rest -> last_accessed e <= last_accessed e'.
Proof.
  intros Hmono Hempty Hc.
  assert (Hinv0 : v2_recency clock s0).
  { unfold v2_recency, unique_keys, access_sorted, accessed_before.
    rewrite Hempty. simpl. split; [constructor|]. split; constructor. }
  pose proof (v2_run_ops_recency ops s0 Hmono Hinv0) as (_ & Hs & _).
  unfold V2Cache._evict_lru, V2Cache.modify. cbn [snd V2Cache._cache V2Cache.set_cache].
  rewrite Hc in *. split; [reflexivity|].
  intros k' e' Hin. unfold access_sorted in Hs.
  apply StronglySorted_inv in Hs. destruct Hs as (_ & Hall).
  rewrite Forall_forall in Hall. apply (Hall (k', e') Hin).
Qed.
End V2Capacity.

(** ** The second version: lookups *)

Section V2Lookup.
Context {Value : Type} {codec : JSON Value}.
Variable clock : nat -> Z.

Local Abbreviation Entry := (CacheEntry Value).
Local Abbreviation Store := (OrderedDict.t (V := CacheEntry Value)).
Implicit Types (s : V2Cache.State Value) (c : Store) (e : Entry) (k : string).

Lemma get_snoc_other c k k' e :
  k' <> k -> OrderedDict.get (c ++ [(k', e)]) k = OrderedDict.get c k.
Proof.
  intros Hne. induction c as [|[k0 e0] r IH]; simpl.
  - destruct (String.eqb_spec k' k); [contradiction | reflexivity].
  - now rewrite IH.
Qed.

(** The entry that [set] leaves under its key. *)
Lemma v2_set_writes_entry k (v : Value) ttl s :
  unique_keys (V2Cache._cache s) ->
  let s1 := snd (V2Cache.set clock k v ttl s) in
  exists i rest,
    let new := v2_entry k v (v2_effective_ttl s ttl) (clock i) in
    V2Cache.ticks (V2Cache.world s1) = S i
    /\ (V2Cache.ticks (V2Cache.world s) <= i)%nat
    /\ V2Cache._cache s1 = rest ++ [(k, new)]
    /\ OrderedDict.get (V2Cache._cache s1) k = Some new
    /\ unique_keys (V2Cache._cache s1).
Proof.
  intros Hu. cbv zeta. rewrite v2_set_eq by assumption. cbn [snd].
  set (s2 := v2_made_room k (v2_cleaned clock s)).
  assert (Hsh : v2_shrinks s s2).
  { eapply v2_shrinks_trans; [apply v2_shrinks_cleaned | apply v2_shrinks_made_room]. }
  pose proof Hsh as (_ & Hd & _ & _ & _ & Hticks).
  assert (Hu2 : unique_keys (V2Cache._cache s2))
    by (eapply v2_shrinks_unique; eassumption).
  destruct (v2_stored_cache clock k v ttl s2 Hu2) as (rest & Heq & _ & _ & Hnone).
  destruct (v2_persisted_frame (v2_stored clock k v ttl s2))
    as (_ & _ & _ & _ & Hc & Ht & _).
  exists (V2Cache.ticks (V2Cache.world s2)), rest.
  rewrite Hc, Ht, Heq.
  assert (Heff : v2_effective_ttl s2 ttl = v2_effective_ttl s ttl)
    by (unfold v2_effective_ttl; now rewrite Hd).
  rewrite Heff.
  split; [reflexivity|]. split; [assumption|]. split; [reflexivity|].
  split; [now apply get_snoc_same|].
  rewrite <- Heff, <- Heq. now apply v2_stored_unique.
Qed.

(** X17.  Insert and look up in the second version.  [set(k, v, ttl)]
    accepts any key, the empty one included, and leaves under [k] the
    entry written at the one clock reading [i] it takes.  The TTL in
    effect is [ttl] or else [default_ttl]; when it is absent or zero the
    entry has no expiry time, so that [ttl=0] means "never expires".
    The next [get(k, default)] returns [v], unless a nonzero TTL in
    effect has run out at the reading [get] takes, in which case it
    returns [default]. *)
Theorem v2_write_then_read k (v : Value) ttl (default : Value) s :
  unique_keys (V2Cache._cache s) ->
  let s1 := snd (V2Cache.set clock k v ttl s) in
  exists i,
    V2Cache.ticks (V2Cache.world s1) = S i
    /\ OrderedDict.get (V2Cache._cache s1) k
       = Some (v2_entry k v (v2_effective_ttl s ttl) (clock i))
    /\ fst (V2Cache.get clock k default s1)
       = match v2_effective_ttl s ttl with
         | None => v
         | Some t =>
             if t =? 0 then v
             else if clock (S i) >? clock i + t then default else v
         end.
Proof.
  intros Hu. cbv zeta.
  destruct (v2_set_writes_entry k v ttl s Hu) as (i & rest & Ht & _ & _ & Hget & _).
  cbv zeta in *. exists i.
  split; [assumption|]. split; [assumption|].
  rewrite v2_get_eq, Hget, Ht. unfold expired_at, v2_entry. simpl.
  destruct (v2_effective_ttl s ttl) as [t|]; [|reflexivity].
  destruct (t =? 0); [reflexivity|]. simpl.
  destruct (clock (S i) >? clock i + t); reflexivity.
Qed.

(** An entry without expiry time stays under its key, with its value,
    through the methods that only read. *)
Lemma v2_read_keeps_immortal (op : V2Cache.Op Value) k (v : Value) s :
  v2_reads op = true ->
  unique_keys (V2Cache._cache s) ->
  (exists e, OrderedDict.get (V2Cache._cache s) k = Some e
             /\ value e = v /\ expires_at e = None) ->
  unique_keys (V2Cache._cache (V2Cache.run_op clock op s))
  /\ exists e, OrderedDict.get (V2Cache._cache (V2Cache.run_op clock op s)) k = Some e
               /\ value e = v /\ expires_at e = None.
Proof.
  intros Hread Hu (e & Hget & Hv & Hnever).
  assert (Hclean : unique_keys (V2Cache._cache (v2_cleaned clock s))
                   /\ OrderedDict.get (V2Cache._cache (v2_cleaned clock s)) k
                      = Some e).
  { pose proof (v2_shrinks_cleaned clock s) as Hsh.
    assert (Hu' : unique_keys (V2Cache._cache (v2_cleaned clock s)))
      by (eapply v2_shrinks_unique; eassumption).
    split; [assumption|]. apply In_get_Some; [assumption|].
    destruct (v2_cleaned_frame clock s) as (_ & _ & _ & _ & Hc & _).
    rewrite Hc. apply survivors_keep_immortal; [|assumption].
    now apply get_Some_In. }
  assert (Halive : forall now, expired_at now e = false)
    by (intros t; unfold expired_at; now rewrite Hnever).
  assert (Hdrop : forall k' e', OrderedDict.get (V2Cache._cache s) k' = Some e' ->
            expired_at (clock (V2Cache.ticks (V2Cache.world s))) e' = true ->
            unique_keys (V2Cache._cache (v2_persisted (v2_dropped k' e' s)))
            /\ OrderedDict.get (V2Cache._cache (v2_persisted (v2_dropped k' e' s))) k
               = Some e).
  { intros k' e' Hget' Hdead.
    destruct (v2_persisted_frame (v2_dropped k' e' s)) as (_ & _ & _ & _ & Hc & _).
    rewrite Hc. unfold v2_dropped. cbn [V2Cache._cache V2Cache.set_world V2Cache.set_cache].
    split; [now apply delitem_NoDup|].
    rewrite delitem_get_other; [assumption|].
    intros ->. rewrite Hget in Hget'. injection Hget' as <-.
    rewrite Halive in Hdead. discriminate. }
  destruct op as [k' v' ttl'|k' d|k'|k'| | | |]; try discriminate;
    cbn [V2Cache.run_op].
  - rewrite v2_get_eq.
    destruct (OrderedDict.get (V2Cache._cache s) k') as [e'|] eqn:Hget'.
    2:{ split; [assumption|]. exists e. auto. }
    destruct (expired_at _ e') eqn:Hdead; cbn [snd].
    + destruct (Hdrop k' e' Hget' Hdead) as (Hu' & Hg').
      split; [assumption|]. exists e. auto.
    + split; [now apply v2_touched_unique|].
      unfold v2_touched. cbn [V2Cache._cache V2Cache.set_world V2Cache.set_cache].
      destruct (String.eqb_spec k' k) as [->|Hne].
      * rewrite Hget in Hget'. injection Hget' as <-.
        exists (with_last_accessed e
                  (clock (tick_after (V2Cache.ticks (V2Cache.world s)) e))).
        split; [|split; [exact Hv | exact Hnever]].
        apply get_snoc_same. now apply delitem_get_same.
      * exists e. rewrite get_snoc_other by assumption.
        rewrite delitem_get_other by congruence. auto.
  - rewrite v2_has_eq.
    destruct (OrderedDict.get (V2Cache._cache s) k') as [e'|] eqn:Hget'.
    2:{ split; [assumption|]. exists e. auto. }
    destruct (expired_at _ e') eqn:Hdead; cbn [snd].
    + destruct (Hdrop k' e' Hget' Hdead) as (Hu' & Hg').
      split; [assumption|]. exists e. auto.
    + split; [assumption|]. exists e. auto.
  - rewrite v2_size_eq by assumption. cbn [snd].
    destruct Hclean as (Hu' & Hg'). split; [assumption|]. exists e. auto.
  - rewrite v2_keys_eq by assumption. cbn [snd].
    destruct Hclean as (Hu' & Hg'). split; [assumption|]. exists e. auto.
  - rewrite v2_get_stats_state by assumption.
    destruct Hclean as (Hu' & Hg'). split; [assumption|]. exists e. auto.
Qed.

(** X18.  An entry without expiry time is never lost to reads.  After
    [set(k, v, ttl)] whose TTL in effect is absent or zero, any number
    of [get], [has], [size], [keys] and [get_stats] calls, on any keys
    and under any clock, leave [k] in the cache, and [get(k)] still
    returns [v] and [has(k)] is [True]. *)
Theorem v2_zero_ttl_never_expires k (v : Value) ttl (default : Value)
    (ops : list (V2Cache.Op Value)) s :
  unique_keys (V2Cache._cache s) ->
  match v2_effective_ttl s ttl with Some t => t =? 0 | None => true end = true ->
  forallb (v2_reads (Value := Value)) ops = true ->
  let s' := V2Cache.run_ops clock ops (snd (V2Cache.set clock k v ttl s)) in
  fst (V2Cache.get clock k default s') = v
  /\ fst (V2Cache.has clock k s') = true.
Proof.
  intros Hu Httl Hreads. cbv zeta.
  destruct (v2_set_writes_entry k v ttl s Hu) as (i & rest & _ & _ & _ & Hget & Hu1).
  cbv zeta in *.
  set (s1 := snd (V2Cache.set clock k v ttl s)) in *.
  assert (Hinv : unique_keys (V2Cache._cache (V2Cache.run_ops clock ops s1))
                 /\ exists e,
                      OrderedDict.get (V2Cache._cache (V2Cache.run_ops clock ops s1)) k
                      = Some e /\ value e = v /\ expires_at e = None).
  { assert (Hstart : exists e, OrderedDict.get (V2Cache._cache s1) k = Some e
                               /\ value e = v /\ expires_at e = None).
    { eexists. split; [exact Hget|]. split; [reflexivity|].
      unfold v2_entry. simpl.
      destruct (v2_effective_ttl s ttl) as [t|]; [|reflexivity].
      now rewrite Httl. }
    clearbody s1. clear Hget Hu Httl.
    revert s1 Hu1 Hstart. induction ops as [|op r IH]; intros s1 Hu1 Hstart.
    - now split.
    - simpl in Hreads. apply andb_true_iff in Hreads. destruct Hreads as (Hop & Hr).
      destruct (v2_read_keeps_immortal op k v s1 Hop Hu1 Hstart) as (Hu2 & Hnext).
      simpl. now apply IH. }
  destruct Hinv as (_ & e & Hg & Hv & Hnever).
  rewrite v2_get_eq, v2_has_eq, Hg.
  unfold expired_at. rewrite Hnever. now split.
Qed.

(** X19.  [keys()] and [size()] of the second version always clean up
    first.  They answer with the keys, in recency order, and the number
    of the entries that the cleanup leaves, so [size()] is the length of
    [keys()]; the entries without expiry time are among them; and under
    a clock that never goes back no key is reported whose entry was
    already expired when the call began. *)
Theorem v2_keys_after_cleanup s :
  unique_keys (V2Cache._cache s) ->
  fst (V2Cache.size clock s) = Z.of_nat (length (fst (V2Cache.keys clock s)))
  /\ subseq (fst (V2Cache.keys clock s)) (OrderedDict.keys (V2Cache._cache s))
  /\ fst (V2Cache.keys clock s)
     = OrderedDict.keys (V2Cache._cache (snd (V2Cache.keys clock s)))
  /\ (forall k e, In (k, e) (V2Cache._cache s) -> expires_at e = None ->
        In k (fst (V2Cache.keys clock s)))
  /\ (monotone clock ->
      forall k, In k (fst (V2Cache.keys clock s)) ->
        exists e, OrderedDict.get (V2Cache._cache s) k = Some e
                  /\ expired_at (clock (V2Cache.ticks (V2Cache.world s))) e = false).
Proof.
  intros Hu. rewrite v2_size_eq, v2_keys_eq by assumption. cbn [fst snd].
  destruct (v2_cleaned_frame clock s) as (_ & _ & _ & _ & Hc & _). rewrite Hc.
  split; [unfold OrderedDict.len, OrderedDict.keys; now rewrite length_map|].
  split; [apply subseq_map; apply survivors_subseq|].
  split; [reflexivity|]. split.
  - intros k e Hin Hnever. change k with (fst (k, e)). apply in_map.
    now apply survivors_keep_immortal.
  - intros Hmono k Hin. unfold OrderedDict.keys in Hin.
    apply in_map_iff in Hin. destruct Hin as ([k' e] & Hk & Hin).
    simpl in Hk. subst k'. exists e. split.
    + apply In_get_Some; [assumption|].
      eapply subseq_In; [apply survivors_subseq | eassumption].
    + eapply survivors_not_expired; eassumption.
Qed.
End V2Lookup.

(** ** The second version: the file *)

Section V2Storage.
Context {Value : Type} {codec : JSON Value}.
Variable clock : nat -> Z.

Local Abbreviation Entry := (CacheEntry Value).
Local Abbreviation Store := (OrderedDict.t (V := CacheEntry Value)).
Implicit Types (s : V2Cache.State Value) (c : Store) (e : Entry) (k : string).

Lemma v2_load_loop_eq (now : Z) (l : list (EntryData Value)) s :
  V2Cache.load_loop now l s
  = (tt, V2Cache.set_cache
           (fold_left (load_step now) (loadable_prefix l) (V2Cache._cache s)) s).
Proof.
  revert s. induction l as [|data r IH]; intros s; simpl.
  - destruct s. reflexivity.
  - destruct data as [e|]; simpl; [|destruct s; reflexivity].
    unfold load_step at 2, skipped_on_load, expired_at.
    destruct (truthy_time (expires_at e) && _).
    + apply IH.
    + run_monad2. rewrite IH. reflexivity.
Qed.

Lemma loadable_prefix_to_dict (l : list Entry) :
  loadable_prefix (map to_dict l) = l.
Proof. induction l; simpl; [reflexivity | now f_equal]. Qed.

Lemma v2_load_eq s :
  V2Cache._load_from_storage clock s
  = (tt,
     match V2Cache.storage_file s with
     | None => s
     | Some p =>
         if String.eqb p EmptyString then s
         else match V2Cache.files (V2Cache.world s) p with
              | None | Some V2Cache.NotJSON => s
              | Some V2Cache.NotDict =>
                  V2Cache.set_world
                    (v2_at_tick (S (V2Cache.ticks (V2Cache.world s)))
                       (V2Cache.world s)) s
              | Some (V2Cache.Entries l) =>
                  V2Cache.set_world
                    (v2_at_tick (S (V2Cache.ticks (V2Cache.world s)))
                       (V2Cache.world s))
                    (V2Cache.set_cache
                       (fold_left
                          (load_step (clock (V2Cache.ticks (V2Cache.world s))))
                          (loadable_prefix l) (V2Cache._cache s)) s)
              end
     end).
Proof.
  unfold V2Cache._load_from_storage. erewrite v2_bind_run by reflexivity.
  cbn [V2Cache.gets fst].
  destruct (V2Cache.storage_file s) as [p|]; [|reflexivity].
  destruct (String.eqb p EmptyString); [reflexivity|].
  erewrite v2_bind_run by reflexivity.
  destruct (V2Cache.files (V2Cache.world s) p) as [[| |l]|]; try reflexivity.
  erewrite v2_bind_run by reflexivity.
  rewrite v2_load_loop_eq. reflexivity.
Qed.

Lemma v2_load_unique (now : Z) (l : list Entry) c :
  unique_keys c -> unique_keys (fold_left (load_step now) l c).
Proof.
  revert c. induction l as [|e r IH]; intros c Hu; simpl; [assumption|].
  apply IH. unfold load_step. destruct (skipped_on_load now e); [assumption|].
  now apply setitem_unique.
Qed.

(** The dictionary after construction. *)
Lemma v2_init_cache (limit : Z) (dflt : option Z) (path : option string)
    (flag : bool) (w : V2Cache.World Value) :
  V2Cache._cache (V2Cache.Cache_init clock limit dflt path flag w)
  = match path with
    | Some p =>
        if flag && negb (String.eqb p EmptyString)
        then match V2Cache.files w p with
             | Some (V2Cache.Entries l) =>
                 fold_left (load_step (clock (V2Cache.ticks w)))
                   (loadable_prefix l) []
             | _ => []
             end
        else []
    | None => []
    end.
Proof.
  unfold V2Cache.Cache_init, V2Cache.path_exists.
  destruct path as [p|]; [|now rewrite andb_false_r].
  destruct flag; [|reflexivity]. simpl.
  destruct (V2Cache.files w p) as [f|] eqn:Hf; simpl.
  - rewrite v2_load_eq. simpl.
    destruct (String.eqb p EmptyString); simpl; [reflexivity|].
    rewrite Hf. destruct f; reflexivity.
  - now destruct (negb _).
Qed.

(** X20.  What the constructor of the second version loads.  It keeps
    its four arguments ([enable_persistence] only together with a
    path), checks none of them, and never writes.  From a file whose
    JSON dictionary has a list of entries it loads the elements before
    the first one on which the loop raises, leaving out those whose
    expiry time is nonzero and has passed at the single reading taken,
    a later element replacing an earlier one with the same key; the
    elements after the one that raises are lost, and [max_size] is not
    consulted.  A missing, unparsable or non-dictionary file, disabled
    persistence, no path or an empty path give an empty cache. *)
Theorem v2_init_loads (limit : Z) (dflt : option Z) (path : option string)
    (flag : bool) (w : V2Cache.World Value) :
  let s := V2Cache.Cache_init clock limit dflt path flag w in
  V2Cache.max_size s = limit /\ V2Cache.default_ttl s = dflt
  /\ V2Cache.storage_file s = path
  /\ V2Cache.enable_persistence s = flag && is_some path
  /\ V2Cache.files (V2Cache.world s) = V2Cache.files w
  /\ V2Cache._cache s
     = match path with
       | Some p =>
           if flag && negb (String.eqb p EmptyString)
           then match V2Cache.files w p with
                | Some (V2Cache.Entries l) =>
                    fold_left (load_step (clock (V2Cache.ticks w)))
                      (loadable_prefix l) []
                | _ => []
                end
           else []
       | None => []
       end
  /\ unique_keys (V2Cache._cache s).
Proof.
  cbv zeta.
  assert (Hframe :
    let s := V2Cache.Cache_init clock limit dflt path flag w in
    V2Cache.max_size s = limit /\ V2Cache.default_ttl s = dflt
    /\ V2Cache.storage_file s = path
    /\ V2Cache.enable_persistence s = flag && is_some path
    /\ V2Cache.files (V2Cache.world s) = V2Cache.files w).
  { unfold V2Cache.Cache_init.
    destruct (_ && V2Cache.path_exists w path); [|simpl; auto 10].
    rewrite v2_load_eq. cbn [snd V2Cache.storage_file V2Cache.world].
    destruct path as [p|]; [|simpl; auto 10].
    destruct (String.eqb p EmptyString); [simpl; auto 10|].
    destruct (V2Cache.files w p) as [[| |l]|]; simpl; auto 10. }
  cbv zeta in Hframe. destruct Hframe as (H1 & H2 & H3 & H4 & H5).
  rewrite v2_init_cache.
  split; [assumption|]. split; [assumption|]. split; [assumption|].
  split; [assumption|]. split; [assumption|]. split; [reflexivity|].
  clear H1 H2 H3 H4 H5.
  destruct path as [p|]; [|constructor].
  destruct (flag && negb (String.eqb p EmptyString)); [|constructor].
  destruct (V2Cache.files w p) as [[| |l]|]; try constructor.
  apply v2_load_unique. constructor.
Qed.

(** *** What reaches the disk *)

Lemma v2_touches_refl p s : v2_touches_only p s s.
Proof. split; [reflexivity | intros; reflexivity]. Qed.

Lemma v2_touches_trans p s1 s2 s3 :
  v2_touches_only p s1 s2 -> v2_touches_only p s2 s3 -> v2_touches_only p s1 s3.
Proof.
  intros (Hw1 & Hf1) (Hw2 & Hf2). split; [congruence|].
  intros q Hq. rewrite Hf2, Hf1; auto.
  destruct Hq; [now left | right; congruence].
Qed.

Lemma v2_save_files s p :
  V2Cache.storage_file s = Some p -> p <> EmptyString ->
  v2_touches_only p s (snd (V2Cache._save_to_storage s))
  /\ (V2Cache.writable (V2Cache.world s) = true ->
      V2Cache.files (V2Cache.world (snd (V2Cache._save_to_storage s))) p
      = Some (v2_written (V2Cache._cache s))).
Proof.
  intros Hp Hne. unfold V2Cache._save_to_storage. run_monad2. rewrite Hp.
  apply String.eqb_neq in Hne. rewrite Hne. cbn [snd fst].
  destruct (V2Cache.writable (V2Cache.world s)) eqn:Hw.
  - split; [|intros _; simpl; unfold V2Cache.write_file, v2_written, v2_snapshot;
             rewrite String.eqb_refl, json_entries_store;
             now destruct (json_store _)].
    split; [simpl; now rewrite Hw|].
    intros q [Hq|Hq]; [|rewrite Hw in Hq; discriminate].
    simpl. unfold V2Cache.write_file.
    apply String.eqb_neq in Hq. now rewrite Hq.
  - split; [apply v2_touches_refl | discriminate].
Qed.

Lemma v2_persisted_files s p :
  V2Cache.storage_file s = Some p -> p <> EmptyString ->
  v2_touches_only p s (v2_persisted s).
Proof.
  intros Hp Hne. unfold v2_persisted.
  destruct (V2Cache.enable_persistence s); [|apply v2_touches_refl].
  now apply v2_save_files.
Qed.

Lemma v2_memory_step_files p s s' :
  V2Cache.files (V2Cache.world s') = V2Cache.files (V2Cache.world s) ->
  V2Cache.writable (V2Cache.world s') = V2Cache.writable (V2Cache.world s) ->
  v2_touches_only p s s'.
Proof. intros Hf Hw. split; [assumption | intros q _; now rewrite Hf]. Qed.

Lemma v2_cleaned_files s p :
  V2Cache.storage_file s = Some p -> p <> EmptyString ->
  v2_touches_only p s (v2_cleaned clock s).
Proof.
  intros Hp Hne. unfold v2_cleaned.
  assert (Hpurge : v2_touches_only p s (v2_purged clock s))
    by (apply v2_memory_step_files; reflexivity).
  destruct (negb _ && V2Cache.enable_persistence s); [|assumption].
  eapply v2_touches_trans; [eassumption|].
  now apply v2_save_files.
Qed.

(** A state that has just been saved. *)
Lemma v2_persisted_saved s p :
  V2Cache.enable_persistence s = true ->
  V2Cache.storage_file s = Some p -> p <> EmptyString ->
  V2Cache.writable (V2Cache.world s) = true ->
  V2Cache.files (V2Cache.world (v2_persisted s)) p
  = Some (v2_written (V2Cache._cache (v2_persisted s))).
Proof.
  intros Hen Hp Hne Hw.
  destruct (v2_persisted_frame s) as (_ & _ & _ & _ & Hc & _). rewrite Hc.
  unfold v2_persisted. rewrite Hen. now apply v2_save_files.
Qed.

(** The save that ends a mutating method. *)
Lemma v2_final_save p s0 s1 :
  V2Cache.enable_persistence s0 = true ->
  V2Cache.storage_file s0 = Some p -> p <> EmptyString ->
  V2Cache.enable_persistence s1 = V2Cache.enable_persistence s0 ->
  V2Cache.storage_file s1 = V2Cache.storage_file s0 ->
  v2_touches_only p s0 s1 ->
  let s' := v2_persisted s1 in
  (V2Cache.writable (V2Cache.world s0) = true ->
   V2Cache.files (V2Cache.world s') p = Some (v2_written (V2Cache._cache s')))
  /\ (forall q, q <> p ->
        V2Cache.files (V2Cache.world s') q = V2Cache.files (V2Cache.world s0) q)
  /\ (V2Cache.writable (V2Cache.world s0) = false ->
      forall q, V2Cache.files (V2Cache.world s') q
                = V2Cache.files (V2Cache.world s0) q).
Proof.
  intros Hen Hp Hne Hen1 Hp1 Hto. cbv zeta.
  rewrite Hen in Hen1. rewrite Hp in Hp1.
  pose proof (v2_persisted_files s1 p Hp1 Hne) as Hlast.
  pose proof (v2_touches_trans p _ _ _ Hto Hlast) as (Hw & Hf).
  split; [|split].
  - intros Hwr. apply v2_persisted_saved; try assumption.
    destruct Hto as (Hw1 & _). congruence.
  - intros q Hq. apply Hf. now left.
  - intros Hwr q. apply Hf. now right.
Qed.

(** X21.  Every change made through [set], [clear] or a [delete] that
    removes something reaches the file of the second version, unless
    JSON cannot encode it.  With persistence enabled and a non-empty
    path, after such a call on a writable disk the file holds the
    entries of the dictionary the call leaves, in recency order and
    with their values as JSON gives them back, when [json.dump] accepts
    every value; when it raises on one, the error is swallowed and the
    file, opened in place, is left with text that is not JSON.  No
    other file changes, and on a disk that cannot be written no file
    changes. *)
Theorem v2_changes_reach_the_file (op : V2Cache.Op Value) s p :
  unique_keys (V2Cache._cache s) ->
  V2Cache.enable_persistence s = true ->
  V2Cache.storage_file s = Some p -> p <> EmptyString ->
  v2_writes op s = true ->
  let s' := V2Cache.run_op clock op s in
  (V2Cache.writable (V2Cache.world s) = true ->
   V2Cache.files (V2Cache.world s') p
   = Some (match json_store (V2Cache._cache s') with
           | Some c' => V2Cache.Entries (map to_dict (OrderedDict.values c'))
           | None => V2Cache.NotJSON
           end))
  /\ (forall q, q <> p ->
        V2Cache.files (V2Cache.world s') q = V2Cache.files (V2Cache.world s) q)
  /\ (V2Cache.writable (V2Cache.world s) = false ->
      forall q, V2Cache.files (V2Cache.world s') q
                = V2Cache.files (V2Cache.world s) q).
Proof.
  intros Hu Hen Hp Hne Hop. cbv zeta.
  destruct op as [k v ttl|k d|k|k| | | |]; try discriminate;
    cbn [V2Cache.run_op].
  - rewrite v2_set_eq by assumption. cbn [snd].
    set (s2 := v2_made_room k (v2_cleaned clock s)).
    assert (Hsh : v2_shrinks s s2).
    { eapply v2_shrinks_trans;
        [apply v2_shrinks_cleaned | apply v2_shrinks_made_room]. }
    destruct Hsh as (_ & _ & Hen2 & Hp2 & _ & _).
    apply v2_final_save; try assumption.
    eapply v2_touches_trans; [apply v2_cleaned_files; eassumption|].
    apply v2_memory_step_files.
    + unfold s2. destruct (v2_made_room_frame k (v2_cleaned clock s))
        as (_ & _ & _ & _ & Hw). cbv zeta in Hw.
      unfold v2_stored. simpl. now rewrite Hw.
    + unfold s2. destruct (v2_made_room_frame k (v2_cleaned clock s))
        as (_ & _ & _ & _ & Hw). cbv zeta in Hw.
      unfold v2_stored. simpl. now rewrite Hw.
  - rewrite v2_delete_eq. simpl in Hop. rewrite Hop. cbn [snd].
    apply v2_final_save; try assumption; try reflexivity.
    apply v2_memory_step_files; reflexivity.
  - rewrite v2_clear_eq. cbn [snd].
    apply v2_final_save; try assumption; try reflexivity.
    apply v2_memory_step_files; reflexivity.
Qed.

(** X22.  A restart of the second version restores what the file
    holds.  When the file of a cache holds its dictionary, a new cache
    constructed on the same path, with any [max_size] and
    [default_ttl], holds the same entries in the same order, except
    those whose expiry time has passed at the one reading the load
    takes; every other entry is found again under its key as the same
    record.  The new [max_size] plays no part: the load can leave more
    entries than it allows. *)
Theorem v2_restart_restores s p (limit : Z) (dflt : option Z) :
  unique_keys (V2Cache._cache s) -> keys_agree (V2Cache._cache s) ->
  p <> EmptyString ->
  V2Cache.files (V2Cache.world s) p = Some (v2_snapshot (V2Cache._cache s)) ->
  let s2 := V2Cache.Cache_init clock limit dflt (Some p) true (V2Cache.world s) in
  let load_time := clock (V2Cache.ticks (V2Cache.world s)) in
  V2Cache._cache s2
  = filter (fun kv => negb (skipped_on_load load_time (snd kv))) (V2Cache._cache s)
  /\ (forall k e, In (k, e) (V2Cache._cache s) ->
        expired_at load_time e = false ->
        OrderedDict.get (V2Cache._cache s2) k = Some e).
Proof.
  intros Hu Hagree Hne Hfile. cbv zeta.
  assert (Hcache :
    V2Cache._cache (V2Cache.Cache_init clock limit dflt (Some p) true (V2Cache.world s))
    = filter (fun kv => negb (skipped_on_load
                                (clock (V2Cache.ticks (V2Cache.world s))) (snd kv)))
        (V2Cache._cache s)).
  { rewrite v2_init_cache. apply String.eqb_neq in Hne. rewrite Hne. simpl.
    rewrite Hfile. unfold v2_snapshot. rewrite loadable_prefix_to_dict.
    now rewrite load_own_values. }
  split; [exact Hcache|].
  intros k e Hin Halive. rewrite Hcache.
  apply In_get_Some.
  - unfold unique_keys in Hu. eapply subseq_NoDup; [|exact Hu].
    apply subseq_map. clear. induction (V2Cache._cache s) as [|kv r IH]; simpl.
    + constructor.
    + destruct (negb _); [now apply subseq_keep | now apply subseq_skip].
  - apply filter_In. split; [assumption|]. simpl.
    now rewrite alive_not_skipped.
Qed.
End V2Storage.

(** ** The second version: statistics *)

Section V2Stats.
Context {Value : Type} {codec : JSON Value}.
Variable clock : nat -> Z.

Local Abbreviation Entry := (CacheEntry Value).
Local Abbreviation Store := (OrderedDict.t (V := CacheEntry Value)).
Implicit Types (s : V2Cache.State Value) (c : Store) (e : Entry) (k : string).

Lemma v2_get_stats_eq s :
  unique_keys (V2Cache._cache s) ->
  fst (V2Cache.get_stats clock s)
  = let s1 := v2_cleaned clock s in
    let now := clock (V2Cache.ticks (V2Cache.world s1)) in
    (OrderedDict.len (V2Cache._cache s1), V2Cache.max_size s1,
     map (fun kv =>
            V2Cache.mkEntryReport (fst kv)
              (now - created_at (snd kv))
              (now - last_accessed (snd kv))
              (if truthy_time (expires_at (snd kv))
               then match expires_at (snd kv) with
                    | Some x => Some (x - now)
                    | None => None
                    end
               else None)) (V2Cache._cache s1)).
Proof.
  intros Hu. unfold V2Cache.get_stats.
  erewrite v2_bind_run by (apply v2_cleanup_eq; assumption).
  do 3 (erewrite v2_bind_run by reflexivity). reflexivity.
Qed.

(** The timestamps of a cache that started empty. *)
Lemma v2_run_ops_timestamps (ops : list (V2Cache.Op Value)) s :
  monotone clock ->
  v2_recency clock s /\ created_before_access (V2Cache._cache s) ->
  v2_recency clock (V2Cache.run_ops clock ops s)
  /\ created_before_access (V2Cache._cache (V2Cache.run_ops clock ops s)).
Proof.
  intros Hmono Hinv. pose proof Hinv as ((Hu & _) & _).
  apply (v2_run_ops_preserves clock
           (fun s' => v2_recency clock s'
                      /\ created_before_access (V2Cache._cache s')));
    try assumption.
  - intros s1 s2 Hsh _ (Hr & Hc).
    split; [eapply v2_shrinks_recency; eassumption|].
    destruct Hsh as (_ & _ & _ & _ & Hsub & _).
    eapply subseq_Forall; eassumption.
  - intros k v ttl s1 Hu1 (Hr & Hc).
    set (s2 := v2_made_room k (v2_cleaned clock s1)).
    assert (Hsh : v2_shrinks s1 s2).
    { eapply v2_shrinks_trans;
        [apply v2_shrinks_cleaned | apply v2_shrinks_made_room]. }
    assert (Hr2 : v2_recency clock s2)
      by (eapply v2_shrinks_recency; eassumption).
    split; [now apply v2_stored_recency|].
    destruct Hr2 as (Hu2 & _).
    destruct (v2_stored_cache clock k v ttl s2 Hu2) as (rest & Heq & _ & Hsub & _).
    rewrite Heq. unfold created_before_access. apply Forall_app. split.
    + eapply subseq_Forall; [eassumption|].
      destruct Hsh as (_ & _ & _ & _ & Hsub2 & _).
      eapply subseq_Forall; eassumption.
    + constructor; [simpl; lia | constructor].
  - intros k e s1 Hget _ (Hr & Hc).
    split; [now apply v2_touched_recency|].
    unfold v2_touched, created_before_access.
    cbn [V2Cache._cache V2Cache.set_world V2Cache.set_cache].
    apply Forall_app. split.
    + eapply subseq_Forall; [apply delitem_subseq | exact Hc].
    + constructor; [|constructor]. simpl.
      destruct Hr as (_ & _ & Hacc).
      apply get_Some_In in Hget.
      unfold accessed_before, created_before_access in *.
      rewrite Forall_forall in Hacc, Hc.
      specialize (Hacc _ Hget). specialize (Hc _ Hget). simpl in Hacc, Hc.
      assert (Hle : clock (V2Cache.ticks (V2Cache.world s1))
                    <= clock (tick_after (V2Cache.ticks (V2Cache.world s1)) e)).
      { apply Hmono. unfold tick_after. destruct (expires_at e); lia. }
      lia.
Qed.

(** X23.  What [get_stats()] of the second version reports.  On a
    cache that started empty and was driven by public methods under a
    clock that never goes back, [get_stats()] gives the number of
    entries left by its cleanup, the [max_size] of the cache, and one
    report per entry, in the order of [keys()]; in every report the
    time since the last access is not negative and not more than the
    age, and a remaining TTL is reported exactly for the entries whose
    expiry time is present and nonzero. *)
Theorem v2_get_stats_reports (ops : list (V2Cache.Op Value)) s0 :
  monotone clock -> V2Cache._cache s0 = [] ->
  let s := V2Cache.run_ops clock ops s0 in
  let report := fst (V2Cache.get_stats clock s) in
  fst (fst report) = Z.of_nat (length (snd report))
  /\ fst (fst report) = fst (V2Cache.size clock s)
  /\ snd (fst report) = V2Cache.max_size s0
  /\ map V2Cache.report_key (snd report) = fst (V2Cache.keys clock s)
  /\ Forall (fun r => 0 <= V2Cache.report_time_since_access r
                      /\ V2Cache.report_time_since_access r <= V2Cache.report_age r)
       (snd report)
  /\ Forall2 (fun r kv => V2Cache.report_ttl r = None
                          <-> truthy_time (expires_at (snd kv)) = false)
       (snd report) (V2Cache._cache (snd (V2Cache.get_stats clock s))).
Proof.
  intros Hmono Hempty. cbv zeta.
  assert (Hstart : v2_recency clock s0 /\ created_before_access (V2Cache._cache s0)).
  { unfold v2_recency, unique_keys, access_sorted, accessed_before,
      created_before_access.
    rewrite Hempty. simpl. split; [|constructor].
    split; [constructor|]. split; constructor. }
  destruct (v2_run_ops_timestamps ops s0 Hmono Hstart) as (Hr & Hc).
  assert (Hmax : V2Cache.max_size (V2Cache.run_ops clock ops s0)
                 = V2Cache.max_size s0).
  { destruct Hstart as ((Hu0 & _) & _).
    refine (proj2 (v2_run_ops_preserves clock
                     (fun s' => V2Cache.max_size s' = V2Cache.max_size s0)
                     _ _ _ ops s0 Hu0 eq_refl)).
    - intros s1 s2 (Hm & _) _ H. congruence.
    - intros k v ttl s1 _ H. unfold v2_stored.
      cbn [V2Cache.max_size V2Cache.set_world V2Cache.set_cache].
      destruct (v2_made_room_frame k (v2_cleaned clock s1)) as (Hm2 & _).
      destruct (v2_cleaned_frame clock s1) as (Hm1 & _).
      cbv zeta in *. congruence.
    - intros k e s1 _ _ H. exact H. }
  set (s := V2Cache.run_ops clock ops s0) in *.
  pose proof Hr as (Hu & _).
  rewrite v2_get_stats_eq, v2_size_eq, v2_keys_eq, v2_get_stats_state
    by assumption.
  cbv zeta. cbn [fst snd V2Cache._cache V2Cache.set_world].
  pose proof (v2_shrinks_cleaned clock s) as Hsh.
  pose proof (v2_shrinks_recency clock s _ Hmono Hsh Hr) as (_ & _ & Hacc).
  assert (Hc1 : created_before_access (V2Cache._cache (v2_cleaned clock s))).
  { destruct Hsh as (_ & _ & _ & _ & Hsub & _). eapply subseq_Forall; eassumption. }
  destruct Hsh as (Hm & _).
  split; [unfold OrderedDict.len; now rewrite length_map|].
  split; [reflexivity|]. split; [congruence|].
  split; [unfold OrderedDict.keys; rewrite map_map; reflexivity|].
  split.
  - apply Forall_map. unfold accessed_before, created_before_access in *.
    rewrite Forall_forall in *. intros kv Hin. simpl.
    specialize (Hacc kv Hin). specialize (Hc1 kv Hin). simpl in *. lia.
  - clear Hacc Hc1.
    induction (V2Cache._cache (v2_cleaned clock s)) as [|kv r IH]; simpl.
    + constructor.
    + constructor; [|exact IH]. simpl.
      destruct (expires_at (snd kv)) as [x|]; simpl.
      * destruct (x =? 0); simpl; split; congruence.
      * split; reflexivity.
Qed.
End V2Stats.

(** ** The first version *)

Section V1Facts.
Context {Value : Type} {codec : JSON Value}.
Variable clock : nat -> Z.

Local Abbreviation Entry1 := (V1Cache.CacheEntry Value).
Local Abbreviation Store1 := (OrderedDict.t (V := V1Cache.CacheEntry Value)).
Implicit Types (s : V1Cache.State Value) (c : Store1) (e : Entry1) (k : string).

Lemma v1_bind_run {A B : Type} (m : V1Cache.M Value A)
    (f : A -> V1Cache.M Value B) s a s' :
  m s = (V1Cache.Ok a, s') -> V1Cache.bind m f s = f a s'.
Proof. intros H. unfold V1Cache.bind. now rewrite H. Qed.

Lemma v1_bind_raise {A B : Type} (m : V1Cache.M Value A)
    (f : A -> V1Cache.M Value B) s err s' :
  m s = (V1Cache.Err err, s') -> V1Cache.bind m f s = (V1Cache.Err err, s').
Proof. intros H. unfold V1Cache.bind. now rewrite H. Qed.

Lemma v1_auto_saves_path s :
  V1Cache.auto_saves (V1Cache.config s) = true ->
  exists p, V1Cache.persistence_file (V1Cache.config s) = Some p
            /\ String.eqb p EmptyString = false.
Proof.
  unfold V1Cache.auto_saves, V1Cache.truthy_path. intros H.
  apply andb_true_iff in H. destruct H as (_ & H).
  destruct (V1Cache.persistence_file (V1Cache.config s)) as [p|]; [|discriminate].
  exists p. split; [reflexivity|]. now apply negb_true_iff.
Qed.

Lemma v1_save_when s :
  V1Cache.when (V1Cache.auto_saves (V1Cache.config s)) V1Cache._save_to_disk s
  = v1_saved s.
Proof.
  unfold v1_saved, v1_save_result, V1Cache.when.
  destruct (V1Cache.auto_saves (V1Cache.config s)) eqn:Ha; [|reflexivity].
  destruct (v1_auto_saves_path s Ha) as (p & Hp & Hne).
  unfold V1Cache._save_to_disk, v1_written, v1_file_after. run_monad1.
  rewrite Hp, Hne.
  destruct (V1Cache.writable (V1Cache.world s)); [|reflexivity].
  destruct (V1Cache.json_entries _); reflexivity.
Qed.

(** The save changes neither the dictionary, the configuration nor the
    clock. *)
Lemma v1_saved_frame s :
  V1Cache._store (snd (v1_saved s)) = V1Cache._store s
  /\ V1Cache.config (snd (v1_saved s)) = V1Cache.config s
  /\ V1Cache.ticks (V1Cache.world (snd (v1_saved s)))
     = V1Cache.ticks (V1Cache.world s)
  /\ V1Cache.writable (V1Cache.world (snd (v1_saved s)))
     = V1Cache.writable (V1Cache.world s).
Proof.
  unfold v1_saved, v1_written. cbn [snd].
  destruct (V1Cache.auto_saves _ && V1Cache.writable _); [|auto].
  destruct (V1Cache.persistence_file _); simpl; auto.
Qed.


Lemma v1_set_eq k (v : Value) ttl s :
  V1Cache.set clock k v ttl s = v1_saved (v1_stored clock k v ttl s).
Proof.
  unfold V1Cache.set.
  do 3 (erewrite v1_bind_run by reflexivity).
  cbn [V1Cache.gets V1Cache.set_world V1Cache._store V1Cache.config fst snd].
  set (s1 := V1Cache.set_world _ s).
  assert (Hroom :
    V1Cache.when
      (negb (OrderedDict.contains (V1Cache._store s) k)
       && (OrderedDict.len (V1Cache._store s)
           >=? V1Cache.max_size (V1Cache.config s)))
      V1Cache._evict s1
    = (V1Cache.Ok tt, V1Cache.set_store (v1_made_room k s) s1)).
  { unfold v1_made_room, V1Cache.when, V1Cache._evict, V1Cache.modify, V1Cache.ret.
    destruct (negb _ && _); [reflexivity|]. now destruct s. }
  erewrite v1_bind_run by exact Hroom.
  erewrite v1_bind_run by reflexivity.
  cbn [V1Cache.gets V1Cache.set_store V1Cache._store fst snd].
  rewrite <- (v1_save_when (v1_stored clock k v ttl s)).
  assert (Hentry :
    V1Cache.mkEntry k v (clock (V1Cache.ticks (V1Cache.world s)))
      (if truthy_time (match ttl with
                       | Some t => Some t
                       | None => V1Cache.default_ttl (V1Cache.config s)
                       end)
       then match match ttl with
                  | Some t => Some t
                  | None => V1Cache.default_ttl (V1Cache.config s)
                  end with
            | Some t => Some (clock (V1Cache.ticks (V1Cache.world s)) + t)
            | None => None
            end
       else None) 0 (clock (V1Cache.ticks (V1Cache.world s)))
    = v1_entry k v (v1_effective_ttl s ttl)
        (clock (V1Cache.ticks (V1Cache.world s)))).
  { unfold v1_entry, v1_effective_ttl.
    destruct ttl as [t|];
      [|destruct (V1Cache.default_ttl (V1Cache.config s)) as [t|]];
      simpl; try reflexivity; now destruct (t =? 0). }
  rewrite Hentry.
  unfold V1Cache.when at 1.
  destruct (OrderedDict.contains (v1_made_room k s) k) eqn:Hin.
  - run_monad1. cbn [fst snd]. unfold v1_stored. rewrite Hin. reflexivity.
  - run_monad1. cbn [fst snd]. unfold v1_stored. rewrite Hin. reflexivity.
Qed.

Lemma v1_get_eq k (default : Value) s :
  V1Cache.get clock k default s
  = match OrderedDict.get (V1Cache._store s) k with
    | None => (V1Cache.Ok default, s)
    | Some e =>
        if V1Cache.past (clock (V1Cache.ticks (V1Cache.world s)))
             (V1Cache.expires_at e)
        then (V1Cache.Ok default,
              V1Cache.mkState (V1Cache.config s)
                (OrderedDict.delitem (V1Cache._store s) k)
                (v1_tick (V1Cache.world s)))
        else (V1Cache.Ok (V1Cache.value e), v1_touched clock k e s)
    end.
Proof.
  unfold V1Cache.get. erewrite v1_bind_run by reflexivity.
  cbn [V1Cache.gets fst].
  destruct (OrderedDict.get (V1Cache._store s) k) as [e|] eqn:Hget;
    [|reflexivity].
  unfold v1_touched, v1_tick_after, V1Cache.past.
  destruct (truthy_time (V1Cache.expires_at e)) eqn:Ht; cbn [andb].
  - run_monad1. cbn [fst snd].
    destruct (match V1Cache.expires_at e with
              | Some t => clock (V1Cache.ticks (V1Cache.world s)) >? t
              | None => false
              end); [reflexivity|].
    cbn [V1Cache.set_store V1Cache.set_world V1Cache._store V1Cache.world
         V1Cache.config V1Cache.ticks V1Cache.files V1Cache.writable].
    rewrite move_to_end_setitem by congruence. reflexivity.
  - run_monad1. cbn [fst snd].
    cbn [V1Cache.set_store V1Cache.set_world V1Cache._store V1Cache.world
         V1Cache.config V1Cache.ticks V1Cache.files V1Cache.writable].
    rewrite move_to_end_setitem by congruence. reflexivity.
Qed.

Lemma v1_delete_eq k s :
  V1Cache.delete k s
  = if OrderedDict.contains (V1Cache._store s) k
    then let r := v1_saved
                    (V1Cache.set_store (OrderedDict.delitem (V1Cache._store s) k) s) in
         (match fst r with
          | V1Cache.Ok _ => V1Cache.Ok true
          | V1Cache.Err err => V1Cache.Err err
          end, snd r)
    else (V1Cache.Ok false, s).
Proof.
  unfold V1Cache.delete. erewrite v1_bind_run by reflexivity.
  cbn [V1Cache.gets fst].
  destruct (OrderedDict.contains (V1Cache._store s) k); [|reflexivity].
  do 2 (erewrite v1_bind_run by reflexivity).
  cbn [V1Cache.gets fst snd].
  unfold V1Cache.bind.
  rewrite (v1_save_when
             (V1Cache.set_store (OrderedDict.delitem (V1Cache._store s) k) s)).
  cbv zeta.
  destruct (v1_saved _) as [[[]|err] s']; reflexivity.
Qed.

Lemma v1_clear_eq s : V1Cache.clear s = v1_saved (V1Cache.set_store [] s).
Proof.
  unfold V1Cache.clear. do 2 (erewrite v1_bind_run by reflexivity).
  apply (v1_save_when (V1Cache.set_store [] s)).
Qed.

(** *** The cleanup *)

Lemma v1_purge_loop_eq (ks : list string) s :
  V1Cache.for_each ks V1Cache.del_key s
  = (V1Cache.Ok tt,
     V1Cache.set_store (fold_left OrderedDict.delitem ks (V1Cache._store s)) s).
Proof.
  revert s. induction ks as [|k r IH]; intros s; simpl.
  - unfold V1Cache.ret. now destruct s.
  - run_monad1. rewrite IH. reflexivity.
Qed.

Lemma fold_delitem_head {V : Type} (ks : list string) (kv : string * V)
    (d : OrderedDict.t (V := V)) :
  ~ In (fst kv) ks ->
  fold_left OrderedDict.delitem ks (kv :: d)
  = kv :: fold_left OrderedDict.delitem ks d.
Proof.
  revert d. induction ks as [|k r IH]; intros d Hnin; simpl; [reflexivity|].
  destruct kv as [k' e]. simpl in *.
  destruct (String.eqb_spec k' k) as [->|Hne].
  - exfalso. apply Hnin. now left.
  - apply IH. intros Hin. apply Hnin. now right.
Qed.

(** Deleting the keys that a test selects leaves the entries that fail
    it, in their order. *)
Lemma purge_filter {V : Type} (f : string * V -> bool) (d : OrderedDict.t (V := V)) :
  NoDup (OrderedDict.keys d) ->
  fold_left OrderedDict.delitem (map fst (filter f d)) d
  = filter (fun kv => negb (f kv)) d.
Proof.
  induction d as [|[k v] r IH]; intros Hnd; simpl; [reflexivity|].
  inversion Hnd; subst.
  destruct (f (k, v)); simpl.
  - rewrite String.eqb_refl. now apply IH.
  - rewrite fold_delitem_head.
    + f_equal. now apply IH.
    + simpl. intros Hin. apply H1.
      apply in_map_iff in Hin. destruct Hin as (kv & Hk & Hin).
      apply filter_In in Hin. destruct Hin as (Hin & _).
      rewrite <- Hk. now apply in_map.
Qed.

Lemma filter_split_length {A : Type} (f : A -> bool) (l : list A) :
  (length (filter f l) + length (filter (fun x => negb (f x)) l))%nat = length l.
Proof.
  induction l as [|x r IH]; simpl; [reflexivity|].
  destruct (f x); simpl; lia.
Qed.

(** X24.  [cleanup_expired()] of the first version judges every entry
    at the one clock reading it takes.  On a dictionary with unique
    keys it leaves exactly the entries whose expiry time is absent,
    zero or not yet passed at that reading, in their order.  It returns
    the number of entries it removed, unless it removed some and must
    save: then the exception of [open] surfaces when the disk cannot be
    written, and that of [json.dump] when one of the remaining values
    cannot be encoded, the entries being removed all the same. *)
Theorem v1_cleanup_expired_counts s :
  NoDup (OrderedDict.keys (V1Cache._store s)) ->
  let now := clock (V1Cache.ticks (V1Cache.world s)) in
  let r := V1Cache.cleanup_expired clock s in
  let removed :=
    OrderedDict.len (V1Cache._store s) - OrderedDict.len (V1Cache._store (snd r)) in
  V1Cache._store (snd r) = filter (v1_alive now) (V1Cache._store s)
  /\ V1Cache.ticks (V1Cache.world (snd r)) = S (V1Cache.ticks (V1Cache.world s))
  /\ fst r
     = if (0 <? removed) && V1Cache.auto_saves (V1Cache.config s)
       then if V1Cache.writable (V1Cache.world s)
            then match V1Cache.json_entries
                         (OrderedDict.values (V1Cache._store (snd r))) with
                 | Some _ => V1Cache.Ok removed
                 | None => V1Cache.Err V1Cache.TypeError
                 end
            else V1Cache.Err V1Cache.OSError
       else V1Cache.Ok removed.
Proof.
  intros Hnd. cbv zeta. unfold V1Cache.cleanup_expired.
  do 2 (erewrite v1_bind_run by reflexivity).
  erewrite v1_bind_run by apply v1_purge_loop_eq.
  erewrite v1_bind_run by reflexivity.
  cbn [V1Cache.gets V1Cache.set_world V1Cache.set_store V1Cache._store
       V1Cache.config V1Cache.world V1Cache.ticks fst snd].
  rewrite purge_filter by assumption.
  set (now := clock (V1Cache.ticks (V1Cache.world s))).
  set (dead := filter (fun kv => V1Cache.past now (V1Cache.expires_at (snd kv)))
                 (V1Cache._store s)).
  set (s1 := V1Cache.set_store _ (V1Cache.set_world _ s)).
  assert (Hs1 : V1Cache._store s1 = filter (v1_alive now) (V1Cache._store s)
                /\ V1Cache.ticks (V1Cache.world s1)
                   = S (V1Cache.ticks (V1Cache.world s))
                /\ V1Cache.config s1 = V1Cache.config s
                /\ V1Cache.writable (V1Cache.world s1)
                   = V1Cache.writable (V1Cache.world s))
    by (unfold s1; simpl; auto).
  destruct Hs1 as (Hst & Htk & Hcf & Hwr).
  assert (Hlen : OrderedDict.len (V1Cache._store s)
                 - OrderedDict.len (V1Cache._store s1)
                 = Z.of_nat (length dead)).
  { pose proof (filter_split_length
                  (fun kv => V1Cache.past now (V1Cache.expires_at (snd kv)))
                  (V1Cache._store s)) as H.
    rewrite Hst. unfold OrderedDict.len, dead, v1_alive in *. lia. }
  rewrite length_map. rewrite <- Hcf, <- Hwr. clearbody s1.
  destruct (Nat.eqb (length dead) 0) eqn:Hz; cbn [negb andb].
  - apply Nat.eqb_eq in Hz.
    unfold V1Cache.when, V1Cache.bind, V1Cache.ret. cbn [fst snd].
    rewrite Hlen, Hz. simpl. auto.
  - apply Nat.eqb_neq in Hz.
    assert (Hpos : (0 <? Z.of_nat (length dead)) = true)
      by (apply Z.ltb_lt; lia).
    unfold V1Cache.bind. rewrite (v1_save_when s1).
    pose proof (v1_saved_frame s1) as (Hc & _ & Ht & _).
    unfold v1_saved in *. cbn [fst snd] in *.
    unfold v1_save_result.
    destruct (V1Cache.auto_saves (V1Cache.config s1)); cbn [andb] in *.
    + destruct (V1Cache.writable (V1Cache.world s1)).
      * destruct (V1Cache.json_entries
                    (OrderedDict.values (V1Cache._store s1))) eqn:Hj;
          unfold V1Cache.ret; cbn [fst snd];
          rewrite Hc, Ht, Hlen, Hpos, Hj; cbn [andb]; auto.
      * cbn [fst snd]. rewrite Hlen, Hpos. cbn [andb]. auto.
    + unfold V1Cache.ret. cbn [fst snd]. rewrite Hlen, Hpos. cbn [andb]. auto.
Qed.

(** *** Writes, reads and the access counts *)

Lemma sum_from (l : list Z) (a : Z) :
  fold_left Z.add l a = a + fold_left Z.add l 0.
Proof.
  revert a. induction l as [|x r IH]; intros a; simpl; [lia|].
  rewrite (IH (a + x)), (IH x). lia.
Qed.

Lemma v1_total_cons k e c :
  v1_total_accesses ((k, e) :: c) = V1Cache.access_count e + v1_total_accesses c.
Proof. unfold v1_total_accesses. simpl. now rewrite sum_from. Qed.

Lemma v1_total_app c1 c2 :
  v1_total_accesses (c1 ++ c2) = v1_total_accesses c1 + v1_total_accesses c2.
Proof.
  induction c1 as [|[k e] r IH]; simpl.
  - reflexivity.
  - rewrite !v1_total_cons, IH. lia.
Qed.

Lemma v1_total_delitem c k e :
  OrderedDict.get c k = Some e ->
  v1_total_accesses (OrderedDict.delitem c k)
  = v1_total_accesses c - V1Cache.access_count e.
Proof.
  induction c as [|[k' e'] r IH]; simpl; [discriminate|].
  destruct (String.eqb k' k).
  - intros [= ->]. rewrite v1_total_cons. lia.
  - intros H. rewrite !v1_total_cons, IH by assumption. lia.
Qed.


(** X26.  The contract of [get] in the first version, and what
    [stats()] makes of it.  A missing key gives [default] and changes
    nothing.  An entry whose nonzero expiry time has passed at the
    reading taken is removed and [default] is returned, nothing being
    saved, so the file keeps the entry.  Otherwise the value is
    returned, the entry moves to the most-recently-used end with its
    access count raised by one and the time of a second reading as
    [last_accessed], and the total of access counts grows by exactly
    one.  [get] never raises, and [stats()] reports that total together
    with the number of entries, twice, and [max_size]. *)
Theorem v1_get_counts_accesses k (default : Value) s :
  let r := V1Cache.get clock k default s in
  let t := V1Cache.ticks (V1Cache.world s) in
  match OrderedDict.get (V1Cache._store s) k with
  | None => r = (V1Cache.Ok default, s)
  | Some e =>
      if V1Cache.past (clock t) (V1Cache.expires_at e)
      then fst r = V1Cache.Ok default
           /\ V1Cache._store (snd r) = OrderedDict.delitem (V1Cache._store s) k
           /\ v1_total_accesses (V1Cache._store (snd r))
              = v1_total_accesses (V1Cache._store s) - V1Cache.access_count e
      else fst r = V1Cache.Ok (V1Cache.value e)
           /\ V1Cache._store (snd r)
              = OrderedDict.delitem (V1Cache._store s) k
                ++ [(k, V1Cache.accessed e (clock (v1_tick_after t e)))]
           /\ v1_total_accesses (V1Cache._store (snd r))
              = v1_total_accesses (V1Cache._store s) + 1
  end
  /\ V1Cache.files (V1Cache.world (snd r)) = V1Cache.files (V1Cache.world s)
  /\ V1Cache.config (snd r) = V1Cache.config s
  /\ fst (V1Cache.stats (snd r))
     = V1Cache.Ok
         (V1Cache.mkReport (OrderedDict.len (V1Cache._store (snd r)))
            (V1Cache.max_size (V1Cache.config s))
            (v1_total_accesses (V1Cache._store (snd r)))
            (OrderedDict.len (V1Cache._store (snd r)))).
Proof.
  cbv zeta. rewrite v1_get_eq.
  destruct (OrderedDict.get (V1Cache._store s) k) as [e|] eqn:Hget.
  - destruct (V1Cache.past _ (V1Cache.expires_at e)); cbn [fst snd].
    + split; [|split; [reflexivity | split; reflexivity]].
      split; [reflexivity|]. split; [reflexivity|].
      cbn [V1Cache._store]. now apply v1_total_delitem.
    + split; [|split; [reflexivity | split; reflexivity]].
      split; [reflexivity|]. split; [reflexivity|].
      unfold v1_touched. cbn [V1Cache._store].
      rewrite v1_total_app, v1_total_cons.
      rewrite (v1_total_delitem _ _ _ Hget).
      unfold v1_total_accesses at 2. simpl. lia.
  - split; [reflexivity|]. split; [reflexivity|]. split; reflexivity.
Qed.

(** *** Capacity *)

Lemma setitem_length_le {V : Type} (d : OrderedDict.t (V := V)) k (v : V) :
  (length (OrderedDict.setitem d k v) <= S (length d))%nat.
Proof.
  induction d as [|[k' v'] r IH]; simpl; [lia|].
  destruct (String.eqb k' k); simpl; lia.
Qed.

Lemma fold_delitem_subseq {V : Type} (ks : list string) (d : OrderedDict.t (V := V)) :
  subseq (fold_left OrderedDict.delitem ks d) d.
Proof.
  revert d. induction ks as [|k r IH]; intros d; simpl.
  - apply subseq_refl.
  - eapply subseq_trans; [apply IH | apply delitem_subseq].
Qed.

Lemma v1_stored_length k (v : Value) ttl s :
  OrderedDict.len (V1Cache._store (v1_stored clock k v ttl s))
  <= Z.max (OrderedDict.len (V1Cache._store s))
       (Z.max 1 (V1Cache.max_size (V1Cache.config s))).
Proof.
  unfold v1_stored. cbn [V1Cache._store].
  set (c := v1_made_room k s).
  set (c2 := if OrderedDict.contains c k then OrderedDict.delitem c k else c).
  pose proof (setitem_length_le c2 k
                (v1_entry k v (v1_effective_ttl s ttl)
                   (clock (V1Cache.ticks (V1Cache.world s))))) as Hle.
  assert (Hc2 : Z.of_nat (length c2) + 1
                <= Z.max (OrderedDict.len (V1Cache._store s))
                     (Z.max 1 (V1Cache.max_size (V1Cache.config s))));
    [|unfold OrderedDict.len in *; lia].
  unfold c2, c, v1_made_room.
  destruct (OrderedDict.contains (V1Cache._store s) k) eqn:Hin; cbn [negb andb].
  - rewrite Hin. unfold OrderedDict.contains in Hin.
    destruct (OrderedDict.get (V1Cache._store s) k) as [e0|] eqn:Hget;
      [|discriminate].
    pose proof (delitem_length _ _ _ Hget). unfold OrderedDict.len. lia.
  - destruct (Z.geb_spec (OrderedDict.len (V1Cache._store s))
                (V1Cache.max_size (V1Cache.config s))) as [Hfull|Hroom].
    + assert (Hstill : OrderedDict.contains (V2._evict_lru (V1Cache._store s)) k
                       = false).
      { destruct (OrderedDict.contains (V2._evict_lru (V1Cache._store s)) k)
          eqn:E; [|reflexivity].
        apply contains_true in E.
        assert (Hk : In k (OrderedDict.keys (V1Cache._store s))).
        { eapply subseq_In; [|eassumption]. apply subseq_map.
          unfold V2._evict_lru. destruct (V1Cache._store s); simpl;
            [constructor | apply subseq_skip; apply subseq_refl]. }
        apply contains_true in Hk. congruence. }
      rewrite Hstill.
      unfold V2._evict_lru, OrderedDict.len in *.
      destruct (V1Cache._store s); simpl length in *; lia.
    + rewrite Hin. unfold OrderedDict.len in *. lia.
Qed.

(** What a public method can do to the dictionary and the
    configuration: the configuration stays and the number of entries
    stays under the bound. *)
Lemma v1_run_op_bound (limit : Z) (op : V1Cache.Op Value) s :
  Z.max 1 (V1Cache.max_size (V1Cache.config s)) <= limit ->
  OrderedDict.len (V1Cache._store s) <= limit ->
  V1Cache.config (V1Cache.run_op clock op s) = V1Cache.config s
  /\ OrderedDict.len (V1Cache._store (V1Cache.run_op clock op s)) <= limit.
Proof.
  intros Hmax Hlen.
  assert (Hsub : forall c, subseq c (V1Cache._store s) -> OrderedDict.len c <= limit).
  { intros c H. apply subseq_length in H. unfold OrderedDict.len in *. lia. }
  destruct op as [k v ttl|k d|k| | | |]; cbn [V1Cache.run_op].
  - rewrite v1_set_eq.
    destruct (v1_saved_frame (v1_stored clock k v ttl s)) as (Hc & Hcf & _).
    rewrite Hc, Hcf. split; [reflexivity|].
    pose proof (v1_stored_length k v ttl s). lia.
  - rewrite v1_get_eq.
    destruct (OrderedDict.get (V1Cache._store s) k) as [e|] eqn:Hget;
      [|now split].
    destruct (V1Cache.past _ _); cbn [snd].
    + split; [reflexivity|]. apply Hsub. apply delitem_subseq.
    + split; [reflexivity|]. unfold v1_touched. cbn [V1Cache._store].
      pose proof (delitem_length _ _ _ Hget).
      unfold OrderedDict.len in *. rewrite length_app. simpl length. lia.
  - rewrite v1_delete_eq.
    destruct (OrderedDict.contains (V1Cache._store s) k); [|now split].
    cbv zeta. cbn [snd].
    destruct (v1_saved_frame
                (V1Cache.set_store (OrderedDict.delitem (V1Cache._store s) k) s))
      as (Hc & Hcf & _).
    rewrite Hc, Hcf. split; [reflexivity|]. apply Hsub. apply delitem_subseq.
  - rewrite v1_clear_eq.
    destruct (v1_saved_frame (V1Cache.set_store [] s)) as (Hc & Hcf & _).
    rewrite Hc, Hcf. split; [reflexivity|]. apply Hsub. apply subseq_nil_l.
  - unfold V1Cache.cleanup_expired.
    do 2 (erewrite v1_bind_run by reflexivity).
    erewrite v1_bind_run by apply v1_purge_loop_eq.
    erewrite v1_bind_run by reflexivity.
    cbn [V1Cache.gets fst snd].
    set (s1 := V1Cache.set_store _ _).
    assert (Hs1 : V1Cache.config s1 = V1Cache.config s
                  /\ subseq (V1Cache._store s1) (V1Cache._store s)).
    { unfold s1. cbn [V1Cache.config V1Cache._store V1Cache.set_store
                      V1Cache.set_world].
      split; [reflexivity | apply fold_delitem_subseq]. }
    destruct Hs1 as (Hcf1 & Hsub1). clearbody s1.
    unfold V1Cache.when.
    destruct (negb _ && V1Cache.auto_saves (V1Cache.config s1)) eqn:Hsave.
    + apply andb_true_iff in Hsave. destruct Hsave as (_ & Hsave).
      pose proof (v1_save_when s1) as Hw. rewrite Hsave in Hw.
      unfold V1Cache.when in Hw. unfold V1Cache.bind. rewrite Hw.
      destruct (v1_saved_frame s1) as (Hc & Hcf & _).
      destruct (v1_saved s1) as [[[]|err] s2]; unfold V1Cache.ret;
        cbn [fst snd] in *; rewrite Hc, Hcf;
        (split; [assumption | now apply Hsub]).
    + run_monad1. cbn [snd]. split; [assumption | now apply Hsub].
  - now split.
  - now split.
Qed.

(** X27.  The first version never holds more entries than the larger
    of its capacity and what it started with, whether calls return or
    raise.  [set] evicts the first entry of the dictionary when a new
    key meets a full cache, expired entries counting like any other;
    [max_size] is not validated, and a capacity of zero or less behaves
    as a capacity of one.  No method changes the configuration. *)
Theorem v1_capacity_kept (ops : list (V1Cache.Op Value)) s :
  V1Cache.config (V1Cache.run_ops clock ops s) = V1Cache.config s
  /\ OrderedDict.len (V1Cache._store (V1Cache.run_ops clock ops s))
     <= Z.max (OrderedDict.len (V1Cache._store s))
          (Z.max 1 (V1Cache.max_size (V1Cache.config s))).
Proof.
  set (limit := Z.max (OrderedDict.len (V1Cache._store s))
                  (Z.max 1 (V1Cache.max_size (V1Cache.config s)))).
  assert (H : forall s', V1Cache.config s' = V1Cache.config s ->
                OrderedDict.len (V1Cache._store s') <= limit ->
                V1Cache.config (V1Cache.run_ops clock ops s') = V1Cache.config s
                /\ OrderedDict.len (V1Cache._store (V1Cache.run_ops clock ops s'))
                   <= limit).
  { induction ops as [|op r IH]; intros s' Hcf Hlen; simpl; [now split|].
    destruct (v1_run_op_bound limit op s') as (Hcf' & Hlen');
      [rewrite Hcf; unfold limit; lia | assumption |].
    apply IH; [congruence | assumption]. }
  apply H; [reflexivity | unfold limit; lia].
Qed.

(** *** Loading *)

Lemma v1_load_loop_eq (now : Z) (l : list (V1Cache.EntryData Value)) s :
  V1Cache.load_loop now l s
  = (V1Cache.Ok tt,
     V1Cache.set_store
       (fold_left (v1_load_step now) (v1_loadable_prefix l) (V1Cache._store s)) s).
Proof.
  revert s. induction l as [|data r IH]; intros s; simpl.
  - destruct s. reflexivity.
  - destruct data as [e|]; simpl; [|destruct s; reflexivity].
    unfold v1_load_step at 2.
    destruct (V1Cache.past now (V1Cache.expires_at e)).
    + apply IH.
    + run_monad1. rewrite IH. reflexivity.
Qed.

(** X28.  What the constructor of the first version loads.  It takes
    the configuration as it is, or the default one, and never writes.
    With a non-empty [persistence_file] that exists and holds a JSON
    dictionary with a list of entries, it loads the elements before the
    first one on which the loop raises, access counts included, leaving
    out those whose nonzero expiry time has passed at the single
    reading taken; the elements after the one that raises are lost and
    [max_size] is not consulted.  In every other case the cache starts
    empty. *)
Theorem v1_init_loads (cfg : option (V1Cache.CacheConfig)) (w : V1Cache.World Value) :
  let c := match cfg with Some c => c | None => V1Cache.default_config end in
  let s := V1Cache.Cache_init clock cfg w in
  V1Cache.config s = c
  /\ V1Cache.files (V1Cache.world s) = V1Cache.files w
  /\ V1Cache._store s
     = match V1Cache.persistence_file c with
       | Some p =>
           if String.eqb p EmptyString then []
           else match V1Cache.files w p with
                | Some (V1Cache.Entries l) =>
                    fold_left (v1_load_step (clock (V1Cache.ticks w)))
                      (v1_loadable_prefix l) []
                | _ => []
                end
       | None => []
       end.
Proof.
  cbv zeta. unfold V1Cache.Cache_init.
  set (c := match cfg with Some c => c | None => V1Cache.default_config end).
  unfold V1Cache.truthy_path, V1Cache.path_exists.
  destruct (V1Cache.persistence_file c) as [p|] eqn:Hp; cbn [andb];
    [|simpl; auto].
  destruct (String.eqb p EmptyString) eqn:Hne; cbn [negb andb]; [simpl; auto|].
  destruct (V1Cache.files w p) as [f|] eqn:Hf; cbn [is_some]; [|simpl; auto].
  unfold V1Cache._load_from_disk.
  erewrite v1_bind_run by reflexivity.
  cbn [V1Cache.gets V1Cache.config fst]. rewrite Hp, Hne.
  erewrite v1_bind_run by reflexivity.
  cbn [V1Cache.gets V1Cache.world V1Cache.files fst]. rewrite Hf.
  destruct f as [| |l].
  - simpl. auto.
  - simpl. auto.
  - erewrite v1_bind_run by reflexivity.
    rewrite v1_load_loop_eq. simpl. auto.
Qed.
End V1Facts.

(** ** The further properties on concrete caches *)

Lemma counters_never_decrease_witness :
  let s' := run_ops Demo.clock
              [OpGet "a" "none"; Demo.set_ "d" "4" None] Demo.abc in
  hits (_stats Demo.abc) <= hits (_stats s')
  /\ misses (_stats Demo.abc) <= misses (_stats s')
  /\ evictions (_stats Demo.abc) <= evictions (_stats s')
  /\ expirations (_stats Demo.abc) <= expirations (_stats s').
Proof. apply (counters_never_decrease Demo.clock). distinct_keys. Defined.

Lemma every_get_is_counted_witness :
  let ops := [OpGet "a" "none"; Demo.set_ "d" "4" None; OpGet "b" "none"] in
  let s' := run_ops Demo.clock ops Demo.abc in
  hits (_stats s') + misses (_stats s')
  = hits (_stats Demo.abc) + misses (_stats Demo.abc) + 2.
Proof.
  apply (every_get_is_counted Demo.clock
           [OpGet "a" "none"; Demo.set_ "d" "4" None; OpGet "b" "none"] Demo.abc).
  distinct_keys.
Defined.

Lemma no_persistence_no_writes_witness :
  files (world (run_ops Demo.clock
                  [Demo.set_ "d" "4" None; OpDelete "a"; OpClear] Demo.abc))
  = files (world Demo.abc).
Proof.
  apply (no_persistence_no_writes Demo.clock).
  - distinct_keys.
  - reflexivity.
Defined.

Lemma disk_never_changes_answers_witness :
  fst (get Demo.clock "a" "none" Demo.abc)
  = fst (get Demo.clock "a" "none" Demo.abc_readonly)
  /\ fst (keys Demo.clock Demo.abc) = fst (keys Demo.clock Demo.abc_readonly).
Proof.
  destruct (disk_never_changes_answers Demo.clock Demo.abc Demo.abc_readonly)
    as (_ & Hget & _ & _ & _ & Hkeys & _).
  - unfold same_memory. split; [reflexivity|]. split; [reflexivity|].
    split; reflexivity.
  - split; [apply Hget | exact Hkeys].
Defined.

Lemma set_then_get_witness :
  let s' := snd (set Demo.clock (KStr "d") "4" None Demo.abc) in
  exists i rest,
    let new := fresh_entry "d" "4" (effective_ttl (config Demo.abc) None)
                 (Demo.clock i) in
    (ticks (world Demo.abc) <= i < ticks (world s'))%nat
    /\ _cache s' = rest ++ [("d", new)]
    /\ OrderedDict.get (_cache s') "d" = Some new
    /\ fst (get Demo.clock "d" "none" s')
       = (if expired_at (Demo.clock (ticks (world s'))) new then "none" else "4")
    /\ fst (has Demo.clock "d" s')
       = negb (expired_at (Demo.clock (ticks (world s'))) new).
Proof.
  apply (set_then_get Demo.clock "d" "4" None "none" Demo.abc).
  - distinct_keys.
  - discriminate.
Defined.

Lemma delete_removes_witness :
  let r := delete Demo.clock "a" Demo.abc in
  fst r = true
  /\ fst (has Demo.clock "a" (snd r)) = false
  /\ fst (delete Demo.clock "a" (snd r)) = false.
Proof.
  destruct (delete_removes Demo.clock "a" "none" Demo.abc)
    as (Hret & _ & _ & _ & Hhas & _ & Hagain).
  - distinct_keys.
  - split; [exact Hret|]. split; [exact Hhas | exact Hagain].
Defined.

Lemma keys_and_size_witness :
  fst (size Demo.clock Demo.abc)
  = Z.of_nat (length (fst (keys Demo.clock Demo.abc)))
  /\ subseq (fst (keys Demo.clock Demo.abc)) (OrderedDict.keys (_cache Demo.abc)).
Proof.
  destruct (keys_and_size Demo.clock Demo.abc) as (Hsize & _ & _ & Hsub & _).
  - distinct_keys.
  - split; [exact Hsize | exact Hsub].
Defined.

Lemma load_failures_start_empty_witness :
  let cfg := mkConfig 3 None (Some "cache.json") true true in
  Cache_init Demo.clock (Some cfg) Demo.world0
  = mkState cfg [] (mkStats 0 0 0 0) Demo.world0.
Proof.
  apply (load_failures_start_empty Demo.clock
           (mkConfig 3 None (Some "cache.json") true true) Demo.world0).
  right. right. right. exists "cache.json".
  split; [reflexivity|]. left. reflexivity.
Defined.

Lemma load_skips_bad_entries_witness :
  let s := Cache_init Demo.clock
             (Some (mkConfig 1 None (Some "cache.json") true true))
             Demo.corrupt_disk in
  OrderedDict.keys (_cache s) = ["a"; "b"]
  /\ OrderedDict.get (_cache s) "b" = Some (mkEntry "b" "2" 2 (Some 0) 2).
Proof.
  destruct (load_skips_bad_entries Demo.clock
              (mkConfig 1 None (Some "cache.json") true true)
              Demo.corrupt_disk "cache.json" "1.0" 5
              [EntryDict (mkEntry "a" "1" 1 None 1); Malformed;
               EntryDict (mkEntry "b" "2" 2 (Some 0) 2)])
    as (Hinit & _ & Hfound).
  - reflexivity.
  - reflexivity.
  - discriminate.
  - reflexivity.
  - simpl. repeat constructor; simpl; intuition discriminate.
  - split; [rewrite Hinit; reflexivity|].
    apply (Hfound (mkEntry "b" "2" 2 (Some 0) 2)).
    + simpl. auto.
    + reflexivity.
Defined.

Lemma mutations_reach_the_disk_witness :
  let s' := snd (clear Demo.fast Demo.stale_on_disk) in
  (exists stamp, files (world s') "cache.json" = Some (snapshot stamp (_cache s')))
  /\ files (world s') (String.append "cache.json" ".tmp") = None.
Proof.
  destruct (mutations_reach_the_disk Demo.fast Demo.stale_on_disk "cache.json")
    as (_ & _ & Hclear).
  - distinct_keys.
  - reflexivity.
  - reflexivity.
  - discriminate.
  - reflexivity.
  - exact Hclear.
Defined.

Lemma write_survives_restart_witness :
  let s1 := snd (set Demo.fast (KStr "new") "x" None Demo.stale_on_disk) in
  let s2 := Cache_init Demo.fast
              (Some (mkConfig 5 None (Some "cache.json") true true)) (world s1) in
  OrderedDict.keys (_cache s2) = ["keep"; "new"].
Proof.
  destruct (write_survives_restart Demo.fast Demo.stale_on_disk "cache.json"
              "new" "x" None (mkConfig 5 None (Some "cache.json") true true) "none")
    as (Hcache & _).
  - distinct_keys.
  - unfold keys_agree. simpl. repeat constructor.
  - reflexivity.
  - reflexivity.
  - discriminate.
  - reflexivity.
  - discriminate.
  - reflexivity.
  - reflexivity.
  - cbv zeta. rewrite Hcache. reflexivity.
Defined.

Lemma no_eviction_with_room_witness :
  let s' := snd (set Demo.clock (KStr "a") "new" None Demo.abc) in
  evictions (_stats s') = evictions (_stats Demo.abc)
  /\ OrderedDict.get (_cache s') "b" = Some (mkEntry "b" "2" 1 None 1).
Proof.
  destruct (no_eviction_with_room Demo.clock "a" "new" None Demo.abc)
    as (Hev & Hkeep).
  - distinct_keys.
  - discriminate.
  - unfold within_capacity. vm_compute. discriminate.
  - left. reflexivity.
  - split; [exact Hev|]. apply Hkeep.
    + discriminate.
    + reflexivity.
    + reflexivity.
Defined.

Lemma hit_protects_from_eviction_witness :
  let s1 := snd (get Demo.clock "a" "none" Demo.abc) in
  let s2 := snd (set Demo.clock (KStr "d") "4" None s1) in
  fst (get Demo.clock "a" "none" Demo.abc) = "1"
  /\ exists e', OrderedDict.get (_cache s2) "a" = Some e' /\ value e' = "1".
Proof.
  apply (hit_protects_from_eviction Demo.clock "a" (mkEntry "a" "1" 0 None 0)
           "d" "4" "none" None Demo.abc).
  - steady_clock.
  - unfold recency_inv. split; [distinct_keys|]. split.
    + unfold access_sorted, le_access. simpl.
      repeat constructor; simpl; lia.
    + unfold accessed_before. simpl. repeat constructor; simpl; lia.
  - simpl. lia.
  - reflexivity.
  - reflexivity.
  - discriminate.
  - discriminate.
Defined.

Lemma v2_capacity_kept_witness :
  let s := V2Cache.run_ops Demo.clock
             [V2Cache.OpSet "d" "4" None; V2Cache.OpGet "a" "none"] Demo.v2_abc in
  V2Cache.max_size s = V2Cache.max_size Demo.v2_abc
  /\ OrderedDict.len (V2Cache._cache s)
     <= Z.max (OrderedDict.len (V2Cache._cache Demo.v2_abc))
          (Z.max 1 (V2Cache.max_size Demo.v2_abc)).
Proof. apply (v2_capacity_kept Demo.clock). distinct_keys. Defined.

Lemma v2_evicts_least_recently_accessed_witness :
  let s := V2Cache.run_ops Demo.clock
             [V2Cache.OpSet "a" "1" None; V2Cache.OpSet "b" "2" None;
              V2Cache.OpSet "c" "3" None; V2Cache.OpGet "a" "none"]
             Demo.v2_empty3 in
  OrderedDict.keys (V2Cache._cache (snd (V2Cache._evict_lru s))) = ["c"; "a"].
Proof.
  destruct (v2_evicts_least_recently_accessed Demo.clock
              [V2Cache.OpSet "a" "1" None; V2Cache.OpSet "b" "2" None;
               V2Cache.OpSet "c" "3" None; V2Cache.OpGet "a" "none"]
              Demo.v2_empty3 "b" (mkEntry "b" "2" 1 None 1)
              [("c", mkEntry "c" "3" 2 None 2); ("a", mkEntry "a" "1" 0 None 3)])
    as (Hrest & _).
  - steady_clock.
  - reflexivity.
  - reflexivity.
  - cbv zeta. rewrite Hrest. reflexivity.
Defined.

Lemma v2_write_then_read_witness :
  let s1 := snd (V2Cache.set Demo.clock EmptyString "x" (Some 0) Demo.v2_abc) in
  exists i,
    V2Cache.ticks (V2Cache.world s1) = S i
    /\ OrderedDict.get (V2Cache._cache s1) EmptyString
       = Some (v2_entry EmptyString "x" (v2_effective_ttl Demo.v2_abc (Some 0))
                 (Demo.clock i))
    /\ fst (V2Cache.get Demo.clock EmptyString "none" s1) = "x".
Proof.
  apply (v2_write_then_read Demo.clock EmptyString "x" (Some 0) "none" Demo.v2_abc).
  distinct_keys.
Defined.

Lemma v2_zero_ttl_never_expires_witness :
  let s' := V2Cache.run_ops Demo.fast
              [V2Cache.OpGet "a" "none"; V2Cache.OpSize; V2Cache.OpHas "b";
               V2Cache.OpGetStats]
              (snd (V2Cache.set Demo.fast "z" "26" (Some 0) Demo.v2_abc)) in
  fst (V2Cache.get Demo.fast "z" "none" s') = "26"
  /\ fst (V2Cache.has Demo.fast "z" s') = true.
Proof.
  apply (v2_zero_ttl_never_expires Demo.fast "z" "26" (Some 0) "none"
           [V2Cache.OpGet "a" "none"; V2Cache.OpSize; V2Cache.OpHas "b";
            V2Cache.OpGetStats] Demo.v2_abc).
  - distinct_keys.
  - reflexivity.
  - reflexivity.
Defined.

Lemma v2_keys_after_cleanup_witness :
  fst (V2Cache.size Demo.clock Demo.v2_abc)
  = Z.of_nat (length (fst (V2Cache.keys Demo.clock Demo.v2_abc)))
  /\ subseq (fst (V2Cache.keys Demo.clock Demo.v2_abc))
       (OrderedDict.keys (V2Cache._cache Demo.v2_abc)).
Proof.
  destruct (v2_keys_after_cleanup Demo.clock Demo.v2_abc) as (Hsize & Hsub & _).
  - distinct_keys.
  - split; [exact Hsize | exact Hsub].
Defined.

Lemma v2_changes_reach_the_file_witness :
  let s' := V2Cache.run_op Demo.clock (V2Cache.OpDelete "a") Demo.v2_on_disk in
  V2Cache.files (V2Cache.world s') "cache.json"
  = Some (v2_snapshot (V2Cache._cache s')).
Proof.
  destruct (v2_changes_reach_the_file Demo.clock (V2Cache.OpDelete "a")
              Demo.v2_on_disk "cache.json") as (Hfile & _).
  - distinct_keys.
  - reflexivity.
  - reflexivity.
  - discriminate.
  - reflexivity.
  - apply Hfile. reflexivity.
Defined.

Lemma v2_restart_restores_witness :
  let s2 := V2Cache.Cache_init Demo.clock 1 None (Some "cache.json") true
              (V2Cache.world Demo.v2_on_disk) in
  OrderedDict.keys (V2Cache._cache s2) = ["a"; "b"].
Proof.
  destruct (v2_restart_restores Demo.clock Demo.v2_on_disk "cache.json" 1 None)
    as (Hcache & _).
  - distinct_keys.
  - unfold keys_agree. simpl. repeat constructor.
  - discriminate.
  - reflexivity.
  - cbv zeta. rewrite Hcache. reflexivity.
Defined.

Lemma v2_get_stats_reports_witness :
  let s := V2Cache.run_ops Demo.clock
             [V2Cache.OpSet "a" "1" None; V2Cache.OpSet "b" "2" (Some 5);
              V2Cache.OpGet "a" "none"] Demo.v2_empty3 in
  let report := fst (V2Cache.get_stats Demo.clock s) in
  fst (fst report) = Z.of_nat (length (snd report))
  /\ snd (fst report) = 3
  /\ map V2Cache.report_key (snd report) = fst (V2Cache.keys Demo.clock s).
Proof.
  destruct (v2_get_stats_reports Demo.clock
              [V2Cache.OpSet "a" "1" None; V2Cache.OpSet "b" "2" (Some 5);
               V2Cache.OpGet "a" "none"] Demo.v2_empty3)
    as (Hsize & _ & Hmax & Hkeys & _).
  - steady_clock.
  - reflexivity.
  - split; [exact Hsize|]. split; [exact Hmax | exact Hkeys].
Defined.

Lemma v1_cleanup_expired_counts_witness :
  let r := V1Cache.cleanup_expired Demo.fast Demo.v1_stale in
  OrderedDict.keys (V1Cache._store (snd r)) = ["keep"]
  /\ fst r = V1Cache.Ok 1.
Proof.
  destruct (v1_cleanup_expired_counts Demo.fast Demo.v1_stale)
    as (Hstore & _ & Hret).
  - simpl. repeat constructor; simpl; intuition discriminate.
  - split; [rewrite Hstore; reflexivity | rewrite Hret; reflexivity].
Defined.

(** ** Values that JSON cannot encode, on concrete caches *)

(** In the third version [set('s', {'1'})] returns [True] and stores the
    set, but the save fails: the storage file still holds the earlier
    snapshot, the temporary file is left behind, and a restart does not
    find ["s"]. *)
Example set_of_unencodable_value :
  let r := set Demo.clock (KStr "s") (Demo.PySet ["1"]) None Demo.py_on_disk in
  let s2 := Cache_init Demo.clock
              (Some (mkConfig 3 None (Some "cache.json") true true))
              (world (snd r)) in
  fst r = Return true
  /\ OrderedDict.keys (_cache (snd r)) = ["t"; "s"]
  /\ files (world (snd r)) "cache.json" = files (world Demo.py_on_disk) "cache.json"
  /\ files (world (snd r)) "cache.json.tmp" = Some NotJSON
  /\ OrderedDict.keys (_cache s2) = ["t"].
Proof. repeat split. Qed.

(** In the second version the same call truncates the file, so a
    restart finds nothing at all. *)
Example v2_set_of_unencodable_value :
  let r := V2Cache.set Demo.clock "s" (Demo.PySet ["1"]) None Demo.v2_py_on_disk in
  let s2 := V2Cache.Cache_init Demo.clock 3 None (Some "cache.json") true
              (V2Cache.world (snd r)) in
  OrderedDict.keys (V2Cache._cache (snd r)) = ["t"; "s"]
  /\ V2Cache.files (V2Cache.world (snd r)) "cache.json" = Some V2Cache.NotJSON
  /\ V2Cache._cache s2 = [].
Proof. repeat split. Qed.

(** In the first version it raises [TypeError], the entry being stored
    and the file truncated all the same. *)
Example v1_set_of_unencodable_value :
  let r := V1Cache.set Demo.clock "s" (Demo.PySet ["1"]) None Demo.v1_py_on_disk in
  fst r = V1Cache.Err V1Cache.TypeError
  /\ OrderedDict.keys (V1Cache._store (snd r)) = ["t"; "s"]
  /\ V1Cache.files (V1Cache.world (snd r)) "cache.json" = Some V1Cache.NotJSON.
Proof. repeat split. Qed.
